(** * Timer, debounce and throttle of examples/Image_slider.ipynb

    The notebook defines a one-shot cancellable [Timer] on top of the
    asyncio event loop, and two decorators, [debounce] and [throttle],
    whose closures keep their state in [nonlocal] cells.

    Embedding.  The event loop is a record holding the clock, the tasks
    created by [asyncio.ensure_future] and the closure cells; closures
    handed to [Timer] are first-order values of a callback type.  Time is
    an integer number of clock ticks (milliseconds in the examples); the
    same clock is read by [time()] and by [asyncio.sleep].  A timer fires
    when the clock reaches its deadline.  For a call made at the very
    clock reading at which a timer is due both orders are written out:
    [run_calls] resumes the timer before the call, [calls_first] makes
    the call before the timer is resumed, as the loop does when the call
    comes from a callback that is run at the deadline; the two orders
    differ only when a call is made at the deadline of a sleeping task.
    Every invocation of the decorated function [fn] is appended to [calls]
    together with the clock reading at which it happened, and the outcome
    of [fn] (normal return or exception) is a parameter. *)

From Stdlib Require Import ZArith Lia.
From stdpp Require Import base list relations.
From Stdlib Require String Ascii DecimalString DecimalNat.

Local Open Scope Z_scope.

(** ** The event loop and [class Timer] *)

Module Loop.

(** State of the task created by [asyncio.ensure_future(self._job())]:
    still inside [asyncio.sleep], finished after the callback returned,
    finished because the callback raised, or cancelled. *)
Inductive TaskState := Sleeping | Returned | Raised | Cancelled.

Section Loop.
Context {C St A : Type}.

(** Running a callback at clock reading [t] on closure cells [s] gives the
    new cells, the arguments [fn] was invoked with (if it was invoked),
    and whether the callback returned normally. *)
Variable run_callback : C -> Z -> St -> St * option A * bool.

Record Task := mkTask { wake_at : Z; job : C; state : TaskState }.

Record Timer := mkTimer { _timeout : Z; _callback : C; _task : nat }.

Record World := mkWorld {
  now : Z;
  tasks : list Task;
  cells : St;
  calls : list (Z * A);
  ran : list nat
}.

Definition set_now (t : Z) (w : World) : World :=
  mkWorld t (tasks w) (cells w) (calls w) (ran w).

Definition set_tasks (ks : list Task) (w : World) : World :=
  mkWorld (now w) ks (cells w) (calls w) (ran w).

Definition set_cells (s : St) (w : World) : World :=
  mkWorld (now w) (tasks w) s (calls w) (ran w).

(** A loop whose clock reads [t0], with no task yet. *)
Definition fresh (t0 : Z) (s : St) : World := mkWorld t0 [] s [] [].

(** [Timer.__init__]: the new task sleeps for [timeout]; asyncio.sleep
    with a delay [<= 0] only yields once, so the task is due at once. *)
Definition Timer_init (timeout : Z) (callback : C) (w : World) : Timer * World :=
  (mkTimer timeout callback (length (tasks w)),
   set_tasks (tasks w ++ [mkTask (now w + Z.max 0 timeout) callback Sleeping]) w).

(** [Task.cancel()]: a task that is done is left as it is. *)
Definition cancel_task (k : Task) : Task :=
  match state k with
  | Sleeping => mkTask (wake_at k) (job k) Cancelled
  | _ => k
  end.

(** [Timer.cancel] *)
Definition Timer_cancel (tm : Timer) (w : World) : World :=
  set_tasks (alter cancel_task (_task tm) (tasks w)) w.

Definition finish (ok : bool) : TaskState := if ok then Returned else Raised.

Definition due (t : Z) (k : Task) : bool :=
  match state k with
  | Sleeping => wake_at k <=? t
  | _ => false
  end.

(** [Timer._job] resuming after its sleep: the callback runs, and the
    task finishes with its outcome.  A task that is not sleeping, or
    whose delay has not elapsed, does not resume. *)
Definition fire (i : nat) (w : World) : World :=
  match tasks w !! i with
  | Some k =>
      if due (now w) k then
        let '(s', inv, ok) := run_callback (job k) (now w) (cells w) in
        mkWorld (now w)
                (<[i := mkTask (wake_at k) (job k) (finish ok)]> (tasks w))
                s'
                (calls w ++ match inv with Some a => [(now w, a)] | None => [] end)
                (ran w ++ [i])
      else w
  | None => w
  end.

(** The sleeping task to resume next when the clock moves to [t]: the one
    with the earliest deadline not after [t], the oldest one on a tie. *)
Fixpoint earliest (i : nat) (ks : list Task) (t : Z) : option (nat * Z) :=
  match ks with
  | [] => None
  | k :: ks' =>
      if due t k then
        match earliest (S i) ks' t with
        | Some (j, d) => if d <? wake_at k then Some (j, d) else Some (i, wake_at k)
        | None => Some (i, wake_at k)
        end
      else earliest (S i) ks' t
  end.

Fixpoint run_due (fuel : nat) (t : Z) (w : World) : World :=
  match fuel with
  | O => w
  | S fuel' =>
      match earliest 0 (tasks w) t with
      | None => w
      | Some (i, d) => run_due fuel' t (fire i (set_now (Z.max (now w) d) w))
      end
  end.

(** Let the loop run until the clock reads [t]: every timer whose delay
    has elapsed by then fires, at its deadline, before anything that
    happens at [t]. *)
Definition run_until (t : Z) (w : World) : World :=
  let w' := run_due (length (tasks w)) t w in
  set_now (Z.max (now w') t) w'.

(** A sequence of calls to a wrapper, each stamped with the clock reading
    at which it is made. *)
Fixpoint run_calls (call : A -> World -> World) (tr : list (Z * A)) (w : World) : World :=
  match tr with
  | [] => w
  | (t, a) :: tr' => run_calls call tr' (call a (run_until t w))
  end.

Definition simulate (call : A -> World -> World) (tr : list (Z * A)) (T : Z)
    (w : World) : World :=
  run_until T (run_calls call tr w).

(** What the loop and the owner of a timer can do, in any order. *)
Inductive lstep : World -> World -> Prop :=
| lstep_tick w t : now w <= t -> lstep w (set_now t w)
| lstep_fire w i : lstep w (fire i w)
| lstep_spawn w timeout cb : lstep w (snd (Timer_init timeout cb w))
| lstep_cancel w tm : lstep w (Timer_cancel tm w)
| lstep_cells w s : lstep w (set_cells s w).

(** What can happen around a wrapper [call]. *)
Inductive step (call : A -> World -> World) : World -> World -> Prop :=
| step_tick w t : now w <= t -> step call w (set_now t w)
| step_fire w i : step call w (fire i w)
| step_call w a : step call w (call a w).

Definition runs (i : nat) (w : World) : nat := count_occ Nat.eq_dec (ran w) i.

Definition sleeping (k : Task) : bool :=
  match state k with
  | Sleeping => true
  | _ => false
  end.

(** Number of tasks that are scheduled, not fired and not cancelled. *)
Definition pending (ks : list Task) : nat := length (List.filter sleeping ks).

Definition quiet (ks : list Task) : Prop := Forall (fun k => state k <> Sleeping) ks.

(** The callback of the task has been run. *)
Definition fired (k : Task) : bool :=
  match state k with
  | Returned | Raised => true
  | _ => false
  end.

(** How a task can change while the loop runs without cancelling it. *)
Definition advances (k k' : Task) : Prop :=
  wake_at k' = wake_at k /\ job k' = job k /\
  (state k' = state k \/ (state k = Sleeping /\ fired k' = true)).

(** Invocations of the callback of task [i] so far, read off the states. *)
Definition expected_runs (o : option Task) : nat :=
  match o with
  | Some k => if fired k then 1%nat else 0%nat
  | None => 0%nat
  end.

(** Task [i] sleeps until [d] to run [c], and no other task sleeps. *)
Definition sole_sleeper (ks : list Task) (i : nat) (d : Z) (c : C) : Prop :=
  ks !! i = Some (mkTask d c Sleeping) /\
  forall j k, j <> i -> ks !! j = Some k -> state k <> Sleeping.

(** The sleeping tasks whose callback is [c]: none, or the single task
    [i], which sleeps until [d]. *)
Definition lane (c : C) (ks : list Task) (p : option (nat * Z)) : Prop :=
  (forall i k, ks !! i = Some k -> job k = c -> sleeping k = true ->
     p = Some (i, wake_at k)) /\
  (forall i d, p = Some (i, d) -> ks !! i = Some (mkTask d c Sleeping)).

(** A sequence of moments at which the loop is run, a call being made at
    some of them. *)
Fixpoint run_some (call : A -> World -> World) (tr : list (Z * option A)) (w : World)
    : World :=
  match tr with
  | [] => w
  | (t, Some a) :: tr' => run_some call tr' (call a (run_until t w))
  | (t, None) :: tr' => run_some call tr' (run_until t w)
  end.

(** Let the loop run until the clock is about to read [t]: the timers
    whose delay has elapsed before [t] fire, each at its deadline; a timer
    due at [t] itself is still asleep.  The clock counts whole ticks, so
    the timers that fire are those due by [t - 1]. *)
Definition run_before (t : Z) (w : World) : World :=
  let w' := run_due (length (tasks w)) (t - 1) w in
  set_now (Z.max (now w') t) w'.

(** A sequence of calls to a wrapper, each made when the clock reads its
    stamp and before the loop resumes a task whose sleep ends at that very
    reading: the call comes from a callback that runs first, and a
    [Task.cancel()] it makes still stops the task. *)
Fixpoint calls_first (call : A -> World -> World) (tr : list (Z * A)) (w : World) : World :=
  match tr with
  | [] => w
  | (t, a) :: tr' => calls_first call tr' (call a (run_before t w))
  end.

Definition simulate_first (call : A -> World -> World) (tr : list (Z * A)) (T : Z)
    (w : World) : World :=
  run_until T (calls_first call tr w).

(** The bookkeeping of callback runs agrees with the states of the tasks. *)
Definition accounted (w : World) : Prop :=
  forall i, runs i w = expected_runs (tasks w !! i).

End Loop.
End Loop.

(** ** [debounce(wait)(fn)] *)

Module Debounce.
Section Debounce.
Context {A : Type}.
Variable wait : Z.

(** Outcome of [fn] on the captured arguments when invoked at clock reading [t]:
    [true] when it returns, [false] when it raises. *)
Variable fn : Z -> A -> bool.

(** The closure [call_it], which captures the arguments of the call of
    [debounced] that created it. *)
Inductive callback := call_it (args : A).

(** The [nonlocal timer] cell: [None] or the last [Timer] created. *)
Definition cell : Type := option (@Loop.Timer callback).

Definition World : Type := @Loop.World callback cell A.

Definition run_callback (c : callback) (t : Z) (s : cell) : cell * option A * bool :=
  match c with
  | call_it args => (s, Some args, fn t args)
  end.

Definition debounced (args : A) (w : World) : World :=
  let w1 := match Loop.cells w with
            | Some timer => Loop.Timer_cancel timer w
            | None => w
            end in
  let '(timer, w2) := Loop.Timer_init wait (call_it args) w1 in
  Loop.set_cells (Some timer) w2.

(** The state right after decoration: [timer = None]. *)
Definition init (t0 : Z) : World := Loop.fresh t0 None.

(** What can happen to a debounced wrapper: the loop's clock advances, a
    task is resumed, the wrapper is called, or a timer is cancelled. *)
Inductive dstep : World -> World -> Prop :=
| dstep_loop w w' : Loop.step run_callback debounced w w' -> dstep w w'
| dstep_cancel w tm : dstep w (Loop.Timer_cancel tm w).

(** What the state of a wrapper amounts to: no timer is pending, or one
    timer, held in the [timer] cell, is pending until [d] and will then
    call [fn] on [a]. *)
Inductive view (w : World) : option (Z * A) -> Prop :=
| view_idle : Loop.quiet (Loop.tasks w) -> view w None
| view_pending d a tm :
    Loop.sole_sleeper (Loop.tasks w) (Loop._task tm) d (call_it a) ->
    Loop.cells w = Some tm ->
    view w (Some (d, a)).

(** The calls that follow a call made at [t] in one burst: each comes
    strictly less than [wait] after the one before. *)
Fixpoint burst (t : Z) (tr : list (Z * A)) : Prop :=
  match tr with
  | [] => True
  | (t', _) :: tr' => t <= t' < t + wait /\ burst t' tr'
  end.

(** Clock readings in chronological order, none before [t]. *)
Fixpoint chrono (t : Z) (ts : list Z) : Prop :=
  match ts with
  | [] => True
  | t' :: ts' => t <= t' /\ chrono t' ts'
  end.

(** The clock reading of the next thing that happens: the first call of
    [tr], or the end of the run at [T]. *)
Definition next_event (tr : list (Z * A)) (T : Z) : Z :=
  match tr with
  | [] => T
  | (t, _) :: _ => t
  end.

(** What a pending timer contributes before the clock reads [t]. *)
Definition owed (p : option (Z * A)) (t : Z) : list (Z * A) :=
  match p with
  | Some (d, a) => if d <=? t then [(d, a)] else []
  | None => []
  end.

(** The executions a sequence of calls leads to when the loop then runs
    until [T]: a call is served once its delay has elapsed, unless another
    call is made before. *)
Fixpoint executions (tr : list (Z * A)) (T : Z) : list (Z * A) :=
  match tr with
  | [] => []
  | (t, a) :: tr' =>
      owed (Some (t + Z.max 0 wait, a)) (next_event tr' T) ++ executions tr' T
  end.

(** The executions a sequence of calls leads to when each call is made
    before a timer due at that clock reading is resumed, the loop then
    running until [T]: a call is served once its delay has elapsed, unless
    another call is made by then; the last call is served if the run lasts
    that long. *)
Fixpoint served (tr : list (Z * A)) (T : Z) : list (Z * A) :=
  match tr with
  | [] => []
  | (t, a) :: tr' =>
      match tr' with
      | [] => if t + Z.max 0 wait <=? T then [(t + Z.max 0 wait, a)] else []
      | (t', _) :: _ => if t + Z.max 0 wait <? t' then [(t + Z.max 0 wait, a)] else []
      end ++ served tr' T
  end.

End Debounce.
End Debounce.

(** ** [throttle(wait)(fn)] *)

Module Throttle.
Section Throttle.
Context {A : Type}.
Variable wait : Z.
Variable fn : Z -> A -> bool.

(** The closure [call_it]; it captures nothing but the shared cells. *)
Inductive callback := call_it.

(** The [nonlocal] cells; [new_args] stands for the pair
    [new_args, new_kwargs], which is [None, None] at first. *)
Record Cells := mkCells {
  time_of_last_call : Z;
  scheduled : bool;
  new_args : option A
}.

Definition World : Type := @Loop.World callback Cells A.

(** [time_of_last_call = time(); call fn on new_args, new_kwargs;
    scheduled = False].  Unpacking [None] raises before [fn] is entered;
    when [fn] raises, the last assignment is not reached. *)
Definition run_callback (c : callback) (t : Z) (s : Cells) : Cells * option A * bool :=
  match c with
  | call_it =>
      match new_args s with
      | None => (mkCells t (scheduled s) (new_args s), None, false)
      | Some a =>
          if fn t a then (mkCells t false (new_args s), Some a, true)
          else (mkCells t (scheduled s) (new_args s), Some a, false)
      end
  end.

(** The local [new_wait] of [throttled]. *)
Definition new_wait (time_since_last_call : Z) : Z :=
  Z.max 0 (wait - time_since_last_call).

Definition throttled (args : A) (w : World) : World :=
  let s := Loop.cells w in
  let time_since_last_call := Loop.now w - time_of_last_call s in
  let w1 := Loop.set_cells (mkCells (time_of_last_call s) (scheduled s) (Some args)) w in
  if negb (scheduled s) then
    let '(_, w2) := Loop.Timer_init (new_wait time_since_last_call) call_it w1 in
    Loop.set_cells (mkCells (time_of_last_call s) true (Some args)) w2
  else w1.

(** The state right after decoration. *)
Definition init (t0 : Z) : World := Loop.fresh t0 (mkCells 0 false None).

Definition tstep : World -> World -> Prop := Loop.step run_callback throttled.

(** What the state of a wrapper amounts to: no timer is pending, or one
    timer is pending until [d], the [scheduled] flag is set and arguments
    are stored. *)
Inductive view (w : World) : option Z -> Prop :=
| view_idle : Loop.quiet (Loop.tasks w) -> view w None
| view_pending i d a :
    Loop.sole_sleeper (Loop.tasks w) i d call_it ->
    scheduled (Loop.cells w) = true ->
    new_args (Loop.cells w) = Some a ->
    view w (Some d).

(** No task has been cancelled. *)
Definition uncancelled (w : World) : Prop :=
  Forall (fun k => Loop.state k <> Loop.Cancelled) (Loop.tasks w).

(** Successive executions of [fn] are at least [wait] apart. *)
Fixpoint paced (l : list (Z * A)) : Prop :=
  match l with
  | [] => True
  | (t1, _) :: l' =>
      match l' with
      | [] => True
      | (t2, _) :: _ => t1 + wait <= t2
      end /\ paced l'
  end.

(** The executions so far are paced, [time_of_last_call] is not before the
    last of them, and a pending timer is not due sooner than [wait] after
    [time_of_last_call]. *)
Definition in_pace (w : World) : Prop :=
  paced (Loop.calls w) /\
  (forall t a, last (Loop.calls w) = Some (t, a) -> t <= time_of_last_call (Loop.cells w)) /\
  (forall i k, Loop.tasks w !! i = Some k -> Loop.sleeping k = true ->
     time_of_last_call (Loop.cells w) + wait <= Loop.wake_at k).

(** [fn] returns whenever it is invoked. *)
Definition never_raises : Prop := forall t a, fn t a = true.

(** [time_of_last_call] is not in the future, and no pending timer is due
    later than [wait] from now. *)
Definition prompt (w : World) : Prop :=
  time_of_last_call (Loop.cells w) <= Loop.now w /\
  forall i k, Loop.tasks w !! i = Some k -> Loop.sleeping k = true ->
    Loop.wake_at k <= Loop.now w + wait.

(** The stored arguments and the arguments of every execution so far are
    among [given]. *)
Definition from_calls (given : A -> Prop) (w : World) : Prop :=
  (forall a, new_args (Loop.cells w) = Some a -> given a) /\
  (forall t a, (t, a) ∈ Loop.calls w -> given a).

(** Either nothing is scheduled and no timer is pending, or a timer is
    pending and the stored arguments are [a]. *)
Definition armed (w : World) : Prop :=
  (scheduled (Loop.cells w) = false /\ Loop.quiet (Loop.tasks w)) \/
  exists d, view w (Some d).

(** *** Calls made while [fn] runs *)

(** [fn] may call the wrapper while it runs, as [show_snapshot] does: its
    assignment to [date_slider.value] makes the widget call the observer,
    which calls the wrapper.  [inner t a] lists the arguments of the calls
    that [fn], invoked at [t] on [a], makes before it returns or raises. *)
Variable inner : Z -> A -> list A.

(** [Timer._job] resuming after its sleep, the calls [fn] makes included:
    [time_of_last_call = time()], then [fn] runs and calls the wrapper,
    then [scheduled = False] if [fn] returned. *)
Definition resume (i : nat) (w : World) : World :=
  match Loop.tasks w !! i with
  | Some k =>
      if Loop.due (Loop.now w) k then
        let t := Loop.now w in
        let s := Loop.cells w in
        match new_args s with
        | None =>
            Loop.mkWorld t
              (<[i := Loop.mkTask (Loop.wake_at k) (Loop.job k) Loop.Raised]> (Loop.tasks w))
              (mkCells t (scheduled s) (new_args s))
              (Loop.calls w) (Loop.ran w ++ [i])
        | Some a =>
            let w1 := foldl (fun w' b => throttled b w')
                            (Loop.set_cells (mkCells t (scheduled s) (new_args s)) w)
                            (inner t a) in
            let s1 := Loop.cells w1 in
            Loop.mkWorld t
              (<[i := Loop.mkTask (Loop.wake_at k) (Loop.job k) (Loop.finish (fn t a))]>
                 (Loop.tasks w1))
              (if fn t a then mkCells (time_of_last_call s1) false (new_args s1) else s1)
              (Loop.calls w1 ++ [(t, a)]) (Loop.ran w1 ++ [i])
        end
      else w
  | None => w
  end.

(** What can happen without a call from outside [fn]: the clock advances,
    or a task is resumed. *)
Inductive waits : World -> World -> Prop :=
| waits_tick w t : Loop.now w <= t -> waits w (Loop.set_now t w)
| waits_resume w i : waits w (resume i w).

(** What can happen to a wrapper whose [fn] may call it. *)
Inductive rstep : World -> World -> Prop :=
| rstep_waits w w' : waits w w' -> rstep w w'
| rstep_call w a : rstep w (throttled a w).

End Throttle.
End Throttle.

(** ** File names, slider and overlay code of the notebooks *)

Module Notebook.
Import String Ascii.
Local Open Scope string_scope.

(** *** Python string operations the cells use *)

(** [str(n)] for a non-negative integer [n]. *)
Definition str (n : nat) : string :=
  DecimalString.NilEmpty.string_of_uint (Nat.to_uint n).

Fixpoint zeros (n : nat) : string :=
  match n with
  | O => ""
  | S n' => String "0" (zeros n')
  end.

(** [s.zfill(width)]: the zeros go after a leading sign. *)
Definition zfill (width : nat) (s : string) : string :=
  if (width <=? String.length s)%nat then s
  else
    let fill := zeros (width - String.length s) in
    match s with
    | String c rest =>
        if (Ascii.eqb c "+" || Ascii.eqb c "-")%bool then String c (fill ++ rest)
        else fill ++ s
    | EmptyString => fill
    end.

(** [s.startswith(prefix)] and [s.endswith(suffix)]. *)
Definition startswith (s prefix : string) : bool := String.prefix prefix s.

Definition endswith (s suffix : string) : bool :=
  ((String.length suffix <=? String.length s)%nat &&
   (substring (String.length s - String.length suffix) (String.length suffix) s =? suffix))%bool.

(** The slice [s[:-n]]. *)
Definition drop_last (n : nat) (s : string) : string :=
  substring 0 (String.length s - n) s.

(** *** Dates *)

(** A [datetime] with whole minutes, as the number of minutes since
    2017-01-01 00:00; [datetime.timedelta(minutes=30)] is 30. *)
Definition datetime : Type := Z.

Definition hour (d : datetime) : nat := Z.to_nat ((d / 60) mod 24).
Definition minute (d : datetime) : nat := Z.to_nat (d mod 60).

Definition start_date : datetime := 0.
Definition end_date : datetime := 1440.

(** *** [get_tif_name] and the names derived from it *)

Definition get_tif_name (date : datetime) : string :=
  let hour := zfill 2 (str (hour date)) in
  let minu1 := zfill 2 (str (minute date)) in
  let minu2 := zfill 2 (str (minute date + 29)) in
  let minu3 := zfill 4 (str (Notebook.hour date * 60 + minute date)) in
  "3B-HHR-GIS.MS.MRG.3IMERG.20170101-S" ++ hour ++ minu1 ++ "00-E" ++ hour
    ++ minu2 ++ "59." ++ minu3 ++ ".V06B.tif".

(** The condition of the list comprehension that builds [lst] from the
    FTP listing. *)
Definition wanted (i : string) : bool :=
  (startswith i "3B-HHR-GIS.MS.MRG.3IMERG." && endswith i ".V06B.tif")%bool.

Definition lst (nlst : list string) : list string := List.filter wanted nlst.

(** [png_name = fname[:-3] + "png"] *)
Definition png_name (fname : string) : string := drop_last 3 fname ++ "png".

(** *** The download loop *)

(** [os.path.exists("tif/" + filename)], the directory being the list of
    the names in it. *)
Definition exists_in (dir : list string) (filename : string) : bool :=
  existsb (String.eqb filename) dir.

(** [for filename in lst: if not os.path.exists(...): ftp.retrbinary(...)].
    The result is the directory and the names fetched, in order. *)
Fixpoint download (lst : list string) (tif : list string) (fetched : list string)
    : list string * list string :=
  match lst with
  | [] => (tif, fetched)
  | filename :: rest =>
      if exists_in tif filename then download rest tif fetched
      else download rest (tif ++ [filename])%list (fetched ++ [filename])%list
  end.

(** *** The renaming loop of the video notebook *)

(** ["f" + str(i).zfill(2) + ".png"] *)
Definition frame_name (i : nat) : string := "f" ++ zfill 2 (str i) ++ ".png".

Section Rename.
Context {F : Type}.

(** The directory png/, from names to file contents. *)
Definition dir : Type := string -> option F.

(** [os.rename(src, dst)]: fails when [src] does not exist, and replaces
    [dst] when it does. *)
Definition rename (src dst : string) (d : dir) : option dir :=
  match d src with
  | None => None
  | Some content =>
      Some (fun name =>
              if name =? dst then Some content
              else if name =? src then None
              else d name)
  end.

(** [for i, f in enumerate(png_files): if f.startswith(...): os.rename(...)],
    from index [i] on. *)
Fixpoint rename_frames (i : nat) (png_files : list string) (d : dir) : option dir :=
  match png_files with
  | [] => Some d
  | f :: rest =>
      if startswith f "3B-HHR-GIS.MS.MRG.3IMERG." then
        match rename f (frame_name i) d with
        | Some d' => rename_frames (S i) rest d'
        | None => None
        end
      else rename_frames (S i) rest d
  end.

End Rename.

(** *** [display_png] and [show_snapshot] *)

Section Gui.

(** [encoded fname] is the base64 text of the content of the file [fname]
    (open, read, b64encode, decode), or [None] when it cannot be opened. *)
Variable encoded : string -> option string.

(** The globals the callbacks work on.  [ImageOverlay] objects live in
    [overlays] (the url of each); [io] and the layers of the map [m] refer
    to them by index. *)
Record Gui := mkGui {
  value : datetime * datetime;
  snapshot_fname : option string;
  io : option nat;
  overlays : list string;
  layers : list nat
}.

(** [display_png(fname)]; the flag is false when opening the file raised. *)
Definition display_png (fname : string) (g : Gui) : Gui * bool :=
  match encoded fname with
  | None => (g, false)
  | Some data =>
      let imgurl := "data:image/png;base64," ++ data in
      match io g with
      | None =>
          (mkGui (value g) (snapshot_fname g)
                 (Some (List.length (overlays g)))
                 (overlays g ++ [imgurl])%list
                 (layers g ++ [List.length (overlays g)])%list,
           true)
      | Some r =>
          (mkGui (value g) (snapshot_fname g) (io g)
                 (<[r := imgurl]> (overlays g)) (layers g),
           true)
      end
  end.

(** The [change] dictionary passed to an observer. *)
Record Change := mkChange {
  old : datetime * datetime;
  new : datetime * datetime
}.

(** The value [show_snapshot] assigns to [date_slider.value]. *)
Definition snapped (change : Change) : datetime * datetime :=
  if (fst (new change) =? end_date)%Z then (end_date - 30, end_date)
  else if (snd (new change) =? start_date)%Z then (start_date, start_date + 30)
  else if negb (fst (new change) =? fst (old change))%Z
       then (fst (new change), fst (new change) + 30)
  else (snd (new change) - 30, snd (new change)).

Definition same_name (o : option string) (s : string) : bool :=
  match o with
  | Some s' => (s' =? s)%string
  | None => false
  end.

(** The [options] of the slider are the half-hour marks from [start_date]
    to [end_date] ([pd.date_range] with [freq="30min"]). *)
Definition is_option (d : datetime) : bool :=
  ((start_date <=? d)%Z && (d <=? end_date)%Z && ((d - start_date) mod 30 =? 0)%Z)%bool.

(** [date_slider.value = v] is accepted when both ends of [v] are among
    the options; otherwise the widget raises [TraitError] and keeps its
    value. *)
Definition selectable (v : datetime * datetime) : bool :=
  (is_option (fst v) && is_option (snd v))%bool.

(** The body of [show_snapshot(change)]; the flag is false when it raised,
    at the assignment to the slider or in [display_png]. *)
Definition show_snapshot (change : Change) (g : Gui) : Gui * bool :=
  if selectable (snapped change) then
    let g1 := mkGui (snapped change) (snapshot_fname g) (io g) (overlays g) (layers g) in
    let new_fname := png_name (get_tif_name (fst (value g1))) in
    if negb (same_name (snapshot_fname g1) new_fname) then
      match display_png ("png/" ++ new_fname) g1 with
      | (g2, true) =>
          (mkGui (value g2) (Some new_fname) (io g2) (overlays g2) (layers g2), true)
      | (g2, false) => (g2, false)
      end
    else (g1, true)
  else (g, false).

(** The globals before any callback has run, the slider showing [v]. *)
Definition gui0 (v : datetime * datetime) : Gui := mkGui v None None [] [].

(** The overlay and [snapshot_fname] agree: nothing has been displayed and
    the map has no overlay, or the map has one overlay, [io], whose url is
    the image of the file [snapshot_fname] names. *)
Definition consistent (g : Gui) : Prop :=
  match snapshot_fname g with
  | None => io g = None /\ overlays g = [] /\ layers g = []
  | Some f =>
      exists data,
        encoded ("png/" ++ f) = Some data /\
        io g = Some 0%nat /\
        overlays g = ["data:image/png;base64," ++ data] /\
        layers g = [0%nat]
  end.

(** A sequence of slider changes handled in snapshot mode; a call that
    raises does not stop the ones that follow. *)
Fixpoint show_snapshots (changes : list Change) (g : Gui) : Gui :=
  match changes with
  | [] => g
  | c :: rest => show_snapshots rest (fst (show_snapshot c g))
  end.

End Gui.

(** *** The loop of [show_mean] *)

Section Mean.
Context {R V : Type}.

(** [load fname]: the band read from the file and scaled, or [None] when
    the file cannot be opened. *)
Variable load : string -> option R.
(** [mean_data + data], [mean_data / nb], [np.nanmax(data)],
    [max(mean_vmax, _)], the initial [mean_vmax = 0] and
    [mean_vmax *= 0.1 / nb]. *)
Variable radd : R -> R -> R.
Variable rdiv : R -> nat -> R.
Variable nanmax : R -> V.
Variable vmax : V -> V -> V.
Variable v0 : V.
Variable vscale : V -> nat -> V.

Inductive MeanResult :=
| OutOfFuel
| OpenFailed
| TypeError
| Mean (mean_data : R) (mean_vmax : V) (nb : nat).

(** [while date < date_slider.value[1]: ...] *)
Fixpoint mean_loop (fuel : nat) (upper : datetime)
    (mean_data : option R) (mean_vmax : V) (nb : nat) (date : datetime)
    : option (option (option R * V * nat)) :=
  if (date <? upper)%Z then
    match fuel with
    | O => None
    | S fuel' =>
        match load ("tif/" ++ get_tif_name date) with
        | None => Some None
        | Some data =>
            mean_loop fuel' upper
              (match mean_data with
               | None => Some data
               | Some m => Some (radd m data)
               end)
              (vmax mean_vmax (nanmax data)) (S nb) (date + 30)
        end
    end
  else Some (Some (mean_data, mean_vmax, nb)).

(** The computation of [show_mean] up to the image it hands to
    [to_web_mercator] and [to_png]: [mean_data / nb] raises when
    [mean_data] is still [None]. *)
Definition show_mean (v : datetime * datetime) : MeanResult :=
  match mean_loop (Z.to_nat (snd v - fst v)) (snd v) None v0 O (fst v) with
  | None => OutOfFuel
  | Some None => OpenFailed
  | Some (Some (None, _, _)) => TypeError
  | Some (Some (Some m, mv, nb)) => Mean (rdiv m nb) (vscale mv nb) nb
  end.

(** The half-hour slots from [lower] up to, not including, [upper]. *)
Definition slots (lower upper : datetime) : list datetime :=
  map (fun i => lower + 30 * Z.of_nat i) (seq 0 (Z.to_nat ((upper - lower + 29) / 30))).

End Mean.

End Notebook.

(** ** The observer of the slider: [date_changed] *)

Module Slider.
Import Notebook.
Section Slider.

(** Whether [show_mean()] returns normally when it is run at clock reading
    [t], and whether [show_snapshot(change)] does.  The bodies of the two
    functions are taken through these outcomes only: a body that assigns
    [date_slider.value] makes the widget call the observer again from
    inside the callback, and that nested call is not part of the model. *)
Variable show_mean_returns : Z -> bool.
Variable show_snapshot_returns : Z -> Change -> bool.

(** The [call_it] closures of the debounced [show_mean] and of the
    throttled [show_snapshot]. *)
Inductive callback := mean_call_it | snapshot_call_it.

(** The [nonlocal] cells of the two decorators: [timer] belongs to
    [debounce], the other three to [throttle]. *)
Record Cells := mkCells {
  timer : option (@Loop.Timer callback);
  time_of_last_call : Z;
  scheduled : bool;
  new_args : option Change
}.

(** An execution of one of the two decorated functions. *)
Inductive Ran := ran_mean | ran_snapshot (change : Change).

Definition World : Type := @Loop.World callback Cells Ran.

Definition run_callback (c : callback) (t : Z) (s : Cells) : Cells * option Ran * bool :=
  match c with
  | mean_call_it => (s, Some ran_mean, show_mean_returns t)
  | snapshot_call_it =>
      match new_args s with
      | None => (mkCells (timer s) t (scheduled s) (new_args s), None, false)
      | Some a =>
          if show_snapshot_returns t a
          then (mkCells (timer s) t false (new_args s), Some (ran_snapshot a), true)
          else (mkCells (timer s) t (scheduled s) (new_args s), Some (ran_snapshot a), false)
      end
  end.

(** [@debounce(0.2)] and [@throttle(0.1)], in milliseconds. *)
Definition mean_wait : Z := 200.
Definition snapshot_wait : Z := 100.

(** [show_mean()] as decorated: the body of [debounced]. *)
Definition show_mean (w : World) : World :=
  let w1 := match timer (Loop.cells w) with
            | Some tm => Loop.Timer_cancel tm w
            | None => w
            end in
  let '(tm, w2) := Loop.Timer_init mean_wait mean_call_it w1 in
  let s := Loop.cells w2 in
  Loop.set_cells (mkCells (Some tm) (time_of_last_call s) (scheduled s) (new_args s)) w2.

(** [show_snapshot(change)] as decorated: the body of [throttled]. *)
Definition show_snapshot (change : Change) (w : World) : World :=
  let s := Loop.cells w in
  let time_since_last_call := Loop.now w - time_of_last_call s in
  let w1 := Loop.set_cells
              (mkCells (timer s) (time_of_last_call s) (scheduled s) (Some change)) w in
  if negb (scheduled s) then
    let new_wait := Z.max 0 (snapshot_wait - time_since_last_call) in
    let '(_, w2) := Loop.Timer_init new_wait snapshot_call_it w1 in
    Loop.set_cells (mkCells (timer s) (time_of_last_call s) true (Some change)) w2
  else w1.

(** [date_changed(change)], [snapshot_value] being [snapshot.value]. *)
Definition date_changed (snapshot_value : bool) (change : Change) (w : World) : World :=
  if snapshot_value then show_snapshot change w else show_mean w.

Definition init (t0 : Z) : World := Loop.fresh t0 (mkCells None 0 false None).

(** A change of the slider: when it happens, the state of the check box
    then, and the change. *)
Definition Event : Type := Z * bool * Change.

Fixpoint run_events (evs : list Event) (w : World) : World :=
  match evs with
  | [] => w
  | (t, snapshot_value, change) :: rest =>
      run_events rest (date_changed snapshot_value change (Loop.run_until run_callback t w))
  end.

Definition simulate (evs : list Event) (T : Z) (w : World) : World :=
  Loop.run_until run_callback T (run_events evs w).

(** The executions of each function, and the calls the throttled wrapper
    receives. *)
Definition snapshots (l : list (Z * Ran)) : list (Z * Change) :=
  omap (fun e => match snd e with
                 | ran_snapshot c => Some (fst e, c)
                 | ran_mean => None
                 end) l.

Definition means (l : list (Z * Ran)) : list (Z * unit) :=
  omap (fun e => match snd e with
                 | ran_mean => Some (fst e, tt)
                 | ran_snapshot _ => None
                 end) l.

Definition snapshot_calls (evs : list Event) : list (Z * Change) :=
  omap (fun e : Event => if snd (fst e) then Some (fst (fst e), snd e) else None) evs.

(** What is left pending of a lane after the loop has run until [t]. *)
Definition left_over (p : option (nat * Z)) (t : Z) : option (nat * Z) :=
  match p with
  | Some (i, d) => if d <=? t then None else Some (i, d)
  | None => None
  end.

(** The timers of the two wrappers: the sleeping tasks are at most one of
    each kind; the [timer] cell holds a timer of [show_mean], the pending
    one if there is one; a pending timer of [show_snapshot] goes with the
    [scheduled] flag and stored arguments. *)
Definition lanes (w : World) (pm ps : option (nat * Z)) : Prop :=
  Loop.lane mean_call_it (Loop.tasks w) pm /\
  Loop.lane snapshot_call_it (Loop.tasks w) ps /\
  (forall tm, timer (Loop.cells w) = Some tm ->
     exists k, Loop.tasks w !! Loop._task tm = Some k /\ Loop.job k = mean_call_it) /\
  (forall i d, pm = Some (i, d) ->
     exists tm, timer (Loop.cells w) = Some tm /\ Loop._task tm = i) /\
  (forall i d, ps = Some (i, d) ->
     scheduled (Loop.cells w) = true /\ exists a, new_args (Loop.cells w) = Some a).

(** The cells of [throttle] among the cells of the two decorators. *)
Definition throttle_part (s : Cells) : @Throttle.Cells Change :=
  Throttle.mkCells (time_of_last_call s) (scheduled s) (new_args s).

(** The deadline of a pending timer, when it has passed by [t]. *)
Definition due_in (p : option (nat * Z)) (t : Z) : option Z :=
  match p with
  | Some (_, d) => if d <=? t then Some d else None
  | None => None
  end.

(** What running the loop until [t] does to a world [w] whose pending
    timers are [pm] and [ps], giving [w']. *)
Definition advanced (t : Z) (pm ps : option (nat * Z)) (w w' : World) : Prop :=
  lanes w' (left_over pm t) (left_over ps t) /\
  Loop.now w' = Z.max (Loop.now w) t /\
  timer (Loop.cells w') = timer (Loop.cells w) /\
  means (Loop.calls w') =
    means (Loop.calls w) ++
    match due_in pm t with
    | Some d => [(Z.max (Loop.now w) d, tt)]
    | None => []
    end /\
  match due_in ps t with
  | Some d =>
      let '(s', inv, _) :=
        Throttle.run_callback show_snapshot_returns Throttle.call_it
          (Z.max (Loop.now w) d) (throttle_part (Loop.cells w)) in
      throttle_part (Loop.cells w') = s' /\
      snapshots (Loop.calls w') =
        snapshots (Loop.calls w) ++
        match inv with
        | Some a => [(Z.max (Loop.now w) d, a)]
        | None => []
        end
  | None =>
      throttle_part (Loop.cells w') = throttle_part (Loop.cells w) /\
      snapshots (Loop.calls w') = snapshots (Loop.calls w)
  end.

(** A world of the two wrappers next to a world of [throttle] alone that
    has seen the same calls of [show_snapshot]. *)
Definition throttle_twin (w : World) (ps : option (nat * Z))
    (wT : @Throttle.World Change) : Prop :=
  Loop.now w = Loop.now wT /\
  throttle_part (Loop.cells w) = Loop.cells wT /\
  snapshots (Loop.calls w) = Loop.calls wT /\
  match ps with
  | Some (_, d) => exists i, Loop.sole_sleeper (Loop.tasks wT) i d Throttle.call_it
  | None => Loop.quiet (Loop.tasks wT)
  end.

(** The events as the throttled wrapper alone sees them: a moment at which
    the loop runs, with a call or without. *)
Definition snapshot_moments (evs : list Event) : list (Z * option Change) :=
  map (fun e : Event => (fst (fst e), if snd (fst e) then Some (snd e) else None)) evs.

End Slider.

(** A use of the slider: two changes with the box checked, the box is
    unchecked for two more, and checked again for the last. *)
Definition dragged : list Event :=
  [(0, true, mkChange (0, 1440) (30, 1440));
   (40, false, mkChange (30, 1440) (60, 1440));
   (60, true, mkChange (60, 1440) (90, 1440));
   (150, false, mkChange (60, 1440) (90, 1440));
   (450, true, mkChange (90, 1440) (120, 1440))].

End Slider.

(** ** Concrete instances for the examples *)

Module Examples.

(** A decorated function that always returns, and one that always raises. *)
Definition returns : Z -> nat -> bool := fun _ _ => true.
Definition raises : Z -> nat -> bool := fun _ _ => false.

(** A callback that touches nothing and returns. *)
Definition plain (c : unit) (t : Z) (s : unit) : unit * option nat * bool :=
  (s, None, true).

End Examples.

(** * Properties *)

(** ** The event loop *)

Module LoopFacts.
Import Loop.
Section LoopFacts.
Context {C St A : Type}.
Variable run_callback : C -> Z -> St -> St * option A * bool.

Abbreviation World := (@Loop.World C St A).
Abbreviation Task := (@Loop.Task C).
Abbreviation fire := (Loop.fire run_callback).
Abbreviation run_due := (Loop.run_due run_callback).
Abbreviation run_until := (Loop.run_until run_callback).
Abbreviation lstep := (Loop.lstep run_callback).

Lemma due_sleeping t (k : Task) : due t k = true -> sleeping k = true /\ wake_at k <= t.
Proof.
  unfold due, sleeping. destruct (state k); try discriminate.
  intros H. split; [reflexivity | lia].
Qed.

Lemma due_intro t (k : Task) : state k = Sleeping -> wake_at k <= t -> due t k = true.
Proof. unfold due. intros -> H. lia. Qed.

Lemma due_mono t t' (k : Task) : due t k = true -> t <= t' -> due t' k = true.
Proof.
  unfold due. destruct (state k); try discriminate. lia.
Qed.

Lemma quiet_not_due t (ks : list Task) :
  quiet ks -> Forall (fun k => due t k = false) ks.
Proof.
  unfold quiet. intros H. eapply Forall_impl; [exact H|].
  intros k Hk. simpl in Hk. unfold due. destruct (state k); congruence.
Qed.

Lemma earliest_None i (ks : list Task) t :
  earliest i ks t = None <-> Forall (fun k => due t k = false) ks.
Proof.
  revert i. induction ks as [|k ks IH]; intros i; simpl.
  - split; [constructor | reflexivity].
  - destruct (due t k) eqn:Hd.
    + split.
      * destruct (earliest (S i) ks t) as [[j d]|]; [destruct (d <? wake_at k)|];
          discriminate.
      * intros H. inversion H; subst. congruence.
    + rewrite IH. split.
      * intros H. constructor; assumption.
      * intros H. inversion H; subst. assumption.
Qed.

Lemma earliest_Some i (ks : list Task) t j d :
  earliest i ks t = Some (j, d) ->
  (i <= j)%nat /\ exists k, ks !! (j - i)%nat = Some k /\ due t k = true /\ wake_at k = d.
Proof.
  revert i. induction ks as [|k ks IH]; intros i; simpl; [discriminate|].
  assert (Hrec : earliest (S i) ks t = Some (j, d) ->
                 (i <= j)%nat /\ exists k', (k :: ks) !! (j - i)%nat = Some k'
                                   /\ due t k' = true /\ wake_at k' = d).
  { intros H. apply IH in H as (Hle & k' & Hk' & Hd & Hw).
    split; [lia|]. exists k'. split; [|auto].
    replace (j - i)%nat with (S (j - S i)) by lia. exact Hk'. }
  assert (Hhere : due t k = true -> (i <= i)%nat /\
                 exists k', (k :: ks) !! (i - i)%nat = Some k'
                            /\ due t k' = true /\ wake_at k' = wake_at k).
  { intros Hd. split; [lia|]. exists k. rewrite Nat.sub_diag. auto. }
  destruct (due t k) eqn:Hd; [|exact Hrec].
  destruct (earliest (S i) ks t) as [[j' d']|] eqn:He.
  - destruct (d' <? wake_at k); intros [= <- <-]; auto.
  - intros [= <- <-]; auto.
Qed.

Lemma fire_enabled i (w : World) k :
  tasks w !! i = Some k -> due (now w) k = true ->
  fire i w =
    let '(s', inv, ok) := run_callback (job k) (now w) (cells w) in
    mkWorld (now w) (<[i := mkTask (wake_at k) (job k) (finish ok)]> (tasks w)) s'
            (calls w ++ match inv with Some a => [(now w, a)] | None => [] end)
            (ran w ++ [i]).
Proof. intros Hk Hd. unfold Loop.fire. rewrite Hk, Hd. reflexivity. Qed.

Lemma fire_disabled i (w : World) :
  (forall k, tasks w !! i = Some k -> due (now w) k = false) -> fire i w = w.
Proof.
  intros H. unfold Loop.fire. destruct (tasks w !! i) as [k|] eqn:Hk; [|reflexivity].
  rewrite (H k eq_refl). reflexivity.
Qed.

Lemma fire_now i (w : World) : now (fire i w) = now w.
Proof.
  unfold Loop.fire. destruct (tasks w !! i) as [k|]; [|reflexivity].
  destruct (due (now w) k); [|reflexivity].
  destruct (run_callback (job k) (now w) (cells w)) as [[s' inv] ok]. reflexivity.
Qed.

Lemma fire_length i (w : World) : length (tasks (fire i w)) = length (tasks w).
Proof.
  unfold Loop.fire. destruct (tasks w !! i) as [k|]; [|reflexivity].
  destruct (due (now w) k); [|reflexivity].
  destruct (run_callback (job k) (now w) (cells w)) as [[s' inv] ok]. simpl.
  apply length_insert.
Qed.

Lemma finish_fired ok (d : Z) (c : C) : fired (mkTask d c (finish ok)) = true.
Proof. destruct ok; reflexivity. Qed.

Lemma finish_not_sleeping ok (d : Z) (c : C) : sleeping (mkTask d c (finish ok)) = false.
Proof. destruct ok; reflexivity. Qed.

Lemma advances_refl (k : Task) : advances k k.
Proof. unfold advances. auto. Qed.

Lemma advances_trans (k1 k2 k3 : Task) :
  advances k1 k2 -> advances k2 k3 -> advances k1 k3.
Proof.
  unfold advances, fired. intros (Hw1 & Hj1 & Hs1) (Hw2 & Hj2 & Hs2).
  split; [congruence|]. split; [congruence|].
  destruct Hs1 as [Hs1|[Hs1 Hf1]], Hs2 as [Hs2|[Hs2 Hf2]].
  - left. congruence.
  - right. split; [congruence|assumption].
  - right. split; [assumption|]. rewrite Hs2. assumption.
  - rewrite Hs2 in Hf1. discriminate.
Qed.

(** Resuming a task leaves every task in place, and changes at most the
    resumed one, from sleeping to fired. *)
Lemma fire_advances j (w : World) i k :
  tasks w !! i = Some k ->
  exists k', tasks (fire j w) !! i = Some k' /\ advances k k'.
Proof.
  intros Hk. unfold Loop.fire.
  destruct (tasks w !! j) as [kj|] eqn:Hj; [|exists k; split; [assumption | apply advances_refl]].
  destruct (due (now w) kj) eqn:Hd; [|exists k; split; [assumption | apply advances_refl]].
  destruct (run_callback (job kj) (now w) (cells w)) as [[s' inv] ok]. simpl.
  destruct (decide (j = i)) as [->|Hne].
  - rewrite list_lookup_insert_eq by (eapply lookup_lt_Some; eassumption).
    eexists. split; [reflexivity|].
    assert (kj = k) by congruence. subst kj.
    apply due_sleeping in Hd as [Hs _]. unfold sleeping in Hs.
    unfold advances. simpl. split; [reflexivity|]. split; [reflexivity|].
    right. split; [destruct (state k); congruence | apply finish_fired].
  - rewrite list_lookup_insert_ne by assumption.
    exists k. split; [assumption | apply advances_refl].
Qed.

Lemma pending_app (ks ks' : list Task) :
  pending (ks ++ ks') = (pending ks + pending ks')%nat.
Proof. unfold pending. rewrite List.filter_app, length_app. reflexivity. Qed.

Lemma pending_insert (ks : list Task) i k k' :
  ks !! i = Some k -> sleeping k = true -> sleeping k' = false ->
  S (pending (<[i := k']> ks)) = pending ks.
Proof.
  revert i. induction ks as [|x ks IH]; intros i Hk Hs Hs'; [discriminate|].
  destruct i as [|i]; simpl in *.
  - injection Hk as ->. unfold pending. simpl. rewrite Hs, Hs'. reflexivity.
  - unfold pending in *. simpl. destruct (sleeping x); simpl;
      rewrite <- (IH i Hk Hs Hs'); reflexivity.
Qed.

Lemma pending_le_length (ks : list Task) : (pending ks <= length ks)%nat.
Proof. unfold pending. apply List.filter_length_le. Qed.

Lemma pending_0_quiet (ks : list Task) : pending ks = 0%nat <-> quiet ks.
Proof.
  unfold pending, quiet. induction ks as [|k ks IH]; simpl.
  - split; [constructor | reflexivity].
  - unfold sleeping at 1. destruct (state k) eqn:Hs; simpl.
    + split; [discriminate|]. intros H. inversion H; subst. congruence.
    + rewrite IH. split; [intros H; constructor; [congruence|assumption]|].
      intros H. inversion H; subst. assumption.
    + rewrite IH. split; [intros H; constructor; [congruence|assumption]|].
      intros H. inversion H; subst. assumption.
    + rewrite IH. split; [intros H; constructor; [congruence|assumption]|].
      intros H. inversion H; subst. assumption.
Qed.


Lemma run_due_idle fuel t (w : World) :
  earliest 0 (tasks w) t = None -> run_due fuel t w = w.
Proof. intros H. destruct fuel; simpl; [reflexivity|]. rewrite H. reflexivity. Qed.

(** The fuel [run_until] gives is enough: when it returns, no timer whose
    delay has elapsed is left sleeping. *)
Lemma run_due_quiescent fuel t (w : World) :
  (pending (tasks w) <= fuel)%nat ->
  earliest 0 (tasks (run_due fuel t w)) t = None.
Proof.
  revert w. induction fuel as [|fuel IH]; intros w Hle; simpl.
  - apply earliest_None, quiet_not_due, pending_0_quiet. lia.
  - destruct (earliest 0 (tasks w) t) as [[i d]|] eqn:He; [|assumption].
    apply IH.
    apply earliest_Some in He as (_ & k & Hk & Hd & Hw).
    rewrite Nat.sub_0_r in Hk.
    rewrite (fire_enabled i _ k); simpl; [|assumption|].
    + destruct (run_callback (job k) (Z.max (now w) d) (cells w)) as [[s' inv] ok].
      simpl. apply due_sleeping in Hd as [Hs _].
      pose proof (pending_insert (tasks w) i k
                    (mkTask (wake_at k) (job k) (finish ok)) Hk Hs
                    (finish_not_sleeping _ _ _)).
      lia.
    + apply due_sleeping in Hd as [Hs _]. unfold sleeping in Hs.
      apply due_intro; [destruct (state k); congruence | lia].
Qed.

Lemma run_due_advances fuel t (w : World) i k :
  tasks w !! i = Some k ->
  exists k', tasks (run_due fuel t w) !! i = Some k' /\ advances k k'.
Proof.
  revert w k. induction fuel as [|fuel IH]; intros w k Hk; simpl.
  - exists k. split; [assumption | apply advances_refl].
  - destruct (earliest 0 (tasks w) t) as [[j d]|];
      [|exists k; split; [assumption | apply advances_refl]].
    destruct (fire_advances j (set_now (Z.max (now w) d) w) i k Hk) as (k1 & Hk1 & Ha1).
    destruct (IH _ _ Hk1) as (k2 & Hk2 & Ha2).
    exists k2. split; [assumption | eapply advances_trans; eassumption].
Qed.

Lemma run_due_length fuel t (w : World) :
  length (tasks (run_due fuel t w)) = length (tasks w).
Proof.
  revert w. induction fuel as [|fuel IH]; intros w; simpl; [reflexivity|].
  destruct (earliest 0 (tasks w) t) as [[j d]|]; [|reflexivity].
  rewrite IH, fire_length. reflexivity.
Qed.

Lemma run_due_now fuel t (w : World) : now w <= now (run_due fuel t w).
Proof.
  revert w. induction fuel as [|fuel IH]; intros w; simpl; [lia|].
  destruct (earliest 0 (tasks w) t) as [[j d]|]; [|lia].
  etransitivity; [|apply IH]. rewrite fire_now. simpl. lia.
Qed.

Lemma run_due_lsteps fuel t (w : World) : rtc lstep w (run_due fuel t w).
Proof.
  revert w. induction fuel as [|fuel IH]; intros w; simpl; [apply rtc_refl|].
  destruct (earliest 0 (tasks w) t) as [[j d]|]; [|apply rtc_refl].
  eapply rtc_l; [apply (lstep_tick _ w (Z.max (now w) d)); lia|].
  eapply rtc_l; [apply lstep_fire|]. apply IH.
Qed.

Lemma run_until_lsteps t (w : World) : rtc lstep w (run_until t w).
Proof.
  unfold Loop.run_until. eapply rtc_trans; [apply run_due_lsteps|].
  apply rtc_once, lstep_tick. lia.
Qed.

Lemma run_until_advances t (w : World) i k :
  tasks w !! i = Some k ->
  exists k', tasks (run_until t w) !! i = Some k' /\ advances k k'.
Proof. intros Hk. unfold Loop.run_until. simpl. apply run_due_advances, Hk. Qed.

(** Every timer whose delay has elapsed when the clock reads [t] has been
    resumed, or was cancelled, once the loop has run until [t]. *)
Lemma run_until_done t (w : World) i k :
  tasks w !! i = Some k -> wake_at k <= t ->
  exists k', tasks (run_until t w) !! i = Some k' /\ advances k k' /\ sleeping k' = false.
Proof.
  intros Hk Hw. destruct (run_until_advances t w i k Hk) as (k' & Hk' & Ha).
  exists k'. split; [assumption|]. split; [assumption|].
  unfold Loop.run_until in Hk'. simpl in Hk'.
  pose proof (run_due_quiescent (length (tasks w)) t w (pending_le_length _)) as Hq.
  apply earliest_None in Hq. rewrite Forall_lookup in Hq.
  specialize (Hq i k' Hk'). simpl in Hq. unfold due in Hq. unfold sleeping.
  destruct Ha as (Hw' & _ & _).
  destruct (state k'); try reflexivity. lia.
Qed.


(** *** Cancelling *)

Lemma cancel_task_done (k : Task) : sleeping k = false -> cancel_task k = k.
Proof. unfold sleeping, cancel_task. destruct (state k); congruence. Qed.

Lemma cancel_task_twice (k : Task) : cancel_task (cancel_task k) = cancel_task k.
Proof. unfold cancel_task. destruct (state k) eqn:Hs; simpl; rewrite ?Hs; reflexivity. Qed.

Lemma cancel_task_fired (k : Task) : fired (cancel_task k) = fired k.
Proof. unfold cancel_task, fired. destruct (state k) eqn:Hs; simpl; rewrite ?Hs; reflexivity. Qed.

Lemma cancel_task_not_sleeping (k : Task) : sleeping (cancel_task k) = false.
Proof. unfold cancel_task, sleeping. destruct (state k) eqn:Hs; simpl; rewrite ?Hs; reflexivity. Qed.

Lemma alter_cancel_done (ks : list Task) i :
  (forall k, ks !! i = Some k -> sleeping k = false) -> alter cancel_task i ks = ks.
Proof.
  intros H. rewrite (list_alter_ext cancel_task (fun k => k) ks ks i).
  - apply list_alter_id. reflexivity.
  - intros k Hk. apply cancel_task_done, H, Hk.
  - reflexivity.
Qed.

Lemma Timer_cancel_done (tm : Timer) (w : World) :
  (forall k, tasks w !! _task tm = Some k -> sleeping k = false) ->
  Timer_cancel tm w = w.
Proof.
  intros H. unfold Timer_cancel, set_tasks. rewrite alter_cancel_done by assumption.
  destruct w; reflexivity.
Qed.

Lemma Timer_cancel_twice (tm : Timer) (w : World) :
  Timer_cancel tm (Timer_cancel tm w) = Timer_cancel tm w.
Proof.
  unfold Timer_cancel, set_tasks. simpl. f_equal.
  rewrite list_alter_alter_eq. apply list_alter_ext; [|reflexivity].
  intros k _. apply cancel_task_twice.
Qed.

(** *** Tasks that are done stay as they are *)

Lemma lstep_frozen (w w' : World) i k :
  lstep w w' -> tasks w !! i = Some k -> sleeping k = false ->
  tasks w' !! i = Some k.
Proof.
  intros Hstep Hk Hs. destruct Hstep as [w t _|w j|w timeout cb|w tm|w s]; simpl.
  - assumption.
  - unfold Loop.fire. destruct (tasks w !! j) as [kj|] eqn:Hj; [|assumption].
    destruct (due (now w) kj) eqn:Hd; [|assumption].
    destruct (run_callback (job kj) (now w) (cells w)) as [[s' inv] ok]. simpl.
    rewrite list_lookup_insert_ne; [assumption|].
    intros ->. apply due_sleeping in Hd as [Hd _]. congruence.
  - apply lookup_app_l_Some, Hk.
  - destruct (decide (_task tm = i)) as [<-|Hne].
    + rewrite list_lookup_alter_eq, Hk. simpl. f_equal. apply cancel_task_done, Hs.
    + rewrite list_lookup_alter_ne; assumption.
  - assumption.
Qed.

Lemma lsteps_frozen (w w' : World) i k :
  rtc lstep w w' -> tasks w !! i = Some k -> sleeping k = false ->
  tasks w' !! i = Some k.
Proof.
  induction 1 as [|w w1 w2 Hstep _ IH]; intros Hk Hs; [assumption|].
  apply IH; [|assumption]. eapply lstep_frozen; eassumption.
Qed.

(** *** Each callback is run at most once *)

Lemma accounted_fresh t0 (s : St) : accounted (fresh (A:=A) (C:=C) t0 s).
Proof. intros i. reflexivity. Qed.

Lemma runs_snoc (w : World) i j :
  count_occ Nat.eq_dec (ran w ++ [j]) i =
  (runs i w + if decide (j = i) then 1 else 0)%nat.
Proof.
  unfold runs. rewrite count_occ_app. simpl.
  destruct (Nat.eq_dec j i), (decide (j = i)); try congruence; reflexivity.
Qed.

Lemma lstep_accounted (w w' : World) : lstep w w' -> accounted w -> accounted w'.
Proof.
  intros Hstep Hacc i. specialize (Hacc i).
  destruct Hstep as [w t _|w j|w timeout cb|w tm|w s]; simpl.
  - exact Hacc.
  - unfold Loop.fire. destruct (tasks w !! j) as [kj|] eqn:Hj; [|exact Hacc].
    destruct (due (now w) kj) eqn:Hd; [|exact Hacc].
    destruct (run_callback (job kj) (now w) (cells w)) as [[s' inv] ok].
    unfold runs. simpl. rewrite runs_snoc, Hacc.
    destruct (decide (j = i)) as [->|Hne].
    + rewrite list_lookup_insert_eq by (eapply lookup_lt_Some; eassumption).
      rewrite Hj. simpl. rewrite finish_fired.
      apply due_sleeping in Hd as [Hd _]. unfold sleeping in Hd. unfold fired.
      destruct (state kj); try discriminate. reflexivity.
    + rewrite list_lookup_insert_ne by assumption. lia.
  - unfold runs in *. simpl. rewrite Hacc.
    destruct (tasks w !! i) as [k|] eqn:Hk.
    + rewrite (lookup_app_l_Some _ _ _ _ Hk). reflexivity.
    + apply lookup_ge_None in Hk. rewrite lookup_app_r by assumption.
      destruct (i - length (tasks w))%nat as [|n]; reflexivity.
  - unfold runs in *. simpl. rewrite Hacc, list_lookup_alter.
    destruct (decide (_task tm = i)) as [->|Hne]; [|reflexivity].
    destruct (tasks w !! i) as [k|]; simpl; [|reflexivity].
    rewrite cancel_task_fired. reflexivity.
  - exact Hacc.
Qed.

Lemma lsteps_accounted (w w' : World) : rtc lstep w w' -> accounted w -> accounted w'.
Proof. induction 1; eauto using lstep_accounted. Qed.

Lemma Timer_cancel_lookup (tm : Timer) (w : World) k :
  tasks w !! _task tm = Some k ->
  tasks (Timer_cancel tm w) !! _task tm = Some (cancel_task k).
Proof. intros Hk. simpl. rewrite list_lookup_alter_eq, Hk. reflexivity. Qed.




(** *** Loops with no or one sleeping task *)

Lemma state_sleeping (k : Task) : state k <> Sleeping <-> sleeping k = false.
Proof. unfold sleeping. destruct (state k); split; congruence. Qed.

Lemma quiet_lookup (ks : list Task) j k :
  quiet ks -> ks !! j = Some k -> sleeping k = false.
Proof.
  unfold quiet. rewrite Forall_lookup. intros H Hk.
  apply state_sleeping. exact (H j k Hk).
Qed.

Lemma quiet_cancel (ks : list Task) j : quiet ks -> alter cancel_task j ks = ks.
Proof. intros H. apply alter_cancel_done. intros k. apply quiet_lookup, H. Qed.

Lemma sole_sleeper_insert (ks : list Task) i d c k' :
  sole_sleeper ks i d c -> sleeping k' = false -> quiet (<[i := k']> ks).
Proof.
  intros [Hi Hothers] Hs. unfold quiet. rewrite Forall_lookup. intros j k Hk.
  destruct (decide (i = j)) as [->|Hne].
  - rewrite list_lookup_insert_eq in Hk by (eapply lookup_lt_Some; eassumption).
    injection Hk as <-. apply state_sleeping, Hs.
  - rewrite list_lookup_insert_ne in Hk by assumption.
    eapply Hothers; [|eassumption]. congruence.
Qed.

Lemma sole_sleeper_cancel (ks : list Task) i d c :
  sole_sleeper ks i d c -> quiet (alter cancel_task i ks).
Proof.
  intros [Hi Hothers]. unfold quiet. rewrite Forall_lookup. intros j k Hk.
  rewrite list_lookup_alter in Hk. destruct (decide (i = j)) as [->|Hne].
  - rewrite Hi in Hk. injection Hk as <-. discriminate.
  - eapply Hothers; [|eassumption]. congruence.
Qed.

Lemma sole_sleeper_cancel_other (ks : list Task) i d c j :
  sole_sleeper ks i d c -> j <> i -> alter cancel_task j ks = ks.
Proof.
  intros [_ Hothers] Hne. apply alter_cancel_done. intros k Hk.
  apply state_sleeping. eapply Hothers; eassumption.
Qed.

Lemma quiet_snoc (ks : list Task) d c :
  quiet ks -> sole_sleeper (ks ++ [mkTask d c Sleeping]) (length ks) d c.
Proof.
  intros Hq. split.
  - rewrite lookup_app_r, Nat.sub_diag by lia. reflexivity.
  - intros j k Hne Hk. destruct (decide (j < length ks)%nat) as [Hlt|Hge].
    + rewrite lookup_app_l in Hk by assumption.
      apply state_sleeping. eapply quiet_lookup; eassumption.
    + rewrite lookup_app_r in Hk by lia.
      destruct (j - length ks)%nat as [|n] eqn:Hn; [lia|].
      destruct n; discriminate.
Qed.

Lemma sole_sleeper_pending (ks : list Task) i d c :
  sole_sleeper ks i d c -> pending ks = 1%nat.
Proof.
  intros H. pose proof H as [Hi _].
  rewrite <- (pending_insert ks i _ (mkTask d c Cancelled) Hi eq_refl eq_refl).
  f_equal. apply pending_0_quiet. eapply sole_sleeper_insert; [exact H | reflexivity].
Qed.

Lemma sole_sleeper_unique (ks : list Task) i d c j k :
  sole_sleeper ks i d c -> ks !! j = Some k -> sleeping k = true ->
  j = i /\ k = mkTask d c Sleeping.
Proof.
  intros [Hi Hothers] Hk Hs. destruct (decide (j = i)) as [->|Hne].
  - split; [reflexivity | congruence].
  - apply (Hothers j k Hne) in Hk. apply state_sleeping in Hk. congruence.
Qed.

Lemma sole_sleeper_early (ks : list Task) i d c t :
  sole_sleeper ks i d c -> t < d -> earliest 0 ks t = None.
Proof.
  intros H Ht. apply earliest_None. rewrite Forall_lookup. intros j k Hk. simpl.
  destruct (due t k) eqn:Hd; [|reflexivity].
  apply due_sleeping in Hd as [Hs Hw].
  destruct (sole_sleeper_unique _ _ _ _ _ _ H Hk Hs) as [_ ->]. simpl in Hw. lia.
Qed.

Lemma sole_sleeper_earliest (ks : list Task) i d c t :
  sole_sleeper ks i d c -> d <= t -> earliest 0 ks t = Some (i, d).
Proof.
  intros H Ht. destruct (earliest 0 ks t) as [[j d']|] eqn:He.
  - apply earliest_Some in He as (_ & k & Hk & Hd & Hw).
    rewrite Nat.sub_0_r in Hk. apply due_sleeping in Hd as [Hs _].
    destruct (sole_sleeper_unique _ _ _ _ _ _ H Hk Hs) as [-> ->].
    simpl in Hw. congruence.
  - apply earliest_None in He. rewrite Forall_lookup in He.
    destruct H as [Hi _]. specialize (He i _ Hi). simpl in He.
    unfold due in He. simpl in He. lia.
Qed.

Lemma run_until_quiet t (w : World) :
  quiet (tasks w) -> run_until t w = set_now (Z.max (now w) t) w.
Proof.
  intros Hq. unfold Loop.run_until.
  rewrite run_due_idle by (apply earliest_None, quiet_not_due, Hq). reflexivity.
Qed.

Lemma run_until_early t (w : World) i d c :
  sole_sleeper (tasks w) i d c -> t < d ->
  run_until t w = set_now (Z.max (now w) t) w.
Proof.
  intros H Ht. unfold Loop.run_until.
  rewrite run_due_idle by (eapply sole_sleeper_early; eassumption). reflexivity.
Qed.

(** The one sleeping timer fires, at its deadline or at once when the
    deadline is already behind. *)
Lemma run_until_fire t (w : World) i d c :
  sole_sleeper (tasks w) i d c -> d <= t ->
  let at_ := Z.max (now w) d in
  let '(s', inv, ok) := run_callback c at_ (cells w) in
  run_until t w =
    mkWorld (Z.max at_ t)
            (<[i := mkTask d c (finish ok)]> (tasks w))
            s'
            (calls w ++ match inv with Some a => [(at_, a)] | None => [] end)
            (ran w ++ [i]).
Proof.
  intros H Ht at_. pose proof H as [Hi _].
  destruct (run_callback c at_ (cells w)) as [[s' inv] ok] eqn:Hrc.
  unfold Loop.run_until.
  destruct (length (tasks w)) as [|n] eqn:Hlen.
  { apply lookup_lt_Some in Hi. lia. }
  simpl. rewrite (sole_sleeper_earliest _ _ _ _ _ H Ht).
  rewrite (fire_enabled i (set_now (Z.max (now w) d) w) _ Hi)
    by (apply due_intro; simpl; [reflexivity | lia]).
  simpl. fold at_. rewrite Hrc.
  rewrite run_due_idle; [reflexivity|]. simpl.
  apply earliest_None, quiet_not_due.
  eapply sole_sleeper_insert; [exact H | apply finish_not_sleeping].
Qed.


Lemma fire_cases j (w : World) :
  fire j w = w \/
  exists k, tasks w !! j = Some k /\ due (now w) k = true /\
    fire j w =
      let '(s', inv, ok) := run_callback (job k) (now w) (cells w) in
      mkWorld (now w) (<[j := mkTask (wake_at k) (job k) (finish ok)]> (tasks w)) s'
              (calls w ++ match inv with Some a => [(now w, a)] | None => [] end)
              (ran w ++ [j]).
Proof.
  destruct (tasks w !! j) as [k|] eqn:Hk.
  - destruct (due (now w) k) eqn:Hd.
    + right. exists k. split; [reflexivity|]. split; [assumption|].
      apply fire_enabled; assumption.
    + left. unfold Loop.fire. rewrite Hk, Hd. reflexivity.
  - left. unfold Loop.fire. rewrite Hk. reflexivity.
Qed.


(** *** Running the loop in stages *)

Lemma earliest_min i (ks : list Task) t j d :
  earliest i ks t = Some (j, d) ->
  forall k, k ∈ ks -> due t k = true -> d <= wake_at k.
Proof.
  revert i j d. induction ks as [|k0 ks IH]; intros i j d He k Hk Hd; [inversion Hk|].
  simpl in He. apply elem_of_cons in Hk as [->|Hk].
  - rewrite Hd in He. destruct (earliest (S i) ks t) as [[j' d']|].
    + destruct (Z.ltb_spec d' (wake_at k0)); injection He as <- <-; lia.
    + injection He as <- <-. lia.
  - destruct (due t k0) eqn:Hd0.
    + destruct (earliest (S i) ks t) as [[j' d']|] eqn:He'.
      * pose proof (IH _ _ _ He' k Hk Hd).
        destruct (Z.ltb_spec d' (wake_at k0)); injection He as <- <-; lia.
      * apply earliest_None in He'. rewrite Forall_forall in He'.
        specialize (He' k Hk). simpl in He'. congruence.
    + eapply IH; eassumption.
Qed.

Lemma earliest_later i (ks : list Task) t1 t2 j d :
  t1 <= t2 -> earliest i ks t1 = Some (j, d) -> earliest i ks t2 = Some (j, d).
Proof.
  intros Ht. revert i j d. induction ks as [|k ks IH]; intros i j d He; [discriminate|].
  simpl in *. destruct (due t1 k) eqn:Hd1.
  - rewrite (due_mono _ _ _ Hd1 Ht).
    destruct (earliest (S i) ks t1) as [[j1 d1]|] eqn:He1.
    + rewrite (IH _ _ _ He1). exact He.
    + injection He as <- <-.
      destruct (earliest (S i) ks t2) as [[j2 d2]|] eqn:He2; [|reflexivity].
      apply earliest_Some in He2 as (_ & k2 & Hk2 & Hd2 & <-).
      apply earliest_None in He1. rewrite Forall_lookup in He1.
      specialize (He1 _ _ Hk2). simpl in He1.
      apply due_sleeping in Hd1 as [_ Hw], Hd2 as [Hs2 _].
      unfold due, sleeping in *. destruct (state k2); try discriminate.
      destruct (Z.ltb_spec (wake_at k2) (wake_at k)); [lia | reflexivity].
  - pose proof (earliest_Some _ _ _ _ _ He) as (_ & k1 & _ & Hdk1 & <-).
    apply due_sleeping in Hdk1 as [_ Hw1].
    rewrite (IH _ _ _ He). destruct (due t2 k) eqn:Hd2; [|reflexivity].
    apply due_sleeping in Hd2 as [Hs2 _]. unfold due, sleeping in *.
    destruct (state k); try discriminate.
    destruct (Z.ltb_spec (wake_at k1) (wake_at k)); [reflexivity | lia].
Qed.

Lemma fire_pending i (w : World) k :
  tasks w !! i = Some k -> due (now w) k = true ->
  S (pending (tasks (fire i w))) = pending (tasks w).
Proof.
  intros Hk Hd. rewrite (fire_enabled i w k Hk Hd).
  destruct (run_callback (job k) (now w) (cells w)) as [[s' inv] ok]. simpl.
  apply due_sleeping in Hd as [Hs _].
  apply (pending_insert _ _ _ _ Hk Hs (finish_not_sleeping _ _ _)).
Qed.

Lemma earliest_fires t (w : World) i d :
  earliest 0 (tasks w) t = Some (i, d) ->
  exists k, tasks w !! i = Some k /\ state k = Sleeping /\ wake_at k = d /\ d <= t /\
    due (now (set_now (Z.max (now w) d) w)) k = true.
Proof.
  intros He. apply earliest_Some in He as (_ & k & Hk & Hd & Hw).
  rewrite Nat.sub_0_r in Hk. apply due_sleeping in Hd as [Hs Hle].
  assert (Hst : state k = Sleeping) by (unfold sleeping in Hs; destruct (state k); congruence).
  exists k. repeat split; try assumption; [lia|].
  apply due_intro; [exact Hst | simpl; lia].
Qed.

(** Fuel beyond the number of sleeping tasks makes no difference. *)
Lemma run_due_enough t : forall f1 f2 (w : World),
  (pending (tasks w) <= f1)%nat -> (pending (tasks w) <= f2)%nat ->
  run_due f1 t w = run_due f2 t w.
Proof.
  induction f1 as [|f1 IH]; intros f2 w H1 H2.
  - rewrite (run_due_idle f2); [reflexivity|].
    apply earliest_None, quiet_not_due, pending_0_quiet. lia.
  - destruct f2 as [|f2].
    + rewrite (run_due_idle (S f1)); [reflexivity|].
      apply earliest_None, quiet_not_due, pending_0_quiet. lia.
    + simpl. destruct (earliest 0 (tasks w) t) as [[i d]|] eqn:He; [|reflexivity].
      destruct (earliest_fires t w i d He) as (k & Hk & _ & _ & _ & Hd).
      pose proof (fire_pending i (set_now (Z.max (now w) d) w) k Hk Hd) as Hp.
      simpl in Hp. apply IH; lia.
Qed.

(** Running until [t] resumes the earliest due timer and goes on. *)
Lemma run_until_next t (w : World) i d :
  earliest 0 (tasks w) t = Some (i, d) ->
  run_until t w = run_until t (fire i (set_now (Z.max (now w) d) w)).
Proof.
  intros He. unfold Loop.run_until.
  destruct (earliest_fires t w i d He) as (k & Hk & _ & _ & _ & Hd).
  pose proof (fire_pending i (set_now (Z.max (now w) d) w) k Hk Hd) as Hp.
  simpl in Hp. pose proof (pending_le_length (tasks w)) as Hlen.
  destruct (length (tasks w)) as [|n] eqn:Hn; [lia|].
  cbn [Loop.run_due]. rewrite He, fire_length. cbn [tasks set_now]. rewrite Hn.
  rewrite (run_due_enough t n (S n)) by lia. reflexivity.
Qed.

Lemma run_until_none t (w : World) :
  earliest 0 (tasks w) t = None -> run_until t w = set_now (Z.max (now w) t) w.
Proof. intros He. unfold Loop.run_until. rewrite run_due_idle by assumption. reflexivity. Qed.

(** Running until [t1] and then until [t2] is running until [t2]. *)
Lemma run_until_twice t1 t2 : t1 <= t2 -> forall (w : World),
  run_until t2 (run_until t1 w) = run_until t2 w.
Proof.
  intros Ht w. remember (pending (tasks w)) as n eqn:Hn.
  revert w Hn. induction n as [n IH] using lt_wf_ind. intros w Hn.
  destruct (earliest 0 (tasks w) t1) as [[i d]|] eqn:He1.
  - pose proof (earliest_later _ _ _ _ _ _ Ht He1) as He2.
    rewrite (run_until_next t1 w i d He1), (run_until_next t2 w i d He2).
    destruct (earliest_fires t1 w i d He1) as (k & Hk & _ & _ & _ & Hd).
    pose proof (fire_pending i (set_now (Z.max (now w) d) w) k Hk Hd) as Hp.
    simpl in Hp. eapply IH; [|reflexivity]. lia.
  - rewrite (run_until_none t1 w He1).
    destruct (earliest 0 (tasks w) t2) as [[i d]|] eqn:He2.
    + rewrite (run_until_next t2 w i d He2).
      rewrite (run_until_next t2 (set_now (Z.max (now w) t1) w) i d He2).
      destruct (earliest_fires t2 w i d He2) as (k & Hk & Hst & Hw & _ & _).
      assert (t1 < d).
      { apply earliest_None in He1. rewrite Forall_lookup in He1.
        specialize (He1 _ _ Hk). simpl in He1. unfold due in He1.
        rewrite Hst in He1. lia. }
      cbn [now set_now]. unfold set_now at 2. unfold set_now at 2.
      cbn [now tasks cells calls ran].
      replace (Z.max (Z.max (now w) t1) d) with (Z.max (now w) d) by lia.
      reflexivity.
    + rewrite (run_until_none t2 w He2).
      rewrite (run_until_none t2 (set_now (Z.max (now w) t1) w) He2).
      unfold set_now. cbn [now tasks cells calls ran]. f_equal. lia.
Qed.


(** *** Lanes *)

Lemma lane_none_snoc (c : C) (ks : list Task) d :
  lane c ks None -> lane c (ks ++ [mkTask d c Sleeping]) (Some (length ks, d)).
Proof.
  intros [Hall _]. split.
  - intros i k Hk Hj Hs. destruct (decide (i < length ks)%nat) as [Hlt|Hge].
    + rewrite lookup_app_l in Hk by assumption. discriminate (Hall i k Hk Hj Hs).
    + rewrite lookup_app_r in Hk by lia.
      destruct (i - length ks)%nat as [|n] eqn:Hn; [|destruct n; discriminate].
      injection Hk as <-. simpl. f_equal. f_equal. lia.
  - intros i d' [= <- <-]. rewrite lookup_app_r, Nat.sub_diag by lia. reflexivity.
Qed.

Lemma lane_snoc_other (c c' : C) (ks : list Task) p d :
  c' <> c -> lane c ks p -> lane c (ks ++ [mkTask d c' Sleeping]) p.
Proof.
  intros Hne [Hall Hex]. split.
  - intros i k Hk Hj Hs. destruct (decide (i < length ks)%nat) as [Hlt|Hge].
    + rewrite lookup_app_l in Hk by assumption. exact (Hall i k Hk Hj Hs).
    + rewrite lookup_app_r in Hk by lia.
      destruct (i - length ks)%nat as [|n]; [|destruct n; discriminate].
      injection Hk as <-. simpl in Hj. congruence.
  - intros i d' Hp. apply lookup_app_l_Some, Hex, Hp.
Qed.

(** Replacing the pending task of a lane by a task that does not sleep
    leaves the lane empty. *)
Lemma lane_insert_own (c : C) (ks : list Task) i d k' :
  lane c ks (Some (i, d)) -> sleeping k' = false -> lane c (<[i := k']> ks) None.
Proof.
  intros [Hall Hex] Hs'. split; [|intros j d' H; discriminate].
  intros j k Hk Hj Hs. destruct (decide (i = j)) as [->|Hne].
  - rewrite list_lookup_insert_eq in Hk
      by (eapply lookup_lt_Some; apply (Hex j d eq_refl)).
    congruence.
  - rewrite list_lookup_insert_ne in Hk by assumption.
    specialize (Hall j k Hk Hj Hs). congruence.
Qed.

(** Replacing a task outside the lane by a task that does not sleep leaves
    the lane as it is. *)
Lemma lane_insert_other (c : C) (ks : list Task) p i k k' :
  lane c ks p -> ks !! i = Some k -> (job k <> c \/ sleeping k = false) ->
  sleeping k' = false -> lane c (<[i := k']> ks) p.
Proof.
  intros [Hall Hex] Hk Hout Hs'. split.
  - intros j k1 Hk1 Hj Hs. destruct (decide (i = j)) as [->|Hne].
    + rewrite list_lookup_insert_eq in Hk1 by (eapply lookup_lt_Some; eassumption).
      congruence.
    + rewrite list_lookup_insert_ne in Hk1 by assumption. exact (Hall j k1 Hk1 Hj Hs).
  - intros j d Hp. specialize (Hex j d Hp). destruct (decide (i = j)) as [->|Hne].
    + rewrite Hex in Hk. injection Hk as <-. simpl in Hout.
      destruct Hout as [Hout|Hout]; [congruence | discriminate].
    + rewrite list_lookup_insert_ne by assumption. exact Hex.
Qed.

Lemma alter_as_insert (f : Task -> Task) (ks : list Task) i k :
  ks !! i = Some k -> alter f i ks = <[i := f k]> ks.
Proof.
  intros Hk. apply list_eq. intros j. rewrite list_lookup_alter.
  destruct (decide (i = j)) as [->|Hne].
  - rewrite list_lookup_insert_eq by (eapply lookup_lt_Some; eassumption).
    rewrite Hk. reflexivity.
  - rewrite list_lookup_insert_ne by assumption. reflexivity.
Qed.

Lemma alter_missing (f : Task -> Task) (ks : list Task) i :
  ks !! i = None -> alter f i ks = ks.
Proof.
  intros Hk. apply list_eq. intros j. rewrite list_lookup_alter.
  destruct (decide (i = j)) as [->|Hne]; [rewrite Hk|]; reflexivity.
Qed.

(** *** Runs with moments at which no call is made *)

Lemma chrono_first t (ts : list Z) x : Debounce.chrono t (x :: ts) -> t <= x.
Proof. intros [H _]. exact H. Qed.

Lemma run_calls_after (call : A -> World -> World) t (tr : list (Z * A)) T (w : World) :
  Debounce.chrono t (map fst tr ++ [T]) ->
  Loop.simulate run_callback call tr T (run_until t w)
  = Loop.simulate run_callback call tr T w.
Proof.
  intros Hc. unfold Loop.simulate. destruct tr as [|[t1 a1] tr]; simpl in *.
  - apply run_until_twice. lia.
  - rewrite run_until_twice by lia. reflexivity.
Qed.

Lemma chrono_weaken t t' (ts : list Z) :
  t <= t' -> Debounce.chrono t' ts -> Debounce.chrono t ts.
Proof. intros Hle. destruct ts as [|x ts]; simpl; [auto|]. intros [H1 H2]. split; [lia|exact H2]. Qed.

Lemma chrono_somes (tr : list (Z * option A)) : forall t T,
  Debounce.chrono t (map fst tr ++ [T]) ->
  Debounce.chrono t
    (map fst (omap (fun e => match snd e with
                             | Some a => Some (fst e, a)
                             | None => None
                             end) tr) ++ [T]).
Proof.
  induction tr as [|[t1 [a1|]] tr IH]; intros t T Hc.
  - exact Hc.
  - destruct Hc as [Hle Hc]. split; [exact Hle | apply IH, Hc].
  - destruct Hc as [Hle Hc]. apply (chrono_weaken t t1); [exact Hle | apply IH, Hc].
Qed.

Lemma run_some_calls (call : A -> World -> World) (tr : list (Z * option A)) :
  forall t0 T (w : World),
  Debounce.chrono t0 (map fst tr ++ [T]) ->
  run_until T (Loop.run_some run_callback call tr w)
  = Loop.simulate run_callback call
      (omap (fun e => match snd e with Some a => Some (fst e, a) | None => None end) tr) T w.
Proof.
  induction tr as [|[t [a|]] tr IH]; intros t0 T w Hc.
  - reflexivity.
  - destruct Hc as [_ Hc]. cbn [Loop.run_some]. rewrite (IH t T _ Hc). reflexivity.
  - destruct Hc as [_ Hc]. simpl in Hc. cbn [Loop.run_some]. rewrite (IH t T _ Hc).
    change (omap _ ((t, None) :: tr)) with
      (omap (fun e : Z * option A =>
               match snd e with Some a => Some (fst e, a) | None => None end) tr).
    apply (run_calls_after call t), chrono_somes, Hc.
Qed.

(** *** Running until just before a clock reading *)

Abbreviation run_before := (Loop.run_before run_callback).

Lemma run_before_until t (w : World) :
  run_before t w =
    set_now (Z.max (now (run_until (t - 1) w)) t) (run_until (t - 1) w).
Proof.
  unfold Loop.run_before, Loop.run_until, set_now. cbn [now tasks cells calls ran].
  f_equal. lia.
Qed.

(** When no sleeping task is due exactly at [t], running until just before
    [t] and running until [t] are the same. *)
Lemma due_before t (k : Task) :
  (sleeping k = true -> wake_at k <> t) -> due (t - 1) k = due t k.
Proof.
  unfold due, sleeping. destruct (state k); try reflexivity.
  intros H. specialize (H eq_refl).
  destruct (Z.leb_spec (wake_at k) (t - 1)), (Z.leb_spec (wake_at k) t);
    (reflexivity || lia).
Qed.

Lemma earliest_before i (ks : list Task) t :
  Forall (fun k => sleeping k = true -> wake_at k <> t) ks ->
  earliest i ks (t - 1) = earliest i ks t.
Proof.
  intros H. revert i. induction H as [|k ks Hk _ IH]; intros i; [reflexivity|].
  cbn [earliest]. rewrite (due_before t k Hk), IH. reflexivity.
Qed.

Lemma run_due_before fuel t : forall w : World,
  Forall (fun k => sleeping k = true -> wake_at k <> t) (tasks w) ->
  run_due fuel (t - 1) w = run_due fuel t w.
Proof.
  induction fuel as [|fuel IH]; intros w H; [reflexivity|].
  cbn [Loop.run_due]. rewrite (earliest_before 0 (tasks w) t H).
  destruct (earliest 0 (tasks w) t) as [[i d]|]; [|reflexivity].
  apply IH. set (w0 := set_now (Z.max (now w) d) w).
  destruct (fire_cases i w0) as [->|(k & _ & _ & ->)]; [exact H|].
  destruct (run_callback (job k) (now w0) (cells w0)) as [[s' inv] ok].
  cbn [tasks]. apply Forall_insert; [exact H|].
  intros Hs. rewrite finish_not_sleeping in Hs. discriminate.
Qed.

Lemma run_before_no_tie t (w : World) :
  Forall (fun k => sleeping k = true -> wake_at k <> t) (tasks w) ->
  run_before t w = run_until t w.
Proof.
  intros H. unfold Loop.run_before, Loop.run_until.
  rewrite (run_due_before _ t w H). reflexivity.
Qed.

Lemma run_before_quiet t (w : World) :
  quiet (tasks w) -> run_before t w = set_now (Z.max (now w) t) w.
Proof.
  intros Hq. rewrite run_before_until, (run_until_quiet (t - 1) w Hq).
  unfold set_now. cbn [now tasks cells calls ran]. f_equal. lia.
Qed.

Lemma run_before_early t (w : World) i d c :
  sole_sleeper (tasks w) i d c -> t <= d ->
  run_before t w = set_now (Z.max (now w) t) w.
Proof.
  intros Hs Ht. rewrite run_before_until, (run_until_early (t - 1) w i d c Hs) by lia.
  unfold set_now. cbn [now tasks cells calls ran]. f_equal. lia.
Qed.

Lemma run_before_fire t (w : World) i d c :
  sole_sleeper (tasks w) i d c -> d < t ->
  let at_ := Z.max (now w) d in
  let '(s', inv, ok) := run_callback c at_ (cells w) in
  run_before t w =
    mkWorld (Z.max at_ t)
            (<[i := mkTask d c (finish ok)]> (tasks w))
            s'
            (calls w ++ match inv with Some a => [(at_, a)] | None => [] end)
            (ran w ++ [i]).
Proof.
  intros Hs Ht at_. assert (Hle : d <= t - 1) by lia.
  pose proof (run_until_fire (t - 1) w i d c Hs Hle) as H. cbv zeta in H. fold at_ in H.
  destruct (run_callback c at_ (cells w)) as [[s' inv] ok].
  rewrite run_before_until, H. unfold set_now. cbn [now tasks cells calls ran].
  f_equal. lia.
Qed.

End LoopFacts.


End LoopFacts.

(** ** The debouncer *)

Module DebounceFacts.
Import Loop LoopFacts Debounce.
Section DebounceFacts.
Context {A : Type}.
Variable wait : Z.
Variable fn : Z -> A -> bool.

Abbreviation World := (@Debounce.World A).
Abbreviation rc := (Debounce.run_callback fn).
Abbreviation debounced := (Debounce.debounced (A:=A) wait).
Abbreviation run_until := (Loop.run_until rc).
Abbreviation fire := (Loop.fire rc).
Abbreviation simulate := (Loop.simulate rc debounced).
Abbreviation run_calls := (Loop.run_calls rc debounced).
Abbreviation dstep := (Debounce.dstep wait fn).

Lemma debounced_unfold a (w : World) :
  debounced a w =
    let ks := match cells w with
              | Some timer => alter cancel_task (_task timer) (tasks w)
              | None => tasks w
              end in
    mkWorld (now w)
            (ks ++ [mkTask (now w + Z.max 0 wait) (call_it a) Sleeping])
            (Some (mkTimer wait (call_it a) (length ks)))
            (calls w) (ran w).
Proof. unfold Debounce.debounced. destruct (cells w); reflexivity. Qed.

(** A call leaves exactly the new timer pending. *)
Lemma debounced_view a (w : World) p :
  view w p ->
  view (debounced a w) (Some (now w + Z.max 0 wait, a)) /\
  calls (debounced a w) = calls w /\ now (debounced a w) = now w.
Proof.
  intros Hv. rewrite debounced_unfold. simpl. split; [|split; reflexivity].
  set (ks := match cells w with
             | Some timer => alter cancel_task (_task timer) (tasks w)
             | None => tasks w
             end).
  assert (Hq : quiet ks).
  { subst ks. destruct Hv as [Hq|d b tm Hs Hc].
    - destruct (cells w); [rewrite quiet_cancel|]; assumption.
    - rewrite Hc. eapply sole_sleeper_cancel, Hs. }
  eapply (view_pending _ _ _ (mkTimer wait (call_it a) (length ks))); [|reflexivity].
  simpl. apply quiet_snoc, Hq.
Qed.

Lemma view_set_now t (w : World) p : view w p -> view (set_now t w) p.
Proof. intros [Hq|d a tm Hs Hc]; [apply view_idle | eapply view_pending]; eassumption. Qed.

Lemma run_until_idle t (w : World) :
  view w None -> run_until t w = set_now (Z.max (now w) t) w.
Proof. intros Hv. inversion Hv. apply run_until_quiet. assumption. Qed.

Lemma run_until_waiting t (w : World) d a :
  view w (Some (d, a)) -> t < d -> run_until t w = set_now (Z.max (now w) t) w.
Proof. intros Hv Ht. inversion Hv; subst. eapply run_until_early; eassumption. Qed.

Lemma run_until_fires t (w : World) d a :
  view w (Some (d, a)) -> d <= t ->
  let w' := run_until t w in
  view w' None /\ calls w' = calls w ++ [(Z.max (now w) d, a)] /\
  now w' = Z.max (Z.max (now w) d) t /\ cells w' = cells w.
Proof.
  intros Hv Ht. inversion Hv as [|d' a' tm Hs Hc]; subst.
  pose proof (run_until_fire rc t w _ _ _ Hs Ht) as H. simpl in H.
  cbv zeta. rewrite H. simpl. split; [|auto].
  apply view_idle. simpl.
  eapply sole_sleeper_insert; [exact Hs | apply finish_not_sleeping].
Qed.


(** *** Bursts *)

Lemma last_cons (x d : Z * A) (l : list (Z * A)) : List.last (x :: l) d = List.last l x.
Proof.
  revert x d. induction l as [|y l IH]; intros x d; [reflexivity|].
  change (List.last (x :: y :: l) d) with (List.last (y :: l) d).
  rewrite !IH. reflexivity.
Qed.

Lemma burst_collapses tr : forall (w : World) t a T,
  0 <= wait -> view w (Some (t + wait, a)) -> now w = t -> burst wait t tr ->
  fst (List.last tr (t, a)) + wait <= T ->
  calls (simulate tr T w) =
    calls w ++ [(fst (List.last tr (t, a)) + wait, snd (List.last tr (t, a)))].
Proof.
  induction tr as [|[t' a'] tr IH]; intros w t a T Hw Hv Hnow Hb HT.
  - cbn [List.last fst snd] in *. unfold Loop.simulate. cbn [Loop.run_calls].
    destruct (run_until_fires T w _ _ Hv HT) as (_ & -> & _).
    rewrite Hnow, Z.max_r by lia. reflexivity.
  - destruct Hb as [Ht' Hb]. rewrite last_cons in *.
    unfold Loop.simulate. cbn [Loop.run_calls].
    rewrite (run_until_waiting t' w _ _ Hv) by lia.
    rewrite Hnow, Z.max_r by lia.
    destruct (debounced_view a' (set_now t' w) _ (view_set_now t' w _ Hv))
      as (Hv' & Hc' & Hn').
    change (now (set_now t' w)) with t' in *.
    change (calls (set_now t' w)) with (calls w) in *.
    rewrite Z.max_r in Hv' by lia.
    rewrite <- Hc'. exact (IH _ t' a' T Hw Hv' Hn' Hb HT).
Qed.

(** C1.  Debounce collapse.  Starting with no timer pending, a burst of
    calls [(t0, a0) :: tr] in which each call comes strictly less than
    [wait] after the one before makes [fn] run exactly once, [wait] after
    the last call, on the arguments of the last call.  (With [wait = 200]
    and calls at 0, 50 and 100: once, at 300, on the arguments given at
    100.) *)
Theorem debounce_collapse (w0 : World) t0 a0 tr T :
  0 <= wait -> quiet (tasks w0) -> now w0 <= t0 -> burst wait t0 tr ->
  fst (List.last tr (t0, a0)) + wait <= T ->
  calls (simulate ((t0, a0) :: tr) T w0) =
    calls w0 ++ [(fst (List.last tr (t0, a0)) + wait, snd (List.last tr (t0, a0)))].
Proof.
  intros Hw Hq Hnow Hb HT. unfold Loop.simulate. cbn [Loop.run_calls].
  rewrite (run_until_quiet rc t0 w0 Hq), Z.max_r by assumption.
  destruct (debounced_view a0 (set_now t0 w0) None) as (Hv & Hc & Hn).
  { apply view_idle. exact Hq. }
  change (now (set_now t0 w0)) with t0 in *.
  change (calls (set_now t0 w0)) with (calls w0) in *.
  rewrite Z.max_r in Hv by lia.
  rewrite <- Hc. exact (burst_collapses tr _ t0 a0 T Hw Hv Hn Hb HT).
Qed.

Abbreviation run_before := (Loop.run_before rc).
Abbreviation simulate_first := (Loop.simulate_first rc debounced).

Lemma run_before_idle t (w : World) :
  view w None -> run_before t w = set_now (Z.max (now w) t) w.
Proof. intros Hv. inversion Hv. apply run_before_quiet. assumption. Qed.

Lemma run_before_waiting t (w : World) d a :
  view w (Some (d, a)) -> t <= d -> run_before t w = set_now (Z.max (now w) t) w.
Proof. intros Hv Ht. inversion Hv; subst. eapply run_before_early; eassumption. Qed.

Lemma run_before_fires t (w : World) d a :
  view w (Some (d, a)) -> d < t ->
  let w' := run_before t w in
  view w' None /\ calls w' = calls w ++ [(Z.max (now w) d, a)] /\
  now w' = Z.max (Z.max (now w) d) t /\ cells w' = cells w.
Proof.
  intros Hv Ht. inversion Hv as [|d' a' tm Hs Hc]; subst.
  pose proof (run_before_fire rc t w _ _ _ Hs Ht) as H. simpl in H.
  cbv zeta. rewrite H. simpl. split; [|auto].
  apply view_idle. simpl.
  eapply sole_sleeper_insert; [exact Hs | apply finish_not_sleeping].
Qed.

(** C7 (as the code has it).  Debounce isolation.  Starting with no timer
    pending, two calls more than [wait] apart make [fn] run twice: [wait]
    after each call, on the arguments of that call.  When the second call
    comes exactly [wait] after the first, at the clock reading at which
    the first timer is due, it cancels that timer before the loop resumes
    it: [fn] runs once, [wait] after the second call, on its arguments. *)
Theorem debounce_isolation (w0 : World) t1 a1 t2 a2 T :
  0 <= wait -> quiet (tasks w0) -> now w0 <= t1 -> t2 + wait <= T ->
  (t1 + wait < t2 ->
   calls (simulate_first [(t1, a1); (t2, a2)] T w0) =
     calls w0 ++ [(t1 + wait, a1); (t2 + wait, a2)]) /\
  (t2 = t1 + wait ->
   calls (simulate_first [(t1, a1); (t2, a2)] T w0) = calls w0 ++ [(t2 + wait, a2)]).
Proof.
  intros Hw Hq Hnow HT. unfold Loop.simulate_first. cbn [Loop.calls_first].
  rewrite (run_before_quiet rc t1 w0 Hq), Z.max_r by assumption.
  destruct (debounced_view a1 (set_now t1 w0) None) as (Hv & Hc & Hn).
  { apply view_idle. exact Hq. }
  change (now (set_now t1 w0)) with t1 in *.
  change (calls (set_now t1 w0)) with (calls w0) in *.
  rewrite Z.max_r in Hv by lia.
  split; intros H12.
  - destruct (run_before_fires t2 _ _ _ Hv H12) as (Hv1 & Hc1 & Hn1 & _).
    rewrite Hn in Hn1, Hc1. rewrite Hc in Hc1.
    replace (Z.max t1 (t1 + wait)) with (t1 + wait) in * by lia.
    rewrite Z.max_r in Hn1 by lia.
    destruct (debounced_view a2 _ _ Hv1) as (Hv2 & Hc2 & Hn2).
    rewrite Hn1 in Hv2, Hn2. rewrite Z.max_r in Hv2 by lia.
    destruct (run_until_fires T _ _ _ Hv2 HT) as (_ & Hc3 & _).
    rewrite Hc3, Hc2, Hc1, Hn2, Z.max_r by lia.
    rewrite <- app_assoc. reflexivity.
  - rewrite (run_before_waiting t2 _ _ _ Hv) by lia.
    rewrite Hn, Z.max_r by lia.
    destruct (debounced_view a2 _ _ (view_set_now t2 _ _ Hv)) as (Hv2 & Hc2 & Hn2).
    change (now (set_now t2 (debounced a1 (set_now t1 w0)))) with t2 in *.
    change (calls (set_now t2 (debounced a1 (set_now t1 w0))))
      with (calls (debounced a1 (set_now t1 w0))) in *.
    rewrite Z.max_r in Hv2 by lia.
    destruct (run_until_fires T _ _ _ Hv2 HT) as (_ & Hc3 & _).
    rewrite Hc3, Hc2, Hc, Hn2, Z.max_r by lia. reflexivity.
Qed.


(** *** The single pending timer *)

Lemma view_init t0 : view (Debounce.init (A:=A) t0) None.
Proof. apply view_idle. constructor. Qed.

Lemma view_pending_count (w : World) p : view w p -> (pending (tasks w) <= 1)%nat.
Proof.
  intros [Hq|d a tm Hs _].
  - apply pending_0_quiet in Hq. lia.
  - rewrite (sole_sleeper_pending _ _ _ _ Hs). lia.
Qed.

Lemma cancel_held_quiet (w : World) p :
  view w p ->
  quiet (tasks match cells w with
               | Some timer => Timer_cancel timer w
               | None => w
               end).
Proof.
  intros [Hq|d a tm Hs Hc].
  - destruct (cells w); [simpl; rewrite quiet_cancel|]; assumption.
  - rewrite Hc. simpl. eapply sole_sleeper_cancel, Hs.
Qed.

Lemma fire_view j (w : World) p : view w p -> exists p', view (fire j w) p'.
Proof.
  intros Hv. destruct (fire_cases rc j w) as [->|(k & Hk & Hd & ->)]; [eauto|].
  apply due_sleeping in Hd as [Hs _].
  destruct Hv as [Hq|d a tm Hsole Hc].
  - rewrite (quiet_lookup _ _ _ Hq Hk) in Hs. discriminate.
  - destruct (sole_sleeper_unique _ _ _ _ _ _ Hsole Hk Hs) as [-> ->].
    exists None. simpl. apply view_idle. simpl.
    eapply sole_sleeper_insert; [exact Hsole | apply finish_not_sleeping].
Qed.

Lemma cancel_view tm (w : World) p : view w p -> exists p', view (Timer_cancel tm w) p'.
Proof.
  intros Hv. destruct Hv as [Hq|d a tm' Hsole Hc].
  - exists None. apply view_idle. simpl. rewrite quiet_cancel; assumption.
  - destruct (decide (_task tm = _task tm')) as [He|Hne].
    + exists None. apply view_idle. simpl. rewrite He.
      eapply sole_sleeper_cancel, Hsole.
    + exists (Some (d, a)). apply (view_pending _ _ _ tm'); [|exact Hc].
      simpl. rewrite (sole_sleeper_cancel_other _ _ _ _ _ Hsole Hne). exact Hsole.
Qed.

Lemma dstep_view (w w' : World) p : dstep w w' -> view w p -> exists p', view w' p'.
Proof.
  intros Hstep Hv. destruct Hstep as [w w' Hstep|w tm].
  - destruct Hstep as [w t _|w j|w a].
    + exists p. apply view_set_now, Hv.
    + eapply fire_view, Hv.
    + eexists. eapply debounced_view, Hv.
  - eapply cancel_view, Hv.
Qed.

Lemma dsteps_view (w w' : World) :
  rtc dstep w w' -> (exists p, view w p) -> exists p', view w' p'.
Proof.
  induction 1 as [|w w1 w2 Hstep _ IH]; [auto|].
  intros [p Hv]. apply IH. eapply dstep_view; eassumption.
Qed.

(** C6.  Single pending timer.  In every state a debounced wrapper can
    reach through calls, fires, clock ticks and cancellations, at most one
    timer is pending; a call first cancels the timer held in the [timer]
    cell, after which no timer is pending, and only then creates the new
    one, which is then the one pending timer. *)
Theorem debounce_single_pending t0 (w : World) :
  rtc dstep (Debounce.init t0) w ->
  (pending (tasks w) <= 1)%nat /\
  forall a,
    let w1 := match cells w with
              | Some timer => Timer_cancel timer w
              | None => w
              end in
    pending (tasks w1) = 0%nat /\
    debounced a w =
      set_cells (Some (fst (Timer_init wait (call_it a) w1)))
                (snd (Timer_init wait (call_it a) w1)) /\
    pending (tasks (debounced a w)) = 1%nat.
Proof.
  intros Hreach.
  destruct (dsteps_view _ _ Hreach (ex_intro _ None (view_init t0))) as [p Hv].
  split; [eapply view_pending_count, Hv|].
  intros a w1. split; [|split].
  - apply pending_0_quiet. subst w1. eapply cancel_held_quiet, Hv.
  - reflexivity.
  - destruct (debounced_view a w p Hv) as (Hv' & _).
    inversion Hv' as [|d b tm Hs _]; subst.
    eapply sole_sleeper_pending, Hs.
Qed.


(** *** Wrappers in the same abstract state behave alike *)

Lemma run_until_same t (w w' : World) p pre :
  view w p -> view w' p -> now w = now w' -> calls w = pre ++ calls w' ->
  exists q, view (run_until t w) q /\ view (run_until t w') q /\
    now (run_until t w) = now (run_until t w') /\
    calls (run_until t w) = pre ++ calls (run_until t w').
Proof.
  intros Hv Hv' Hn Hc. destruct p as [[d a]|].
  - destruct (Z_le_gt_dec d t) as [Hle|Hgt].
    + destruct (run_until_fires t w d a Hv Hle) as (Hq & -> & -> & _).
      destruct (run_until_fires t w' d a Hv' Hle) as (Hq' & -> & -> & _).
      exists None. rewrite Hn, Hc, app_assoc. auto.
    + rewrite (run_until_waiting t w d a Hv), (run_until_waiting t w' d a Hv') by lia.
      exists (Some (d, a)). simpl. rewrite Hn.
      auto using view_set_now.
  - rewrite (run_until_idle t w Hv), (run_until_idle t w' Hv').
    exists None. simpl. rewrite Hn. auto using view_set_now.
Qed.

Lemma debounced_same a (w w' : World) p p' pre :
  view w p -> view w' p' -> now w = now w' -> calls w = pre ++ calls w' ->
  exists q, view (debounced a w) q /\ view (debounced a w') q /\
    now (debounced a w) = now (debounced a w') /\
    calls (debounced a w) = pre ++ calls (debounced a w').
Proof.
  intros Hv Hv' Hn Hc.
  destruct (debounced_view a w p Hv) as (Hq & -> & ->).
  destruct (debounced_view a w' p' Hv') as (Hq' & -> & ->).
  rewrite Hn in Hq. eauto.
Qed.

Lemma run_calls_same tr : forall (w w' : World) p pre,
  view w p -> view w' p -> now w = now w' -> calls w = pre ++ calls w' ->
  exists q, view (run_calls tr w) q /\ view (run_calls tr w') q /\
    now (run_calls tr w) = now (run_calls tr w') /\
    calls (run_calls tr w) = pre ++ calls (run_calls tr w').
Proof.
  induction tr as [|[t a] tr IH]; intros w w' p pre Hv Hv' Hn Hc; [simpl; eauto|].
  cbn [Loop.run_calls].
  destruct (run_until_same t w w' p pre Hv Hv' Hn Hc) as (q & Hq & Hq' & Hn1 & Hc1).
  destruct (debounced_same a _ _ q q pre Hq Hq' Hn1 Hc1) as (r & Hr & Hr' & Hn2 & Hc2).
  exact (IH _ _ r pre Hr Hr' Hn2 Hc2).
Qed.

(** C10.  The debouncer survives a failing callback.  When the pending
    timer of a reachable wrapper fires and [fn] raises, the task ends as
    failed and the cells are untouched: the [timer] cell still holds the
    fired timer, cancelling it changes nothing, and from then on every
    sequence of calls makes [fn] run exactly as on a wrapper decorated
    afresh at that clock reading. *)
Theorem debounce_survives_failure t0 (w : World) i k a :
  rtc dstep (Debounce.init t0) w ->
  tasks w !! i = Some k -> due (now w) k = true -> job k = call_it a ->
  fn (now w) a = false ->
  let w1 := fire i w in
  (exists k1, tasks w1 !! i = Some k1 /\ state k1 = Raised) /\
  cells w1 = cells w /\
  (exists tm, cells w1 = Some tm /\ _task tm = i /\ Timer_cancel tm w1 = w1) /\
  forall tr T,
    calls (simulate tr T w1) =
      calls w1 ++ calls (simulate tr T (Debounce.init (now w1))).
Proof.
  intros Hreach Hk Hd Hjob Hfn w1.
  destruct (dsteps_view _ _ Hreach (ex_intro _ None (view_init t0))) as [p Hv].
  pose proof (due_sleeping _ _ Hd) as [Hs _].
  destruct Hv as [Hq|d b tm Hsole Hc].
  { rewrite (quiet_lookup _ _ _ Hq Hk) in Hs. discriminate. }
  destruct (sole_sleeper_unique _ _ _ _ _ _ Hsole Hk Hs) as [-> ->].
  simpl in Hjob. injection Hjob as ->.
  assert (Hw1 : w1 = mkWorld (now w)
                  (<[_task tm := mkTask d (call_it a) Raised]> (tasks w))
                  (cells w) (calls w ++ [(now w, a)]) (ran w ++ [_task tm])).
  { subst w1. rewrite (fire_enabled rc _ w _ Hk Hd). simpl. rewrite Hfn. reflexivity. }
  assert (Hq1 : quiet (tasks w1)).
  { rewrite Hw1. simpl. eapply sole_sleeper_insert; [exact Hsole | reflexivity]. }
  split.
  { eexists. rewrite Hw1. simpl.
    rewrite list_lookup_insert_eq by (eapply lookup_lt_Some; eassumption).
    split; reflexivity. }
  split; [rewrite Hw1; reflexivity|].
  split.
  { exists tm. split; [rewrite Hw1; exact Hc|]. split; [reflexivity|].
    apply Timer_cancel_done. intros k1. apply quiet_lookup, Hq1. }
  intros tr T. unfold Loop.simulate.
  destruct (run_calls_same tr w1 (Debounce.init (now w1)) None (calls w1))
    as (q & Hr & Hr' & Hn & Hc').
  - apply view_idle, Hq1.
  - apply view_init.
  - reflexivity.
  - simpl. rewrite app_nil_r. reflexivity.
  - destruct (run_until_same T _ _ q (calls w1) Hr Hr' Hn Hc') as (_ & _ & _ & _ & Hfin).
    exact Hfin.
Qed.


(** *** Which calls are served *)

Lemma chrono_lower t (ts : list Z) x : chrono t ts -> x ∈ ts -> t <= x.
Proof.
  revert t. induction ts as [|t' ts IH]; intros t Hc Hx; [inversion Hx|].
  destruct Hc as [Hle Hc]. apply elem_of_cons in Hx as [->|Hx]; [exact Hle|].
  specialize (IH t' Hc Hx). lia.
Qed.

Lemma run_until_owed t (w : World) p :
  view w p -> (forall d a, p = Some (d, a) -> now w <= d) -> now w <= t ->
  exists q, view (run_until t w) q /\
    calls (run_until t w) = calls w ++ owed p t /\ now (run_until t w) = t.
Proof.
  intros Hv Hd Ht. destruct p as [[d a]|]; unfold owed.
  - specialize (Hd d a eq_refl). destruct (Z.leb_spec d t) as [Hle|Hgt].
    + destruct (run_until_fires t w d a Hv Hle) as (Hq & Hc & Hn & _).
      exists None. rewrite Hc, Hn. split; [exact Hq|].
      rewrite (Z.max_r (now w) d) by lia. split; [reflexivity | lia].
    + rewrite (run_until_waiting t w d a Hv Hgt).
      exists (Some (d, a)). split; [apply view_set_now, Hv|].
      cbn [calls now set_now]. rewrite app_nil_r. split; [reflexivity | lia].
  - rewrite (run_until_idle t w Hv). exists None.
    split; [apply view_set_now, Hv|].
    cbn [calls now set_now]. rewrite app_nil_r. split; [reflexivity | lia].
Qed.

Lemma simulate_owed tr : forall (w : World) p T,
  view w p -> (forall d a, p = Some (d, a) -> now w <= d) ->
  chrono (now w) (map fst tr ++ [T]) ->
  calls (simulate tr T w) =
    calls w ++ owed p (next_event tr T) ++ executions wait tr T.
Proof.
  induction tr as [|[t a] tr IH]; intros w p T Hv Hd Hc.
  - destruct Hc as [Hle _]. unfold Loop.simulate. cbn [Loop.run_calls].
    destruct (run_until_owed T w p Hv Hd Hle) as (_ & _ & -> & _).
    simpl. rewrite app_nil_r. reflexivity.
  - destruct Hc as [Hle Hc]. unfold Loop.simulate. cbn [Loop.run_calls].
    destruct (run_until_owed t w p Hv Hd Hle) as (q & Hq & Hc1 & Hn1).
    destruct (debounced_view a _ q Hq) as (Hv2 & Hc2 & Hn2).
    rewrite Hn1 in Hv2, Hn2.
    pose proof (IH (debounced a (run_until t w)) _ T Hv2) as H.
    unfold Loop.simulate in H. rewrite H.
    + rewrite Hc2, Hc1. cbn [next_event executions]. rewrite <- app_assoc. reflexivity.
    + intros d b [= <- <-]. rewrite Hn2. lia.
    + rewrite Hn2. exact Hc.
Qed.

Lemma run_before_owed t (w : World) p :
  view w p -> (forall d a, p = Some (d, a) -> now w <= d) -> now w <= t ->
  exists q, view (run_before t w) q /\
    calls (run_before t w) = calls w ++ owed p (t - 1) /\ now (run_before t w) = t.
Proof.
  intros Hv Hd Ht. destruct p as [[d a]|]; unfold owed.
  - specialize (Hd d a eq_refl). destruct (Z.leb_spec d (t - 1)) as [Hle|Hgt].
    + destruct (run_before_fires t w d a Hv) as (Hq & Hc & Hn & _); [lia|].
      exists None. rewrite Hc, Hn. split; [exact Hq|].
      rewrite (Z.max_r (now w) d) by lia. split; [reflexivity | lia].
    + rewrite (run_before_waiting t w d a Hv) by lia.
      exists (Some (d, a)). split; [apply view_set_now, Hv|].
      cbn [calls now set_now]. rewrite app_nil_r. split; [reflexivity | lia].
  - rewrite (run_before_idle t w Hv). exists None.
    split; [apply view_set_now, Hv|].
    cbn [calls now set_now]. rewrite app_nil_r. split; [reflexivity | lia].
Qed.

Lemma simulate_first_served tr : forall (w : World) p T,
  view w p -> (forall d a, p = Some (d, a) -> now w <= d) ->
  chrono (now w) (map fst tr ++ [T]) ->
  calls (simulate_first tr T w) =
    calls w ++ owed p (match tr with [] => T | (t, _) :: _ => t - 1 end) ++ served wait tr T.
Proof.
  induction tr as [|[t a] tr IH]; intros w p T Hv Hd Hc.
  - destruct Hc as [Hle _]. unfold Loop.simulate_first. cbn [Loop.calls_first].
    destruct (run_until_owed T w p Hv Hd Hle) as (_ & _ & -> & _).
    simpl. rewrite app_nil_r. reflexivity.
  - destruct Hc as [Hle Hc]. unfold Loop.simulate_first. cbn [Loop.calls_first].
    destruct (run_before_owed t w p Hv Hd Hle) as (q & Hq & Hc1 & Hn1).
    destruct (debounced_view a _ q Hq) as (Hv2 & Hc2 & Hn2).
    rewrite Hn1 in Hv2, Hn2.
    pose proof (IH (debounced a (run_before t w)) _ T Hv2) as H.
    unfold Loop.simulate_first in H. rewrite H.
    + rewrite Hc2, Hc1. rewrite <- app_assoc. f_equal. f_equal.
      cbn [served]. f_equal. unfold owed. destruct tr as [|[t' a'] tr]; [reflexivity|].
      destruct (Z.leb_spec (t + Z.max 0 wait) (t' - 1)),
               (Z.ltb_spec (t + Z.max 0 wait) t'); (reflexivity || lia).
    + intros d b [= <- <-]. rewrite Hn2. lia.
    + rewrite Hn2. exact Hc.
Qed.

(** X3.  Which calls a debouncer serves.  Starting with no timer pending,
    for calls made in chronological order, each before a timer due at the
    same clock reading is resumed, and a loop that then runs until [T],
    the executions of [fn] are exactly: for each call but the last, one
    execution [max 0 wait] after it on its arguments, provided the next
    call comes later than that; for the last call, one execution
    [max 0 wait] after it, provided the run lasts until then. *)
Theorem debounce_executions (w0 : World) tr T :
  quiet (tasks w0) -> chrono (now w0) (map fst tr ++ [T]) ->
  calls (simulate_first tr T w0) = calls w0 ++ served wait tr T.
Proof.
  intros Hq Hc.
  rewrite (simulate_first_served tr w0 None T (view_idle _ Hq)); [reflexivity| |exact Hc].
  intros d a H. discriminate.
Qed.

Lemma next_event_upper t (tr : list (Z * A)) T :
  chrono t (map fst tr ++ [T]) -> t <= next_event tr T <= T.
Proof.
  intros Hc. destruct tr as [|[t1 a1] tr]; simpl in *.
  - lia.
  - destruct Hc as [Hle Hc]. split; [exact Hle|].
    apply (chrono_lower t1 (map fst tr ++ [T])); [exact Hc|].
    apply elem_of_app. right. apply list_elem_of_singleton. reflexivity.
Qed.

Lemma executions_quiet_period (tr : list (Z * A)) : forall t0 T d a,
  chrono t0 (map fst tr ++ [T]) -> (d, a) ∈ executions wait tr T ->
  (exists t, (t, a) ∈ tr /\ d = t + Z.max 0 wait) /\
  (forall t b, (t, b) ∈ tr -> t < d -> t + Z.max 0 wait <= d) /\
  d <= T.
Proof.
  induction tr as [|[t1 a1] tr IH]; intros t0 T d a Hc Hin; [inversion Hin|].
  destruct Hc as [Hle Hc]. cbn [executions] in Hin.
  pose proof (next_event_upper t1 tr T Hc) as Hnext.
  apply elem_of_app in Hin as [Hin|Hin].
  - unfold owed in Hin. destruct (Z.leb_spec (t1 + Z.max 0 wait) (next_event tr T));
      [|inversion Hin].
    apply list_elem_of_singleton in Hin. injection Hin as -> ->.
    split; [exists t1; split; [left | reflexivity]|]. split; [|lia].
    intros t b Hb Hlt. apply elem_of_cons in Hb as [[= -> ->]|Hb]; [lia|].
    assert (t1 + Z.max 0 wait <= t); [|lia].
    destruct tr as [|[t2 a2] tr]; [inversion Hb|]. simpl in *.
    destruct Hc as [_ Hc]. apply elem_of_cons in Hb as [[= -> ->]|Hb]; [lia|].
    assert (t2 <= t); [|lia].
    apply (chrono_lower t2 (map fst tr ++ [T])); [exact Hc|].
    apply elem_of_app. left. apply (list_elem_of_fmap_2 fst _ _ Hb).
  - destruct (IH t1 T d a Hc Hin) as ((t & Ht & ->) & Hbefore & HT).
    split; [exists t; split; [right; exact Ht | reflexivity]|]. split; [|exact HT].
    intros t' b Hb Hlt. apply elem_of_cons in Hb as [[= -> ->]|Hb].
    + assert (t1 <= t); [|lia].
      apply (chrono_lower t1 (map fst tr ++ [T])); [exact Hc|].
      apply elem_of_app. left. apply (list_elem_of_fmap_2 fst _ _ Ht).
    + apply (Hbefore t' b Hb Hlt).
Qed.

(** X4.  Quiet period.  On a freshly decorated wrapper, for calls made in
    chronological order, every execution of [fn] is on the arguments of
    one of the calls, [wait] after that call, and no call at all was made
    during the [wait] before the execution. *)
Theorem debounce_quiet_period t0 tr T d a :
  0 <= wait -> chrono t0 (map fst tr ++ [T]) ->
  (d, a) ∈ calls (simulate tr T (Debounce.init t0)) ->
  (exists t, (t, a) ∈ tr /\ d = t + wait) /\
  (forall t b, (t, b) ∈ tr -> t < d -> t + wait <= d) /\
  d <= T.
Proof.
  intros Hw Hc Hin.
  rewrite (simulate_owed tr (Debounce.init t0) None T) in Hin;
    [|apply view_idle; constructor|intros d' a' H; discriminate|exact Hc].
  simpl in Hin.
  pose proof (executions_quiet_period tr t0 T d a Hc Hin) as H.
  rewrite Z.max_r in H by exact Hw. exact H.
Qed.

End DebounceFacts.

(** Calls at 0, 50 and 100 with [wait = 200]: one execution, at 300, on the
    arguments of the call at 100. *)
Lemma debounce_collapse_witness :
  burst 200 0 [(50, 2%nat); (100, 3%nat)] /\
  calls (Loop.simulate (Debounce.run_callback Examples.returns) (Debounce.debounced 200)
           [(0, 1%nat); (50, 2%nat); (100, 3%nat)] 300 (Debounce.init 0))
    = [(300, 3%nat)].
Proof.
  assert (Hb : burst 200 0 [(50, 2%nat); (100, 3%nat)]) by (simpl; lia).
  split; [exact Hb|].
  apply (debounce_collapse 200 Examples.returns (Debounce.init 0) 0 1%nat
           [(50, 2%nat); (100, 3%nat)] 300).
  - lia.
  - constructor.
  - simpl; lia.
  - exact Hb.
  - simpl; lia.
Defined.

(** Calls at 0 and 300 with [wait = 200]: executions at 200 and at 500. *)
Lemma debounce_isolation_witness :
  calls (Loop.simulate_first (Debounce.run_callback Examples.returns)
           (Debounce.debounced 200) [(0, 1%nat); (300, 2%nat)] 500 (Debounce.init 0))
    = [(200, 1%nat); (500, 2%nat)].
Proof.
  apply (proj1 (debounce_isolation 200 Examples.returns (Debounce.init 0)
                  0 1%nat 300 2%nat 500
                  ltac:(lia) ltac:(constructor) ltac:(simpl; lia) ltac:(lia))).
  lia.
Defined.

(** The claim that two calls at least [wait] apart are both served fails at
    a gap of exactly [wait]: the calls at 0 and 200 with [wait = 200] are
    [wait] apart, and [fn] runs once, at 400, on the arguments of the
    second call. *)
Lemma debounce_isolation_counterexample :
  0 + 200 <= 200 /\
  calls (Loop.simulate_first (Debounce.run_callback Examples.returns)
           (Debounce.debounced 200) [(0, 1%nat); (200, 2%nat)] 400 (Debounce.init 0))
    = [(400, 2%nat)] /\
  calls (Loop.simulate_first (Debounce.run_callback Examples.returns)
           (Debounce.debounced 200) [(0, 1%nat); (200, 2%nat)] 400 (Debounce.init 0))
    <> [(200, 1%nat); (400, 2%nat)].
Proof. split; [lia|]. split; [reflexivity | vm_compute; discriminate]. Qed.

(** After one call at clock reading 0. *)
Lemma debounce_single_pending_witness :
  let w := Debounce.debounced 200 1%nat (Debounce.init 0) in
  rtc (Debounce.dstep 200 Examples.returns) (Debounce.init 0) w /\
  (pending (tasks w) <= 1)%nat /\
  pending (tasks (Debounce.debounced 200 2%nat w)) = 1%nat.
Proof.
  intros w.
  assert (H : rtc (Debounce.dstep 200 Examples.returns) (Debounce.init 0) w)
    by (apply rtc_once, dstep_loop, step_call).
  destruct (debounce_single_pending 200 Examples.returns 0 w H) as [Hle Hcall].
  split; [exact H|]. split; [exact Hle|]. apply (Hcall 2%nat).
Defined.

(** One call at 0 with [wait = 200], the clock moved to 200, [fn] raising. *)
Lemma debounce_survives_failure_witness :
  let w := set_now 200 (Debounce.debounced 200 1%nat (Debounce.init 0)) in
  rtc (Debounce.dstep 200 Examples.raises) (Debounce.init 0) w /\
  due (now w) (mkTask 200 (call_it 1%nat) Sleeping) = true /\
  Examples.raises (now w) 1%nat = false /\
  forall tr T,
    calls (Loop.simulate (Debounce.run_callback Examples.raises) (Debounce.debounced 200)
             tr T (Loop.fire (Debounce.run_callback Examples.raises) 0 w))
    = calls (Loop.fire (Debounce.run_callback Examples.raises) 0 w) ++
      calls (Loop.simulate (Debounce.run_callback Examples.raises) (Debounce.debounced 200)
               tr T (Debounce.init 200)).
Proof.
  intros w.
  assert (H : rtc (Debounce.dstep 200 Examples.raises) (Debounce.init 0) w).
  { eapply rtc_l; [apply dstep_loop, (step_call _ _ (Debounce.init 0) 1%nat)|].
    apply rtc_once, dstep_loop, step_tick. simpl. lia. }
  split; [exact H|]. split; [reflexivity|]. split; [reflexivity|].
  destruct (debounce_survives_failure 200 Examples.raises 0 w 0
              (mkTask 200 (call_it 1%nat) Sleeping) 1%nat H eq_refl eq_refl eq_refl eq_refl)
    as (_ & _ & _ & Hsame).
  exact Hsame.
Defined.

(** Calls at 0, 50, 300 and 500 with [wait = 200], run until 700: the call
    at 0 is superseded, the call at 50 is served at 250, the call at 300
    is cancelled by the call made at 500, when its timer is due, and the
    call at 500 is served at 700. *)
Lemma debounce_executions_witness :
  chrono 0 (map fst [(0, 1%nat); (50, 2%nat); (300, 3%nat); (500, 4%nat)] ++ [700]) /\
  calls (Loop.simulate_first (Debounce.run_callback Examples.returns)
           (Debounce.debounced 200)
           [(0, 1%nat); (50, 2%nat); (300, 3%nat); (500, 4%nat)] 700 (Debounce.init 0))
    = [(250, 2%nat); (700, 4%nat)].
Proof.
  assert (Hc : chrono 0 (map fst [(0, 1%nat); (50, 2%nat); (300, 3%nat); (500, 4%nat)]
                           ++ [700]))
    by (simpl; lia).
  split; [exact Hc|].
  exact (debounce_executions 200 Examples.returns (Debounce.init 0)
           [(0, 1%nat); (50, 2%nat); (300, 3%nat); (500, 4%nat)] 700
           ltac:(constructor) Hc).
Defined.

(** The execution at 250 in the run above: it serves the call made at 50,
    and the call at 0 is not within the 200 before it. *)
Lemma debounce_quiet_period_witness :
  (exists t, (t, 2%nat) ∈ [(0, 1%nat); (50, 2%nat); (300, 3%nat)] /\ 250 = t + 200) /\
  (forall t b, (t, b) ∈ [(0, 1%nat); (50, 2%nat); (300, 3%nat)] -> t < 250 -> t + 200 <= 250) /\
  250 <= 600.
Proof.
  apply (debounce_quiet_period 200 Examples.returns 0
           [(0, 1%nat); (50, 2%nat); (300, 3%nat)] 600 250 2%nat).
  - lia.
  - simpl; lia.
  - change ((250, 2%nat) ∈ [(250, 2%nat); (500, 3%nat)]). left.
Defined.

End DebounceFacts.

(** ** The throttler *)

Module ThrottleFacts.
Import Loop LoopFacts Throttle.
Section ThrottleFacts.
Context {A : Type}.
Variable wait : Z.
Variable fn : Z -> A -> bool.

Abbreviation World := (@Throttle.World A).
Abbreviation rc := (Throttle.run_callback fn).
Abbreviation throttled := (Throttle.throttled (A:=A) wait).
Abbreviation new_wait := (Throttle.new_wait wait).
Abbreviation run_until := (Loop.run_until rc).
Abbreviation fire := (Loop.fire rc).
Abbreviation simulate := (Loop.simulate rc throttled).
Abbreviation run_calls := (Loop.run_calls rc throttled).
Abbreviation tstep := (Throttle.tstep wait fn).

Lemma new_wait_nonneg x : 0 <= new_wait x.
Proof. unfold Throttle.new_wait. lia. Qed.

Lemma throttled_scheduled a (w : World) :
  scheduled (cells w) = true ->
  throttled a w = set_cells (mkCells (time_of_last_call (cells w)) true (Some a)) w.
Proof. intros H. unfold Throttle.throttled. rewrite H. reflexivity. Qed.

Lemma throttled_unscheduled a (w : World) :
  scheduled (cells w) = false ->
  throttled a w =
    mkWorld (now w)
            (tasks w ++ [mkTask (now w + new_wait (now w - time_of_last_call (cells w)))
                                call_it Sleeping])
            (mkCells (time_of_last_call (cells w)) true (Some a))
            (calls w) (ran w).
Proof.
  intros H. unfold Throttle.throttled. rewrite H. simpl. unfold set_tasks, set_cells. simpl.
  rewrite (Z.max_r 0 (new_wait _)) by apply new_wait_nonneg. reflexivity.
Qed.

Lemma throttle_view_set_now t (w : World) p : view w p -> view (set_now t w) p.
Proof.
  intros [Hq|i d a Hs Hsch Ha]; [apply view_idle | eapply view_pending]; eassumption.
Qed.

Lemma throttled_view a (w : World) p : view w p -> exists p', view (throttled a w) p'.
Proof.
  intros Hv. destruct (scheduled (cells w)) eqn:Hsch.
  - rewrite throttled_scheduled by assumption. destruct Hv as [Hq|i d b Hs _ _].
    + exists None. apply view_idle. exact Hq.
    + exists (Some d). eapply (view_pending _ i d a); [exact Hs | reflexivity..].
  - rewrite throttled_unscheduled by assumption. destruct Hv as [Hq|i d b Hs Hsch' _].
    + eexists (Some _). eapply (view_pending _ _ _ a); [|reflexivity..].
      simpl. apply quiet_snoc, Hq.
    + congruence.
Qed.

Lemma throttle_fire_view j (w : World) p : view w p -> exists p', view (fire j w) p'.
Proof.
  intros Hv. destruct (fire_cases rc j w) as [->|(k & Hk & Hd & ->)]; [eauto|].
  apply due_sleeping in Hd as [Hs _].
  destruct Hv as [Hq|i d a Hsole Hsch Ha].
  - rewrite (quiet_lookup _ _ _ Hq Hk) in Hs. discriminate.
  - destruct (sole_sleeper_unique _ _ _ _ _ _ Hsole Hk Hs) as [-> ->].
    exists None. apply view_idle.
    destruct (rc _ _ _) as [[s' inv] ok]. simpl.
    eapply sole_sleeper_insert; [exact Hsole | apply finish_not_sleeping].
Qed.

Lemma tstep_view (w w' : World) p : tstep w w' -> view w p -> exists p', view w' p'.
Proof.
  intros Hstep Hv. destruct Hstep as [w t _|w j|w a].
  - exists p. apply throttle_view_set_now, Hv.
  - eapply throttle_fire_view, Hv.
  - eapply throttled_view, Hv.
Qed.

Lemma throttle_view_init t0 : view (Throttle.init (A:=A) t0) None.
Proof. apply view_idle. constructor. Qed.

Lemma tsteps_view (w w' : World) :
  rtc tstep w w' -> (exists p, view w p) -> exists p', view w' p'.
Proof.
  induction 1 as [|w w1 w2 Hstep _ IH]; [auto|].
  intros [p Hv]. apply IH. eapply tstep_view; eassumption.
Qed.


Lemma throttle_run_until_fires t (w : World) i d a :
  sole_sleeper (tasks w) i d call_it -> new_args (cells w) = Some a -> d <= t ->
  run_until t w =
    mkWorld (Z.max (Z.max (now w) d) t)
            (<[i := mkTask d call_it (finish (fn (Z.max (now w) d) a))]> (tasks w))
            (mkCells (Z.max (now w) d)
                     (if fn (Z.max (now w) d) a then false else scheduled (cells w))
                     (Some a))
            (calls w ++ [(Z.max (now w) d, a)])
            (ran w ++ [i]).
Proof.
  intros Hs Ha Ht. pose proof (run_until_fire rc t w i d call_it Hs Ht) as H.
  cbv zeta in H. unfold Throttle.run_callback in H. rewrite Ha in H.
  destruct (fn (Z.max (now w) d) a); exact H.
Qed.

(** *** No timer is cancelled *)

Lemma uncancelled_init t0 : uncancelled (Throttle.init (A:=A) t0).
Proof. constructor. Qed.

Lemma tstep_uncancelled (w w' : World) : tstep w w' -> uncancelled w -> uncancelled w'.
Proof.
  unfold uncancelled. intros Hstep Hu. destruct Hstep as [w t _|w j|w a].
  - exact Hu.
  - destruct (fire_cases rc j w) as [->|(k & Hk & Hd & ->)]; [exact Hu|].
    destruct (rc _ _ _) as [[s' inv] ok]. simpl.
    apply Forall_insert; [exact Hu|]. destruct ok; discriminate.
  - destruct (scheduled (cells w)) eqn:Hsch.
    + rewrite throttled_scheduled by assumption. exact Hu.
    + rewrite throttled_unscheduled by assumption. simpl.
      apply Forall_app. split; [exact Hu|]. constructor; [discriminate|constructor].
Qed.

Lemma tsteps_uncancelled (w w' : World) : rtc tstep w w' -> uncancelled w -> uncancelled w'.
Proof. induction 1; eauto using tstep_uncancelled. Qed.

(** C8.  The throttler never cancels.  In every state a throttled wrapper
    can reach through calls, fires and clock ticks, no task is cancelled;
    a call adds a timer only when [scheduled] is false; and every timer
    the wrapper has created has run its callback once the loop has run
    past its deadline. *)
Theorem throttle_never_cancels t0 (w : World) :
  rtc tstep (Throttle.init t0) w ->
  uncancelled w /\
  (forall a,
     tasks (throttled a w) =
       if scheduled (cells w) then tasks w
       else tasks w ++
            [mkTask (now w + new_wait (now w - time_of_last_call (cells w)))
                    call_it Sleeping]) /\
  (forall i k T,
     tasks w !! i = Some k -> wake_at k <= T ->
     exists k', tasks (run_until T w) !! i = Some k' /\ fired k' = true).
Proof.
  intros Hreach.
  assert (Hu : uncancelled w)
    by (eapply tsteps_uncancelled; [exact Hreach | apply uncancelled_init]).
  split; [exact Hu|]. split.
  - intros a. destruct (scheduled (cells w)) eqn:Hsch.
    + rewrite throttled_scheduled by assumption. reflexivity.
    + rewrite throttled_unscheduled by assumption. reflexivity.
  - intros i k T Hk HT.
    destruct (run_until_done rc T w i k Hk HT) as (k' & Hk' & (_ & _ & Ha) & Hs').
    exists k'. split; [exact Hk'|].
    destruct Ha as [Ha|[_ Hf]]; [|exact Hf].
    unfold uncancelled in Hu. rewrite Forall_lookup in Hu. specialize (Hu i k Hk).
    simpl in Hu. unfold fired, sleeping in *. rewrite Ha in *.
    destruct (state k); congruence.
Qed.

(** *** After a failure *)

Lemma wedged_step (w w' : World) :
  tstep w w' -> quiet (tasks w) -> scheduled (cells w) = true ->
  quiet (tasks w') /\ scheduled (cells w') = true /\
  calls w' = calls w /\ tasks w' = tasks w.
Proof.
  intros Hstep Hq Hsch. destruct Hstep as [w t _|w j|w a].
  - auto.
  - destruct (fire_cases rc j w) as [->|(k & Hk & Hd & _)]; [auto|].
    apply due_sleeping in Hd as [Hs _].
    rewrite (quiet_lookup _ _ _ Hq Hk) in Hs. discriminate.
  - rewrite throttled_scheduled by assumption. auto.
Qed.

Lemma wedged_steps (w w' : World) :
  rtc tstep w w' -> quiet (tasks w) -> scheduled (cells w) = true ->
  quiet (tasks w') /\ scheduled (cells w') = true /\
  calls w' = calls w /\ tasks w' = tasks w.
Proof.
  induction 1 as [|w w1 w2 Hstep _ IH]; intros Hq Hsch; [auto|].
  destruct (wedged_step _ _ Hstep Hq Hsch) as (Hq1 & Hsch1 & Hc1 & Ht1).
  destruct (IH Hq1 Hsch1) as (Hq2 & Hsch2 & Hc2 & Ht2).
  repeat split; congruence.
Qed.

(** C9.  The throttler wedges after a failing callback.  When the pending
    timer of a reachable wrapper fires and [fn] raises, [scheduled] is
    left true; in every state reached afterwards it is still true, no
    timer has been added, [fn] has not been invoked again, and a call
    does nothing but overwrite the stored arguments. *)
Theorem throttle_wedges t0 (w : World) i k :
  rtc tstep (Throttle.init t0) w ->
  tasks w !! i = Some k -> due (now w) k = true ->
  (forall a, new_args (cells w) = Some a -> fn (now w) a = false) ->
  let w1 := fire i w in
  scheduled (cells w1) = true /\
  forall w2, rtc tstep w1 w2 ->
    scheduled (cells w2) = true /\ calls w2 = calls w1 /\ tasks w2 = tasks w1 /\
    forall b, throttled b w2 =
              set_cells (mkCells (time_of_last_call (cells w2)) true (Some b)) w2.
Proof.
  intros Hreach Hk Hd Hfn w1.
  destruct (tsteps_view _ _ Hreach (ex_intro _ None (throttle_view_init t0))) as [p Hv].
  pose proof (due_sleeping _ _ Hd) as [Hs _].
  destruct Hv as [Hq|i' d a Hsole Hsch Ha].
  { rewrite (quiet_lookup _ _ _ Hq Hk) in Hs. discriminate. }
  destruct (sole_sleeper_unique _ _ _ _ _ _ Hsole Hk Hs) as [-> ->].
  assert (Hw1 : w1 = mkWorld (now w)
                  (<[i' := mkTask d call_it Raised]> (tasks w))
                  (mkCells (now w) true (Some a))
                  (calls w ++ [(now w, a)]) (ran w ++ [i'])).
  { subst w1. rewrite (fire_enabled rc _ w _ Hk Hd). simpl.
    rewrite Ha, (Hfn a Ha), Hsch. reflexivity. }
  assert (Hq1 : quiet (tasks w1)).
  { rewrite Hw1. simpl. eapply sole_sleeper_insert; [exact Hsole | reflexivity]. }
  assert (Hsch1 : scheduled (cells w1) = true) by (rewrite Hw1; reflexivity).
  split; [exact Hsch1|].
  intros w2 Hsteps.
  destruct (wedged_steps _ _ Hsteps Hq1 Hsch1) as (_ & Hsch2 & Hc2 & Ht2).
  repeat split; try assumption.
  intros b. apply throttled_scheduled, Hsch2.
Qed.


(** *** Calls and fires *)

(** C3.  Coalescing and latest arguments.  A call made while [scheduled]
    is true changes nothing but the stored arguments: no timer is added.
    When a timer fires, [fn] is invoked on the arguments stored at that
    moment; so when a call [a] sets [scheduled] and a call [b] follows
    before the timer fires, [fn] runs once, at the deadline set by the
    first call, on [b]. *)
Theorem throttle_coalesces (w : World) :
  (forall a, scheduled (cells w) = true ->
     throttled a w =
       set_cells (mkCells (time_of_last_call (cells w)) true (Some a)) w) /\
  (forall i k a,
     tasks w !! i = Some k -> due (now w) k = true ->
     new_args (cells w) = Some a ->
     calls (fire i w) = calls w ++ [(now w, a)]) /\
  (forall a b T,
     scheduled (cells w) = false -> quiet (tasks w) ->
     now w + new_wait (now w - time_of_last_call (cells w)) <= T ->
     scheduled (cells (throttled a w)) = true /\
     new_args (cells (throttled a w)) = Some a /\
     calls (run_until T (throttled b (throttled a w))) =
       calls w ++ [(now w + new_wait (now w - time_of_last_call (cells w)), b)]).
Proof.
  split; [intros a; apply throttled_scheduled|]. split.
  - intros i k a Hk Hd Ha. rewrite (fire_enabled rc i w k Hk Hd).
    destruct k as [d [] st]. simpl. rewrite Ha.
    destruct (fn (now w) a); reflexivity.
  - intros a b T Hsch Hq HT.
    rewrite (throttled_unscheduled a w Hsch). split; [reflexivity|].
    split; [reflexivity|].
    rewrite throttled_scheduled by reflexivity.
    pose proof (new_wait_nonneg (now w - time_of_last_call (cells w))) as Hnn.
    erewrite throttle_run_until_fires; [| apply quiet_snoc, Hq | reflexivity | exact HT].
    simpl. rewrite Z.max_r by lia. reflexivity.
Qed.

(** C2 (as the code has it).  The first call to a throttled wrapper, made
    when the clock reads [t0], computes the delay [max 0 (wait - t0)]:
    [time_of_last_call] is still 0, so the time since the last call is the
    clock reading itself.  The first execution of [fn] comes that long
    after the call.  The delay is the full [wait] exactly when the clock
    reads 0 and [wait] is not negative, or [wait] is 0 and the clock does
    not read less than 0; so for a positive [wait] it is the full [wait]
    exactly when the clock reads 0.  It is 0 when the clock reads [wait]
    or more. *)
Theorem throttle_first_call t0 a T :
  new_wait (t0 - time_of_last_call (cells (Throttle.init (A:=A) t0)))
    = Z.max 0 (wait - t0) /\
  tasks (throttled a (Throttle.init t0))
    = [mkTask (t0 + Z.max 0 (wait - t0)) call_it Sleeping] /\
  (t0 + Z.max 0 (wait - t0) <= T ->
   calls (simulate [(t0, a)] T (Throttle.init t0)) = [(t0 + Z.max 0 (wait - t0), a)]) /\
  (Z.max 0 (wait - t0) = wait <-> (t0 = 0 /\ 0 <= wait) \/ (wait = 0 /\ 0 <= t0)) /\
  (0 < wait -> (Z.max 0 (wait - t0) = wait <-> t0 = 0)) /\
  (wait <= t0 -> Z.max 0 (wait - t0) = 0).
Proof.
  assert (Hnw : new_wait (t0 - 0) = Z.max 0 (wait - t0))
    by (unfold Throttle.new_wait; f_equal; lia).
  split; [exact Hnw|]. split; [|split; [|split; [lia|split; lia]]].
  - rewrite throttled_unscheduled by reflexivity. simpl. rewrite Hnw. reflexivity.
  - intros HT. unfold Loop.simulate. cbn [Loop.run_calls].
    rewrite (run_until_quiet rc t0 (Throttle.init t0)) by constructor.
    change (now (Throttle.init (A:=A) t0)) with t0. rewrite Z.max_id.
    change (set_now t0 (Throttle.init (A:=A) t0)) with (Throttle.init (A:=A) t0).
    rewrite throttled_unscheduled by reflexivity.
    change (time_of_last_call (cells (Throttle.init (A:=A) t0))) with 0.
    change (now (Throttle.init (A:=A) t0)) with t0. rewrite Hnw.
    erewrite throttle_run_until_fires; [| apply (quiet_snoc []); constructor | reflexivity | exact HT].
    simpl. rewrite Z.max_r by lia. reflexivity.
Qed.


(** *** Pacing *)

Lemma paced_snoc (l : list (Z * A)) t a :
  paced wait l ->
  (forall t' a', last l = Some (t', a') -> t' + wait <= t) ->
  paced wait (l ++ [(t, a)]).
Proof.
  induction l as [|[t1 a1] l IH]; intros Hp Hlast; [simpl; auto|].
  destruct Hp as [Hhd Hp]. destruct l as [|[t2 a2] l].
  - simpl. split; [|auto]. apply (Hlast t1 a1). reflexivity.
  - change (((t1, a1) :: (t2, a2) :: l) ++ [(t, a)])
      with ((t1, a1) :: ((t2, a2) :: l) ++ [(t, a)]).
    split; [exact Hhd|]. apply IH; [exact Hp|].
    intros t' a' H. apply (Hlast t' a'). exact H.
Qed.

Lemma in_pace_init t0 : in_pace wait (Throttle.init (A:=A) t0).
Proof.
  split; [exact I|]. split.
  - intros t a H. discriminate.
  - intros i k H. discriminate.
Qed.

Lemma tstep_in_pace (w w' : World) p :
  0 <= wait -> tstep w w' -> view w p -> in_pace wait w -> in_pace wait w'.
Proof.
  intros Hw Hstep Hv (Hp & Hlast & Hdue). destruct Hstep as [w t _|w j|w a].
  - split; [exact Hp|]. split; assumption.
  - destruct (fire_cases rc j w) as [->|(k & Hk & Hd & ->)].
    { split; [exact Hp|]. split; assumption. }
    pose proof (due_sleeping _ _ Hd) as [Hs Hle].
    destruct Hv as [Hq|i d a Hsole Hsch Ha].
    { rewrite (quiet_lookup _ _ _ Hq Hk) in Hs. discriminate. }
    destruct (sole_sleeper_unique _ _ _ _ _ _ Hsole Hk Hs) as [-> ->].
    specialize (Hdue _ _ Hk Hs). simpl in Hdue, Hle.
    assert (Hq' : forall ok, quiet (<[i := mkTask d call_it (finish ok)]> (tasks w))).
    { intros ok. eapply sole_sleeper_insert; [exact Hsole | apply finish_not_sleeping]. }
    unfold Throttle.run_callback. simpl. rewrite Ha.
    destruct (fn (now w) a); simpl; (split; [|split]).
    + apply paced_snoc; [exact Hp|]. intros t' a' H. specialize (Hlast _ _ H). lia.
    + intros t' a' H. simpl in H. rewrite last_snoc in H. injection H as <- _. simpl. lia.
    + intros i' k' Hk' Hs'. simpl in Hk'.
      rewrite (quiet_lookup _ _ _ (Hq' true) Hk') in Hs'. discriminate.
    + apply paced_snoc; [exact Hp|]. intros t' a' H. specialize (Hlast _ _ H). lia.
    + intros t' a' H. simpl in H. rewrite last_snoc in H. injection H as <- _. simpl. lia.
    + intros i' k' Hk' Hs'. simpl in Hk'.
      rewrite (quiet_lookup _ _ _ (Hq' false) Hk') in Hs'. discriminate.
  - destruct (scheduled (cells w)) eqn:Hsch.
    + rewrite throttled_scheduled by assumption. split; [exact Hp|]. split; assumption.
    + rewrite throttled_unscheduled by assumption.
      split; [exact Hp|]. split; [exact Hlast|]. simpl.
      intros i k Hk Hs. destruct Hv as [Hq|i' d b Hsole Hsch' _]; [|congruence].
      destruct (decide (i < length (tasks w))%nat) as [Hlt|Hge].
      * rewrite lookup_app_l in Hk by assumption.
        rewrite (quiet_lookup _ _ _ Hq Hk) in Hs. discriminate.
      * rewrite lookup_app_r in Hk by lia.
        destruct (i - length (tasks w))%nat as [|n]; [|destruct n; discriminate].
        injection Hk as <-. simpl. unfold Throttle.new_wait. lia.
Qed.

Lemma tsteps_in_pace (w w' : World) :
  0 <= wait -> rtc tstep w w' -> (exists p, view w p) -> in_pace wait w -> in_pace wait w'.
Proof.
  intros Hw. induction 1 as [|w w1 w2 Hstep _ IH]; [auto|].
  intros [p Hv] Hin. apply IH.
  - eapply tstep_view; eassumption.
  - eapply tstep_in_pace; eassumption.
Qed.

(** X1.  Rate limit.  With [wait >= 0], in every state a throttled wrapper
    can reach, any two successive executions of [fn] are at least [wait]
    apart. *)
Theorem throttle_paced t0 (w : World) :
  0 <= wait -> rtc tstep (Throttle.init t0) w -> paced wait (calls w).
Proof.
  intros Hw Hreach.
  destruct (tsteps_in_pace _ _ Hw Hreach (ex_intro _ None (throttle_view_init t0))
              (in_pace_init t0)) as (Hp & _).
  exact Hp.
Qed.


(** *** The last call is served *)

Lemma armed_init t0 : armed (Throttle.init (A:=A) t0).
Proof. left. split; [reflexivity | constructor]. Qed.

Lemma tstep_armed (w w' : World) :
  never_raises fn -> tstep w w' -> armed w -> armed w'.
Proof.
  intros Hfn Hstep Ha. destruct Hstep as [w t _|w j|w a].
  - destruct Ha as [[Hsch Hq]|[d Hv]]; [left; split; assumption|].
    right. exists d. apply throttle_view_set_now, Hv.
  - destruct (fire_cases rc j w) as [->|(k & Hk & Hd & ->)]; [exact Ha|].
    pose proof (due_sleeping _ _ Hd) as [Hs _].
    destruct Ha as [[Hsch Hq]|[d Hv]].
    { rewrite (quiet_lookup _ _ _ Hq Hk) in Hs. discriminate. }
    inversion Hv as [|i d' a Hsole Hsch Hargs]; subst.
    destruct (sole_sleeper_unique _ _ _ _ _ _ Hsole Hk Hs) as [-> ->].
    left. unfold Throttle.run_callback. simpl. rewrite Hargs, Hfn. simpl.
    split; [reflexivity|].
    eapply sole_sleeper_insert; [exact Hsole | reflexivity].
  - right. destruct Ha as [[Hsch Hq]|[d Hv]].
    + rewrite throttled_unscheduled by assumption.
      eexists. eapply (view_pending _ _ _ a); [|reflexivity..].
      simpl. apply quiet_snoc, Hq.
    + inversion Hv as [|i d' b Hsole Hsch Hargs]; subst.
      rewrite throttled_scheduled by assumption.
      exists d. eapply (view_pending _ i d a); [exact Hsole | reflexivity..].
Qed.

Lemma tsteps_armed (w w' : World) :
  never_raises fn -> rtc tstep w w' -> armed w -> armed w'.
Proof. intros Hfn. induction 1; eauto using tstep_armed. Qed.

(** *** Deadlines of pending timers *)

Lemma tstep_prompt (w w' : World) :
  0 <= wait -> tstep w w' -> prompt wait w -> prompt wait w'.
Proof.
  intros Hw Hstep [Hpast Hdue]. destruct Hstep as [w t Ht|w j|w a].
  - split; simpl; [lia|]. intros i k Hk Hs. specialize (Hdue i k Hk Hs). lia.
  - destruct (fire_cases rc j w) as [->|(k & Hk & Hd & ->)]; [split; assumption|].
    destruct (rc (job k) (now w) (cells w)) as [[s' inv] ok] eqn:Hrc.
    assert (Hs' : time_of_last_call s' = now w).
    { unfold Throttle.run_callback in Hrc. destruct (job k).
      destruct (new_args (cells w)) as [a|]; [destruct (fn (now w) a)|];
        injection Hrc as <- _ _; reflexivity. }
    split; simpl; [lia|].
    intros i k' Hk' Hsl. destruct (decide (j = i)) as [->|Hne].
    + rewrite list_lookup_insert_eq in Hk' by (eapply lookup_lt_Some; eassumption).
      injection Hk' as <-. rewrite finish_not_sleeping in Hsl. discriminate.
    + rewrite list_lookup_insert_ne in Hk' by assumption. apply (Hdue i k' Hk' Hsl).
  - destruct (scheduled (cells w)) eqn:Hsch.
    + rewrite throttled_scheduled by assumption. split; assumption.
    + rewrite throttled_unscheduled by assumption. split; simpl; [exact Hpast|].
      intros i k Hk Hs. destruct (decide (i < length (tasks w))%nat) as [Hlt|Hge].
      * rewrite lookup_app_l in Hk by assumption. apply (Hdue i k Hk Hs).
      * rewrite lookup_app_r in Hk by lia.
        destruct (i - length (tasks w))%nat as [|n]; [|destruct n; discriminate].
        injection Hk as <-. simpl. unfold Throttle.new_wait. lia.
Qed.

Lemma tsteps_prompt (w w' : World) :
  0 <= wait -> rtc tstep w w' -> prompt wait w -> prompt wait w'.
Proof. intros Hw. induction 1; eauto using tstep_prompt. Qed.

(** X19.  Timers are not set further than [wait] ahead.  With [wait >= 0]
    and a clock that does not read less than 0, in every state a throttled
    wrapper can reach, every pending timer is due at most [wait] from
    now. *)
Theorem throttle_prompt t0 (w : World) i k :
  0 <= wait -> 0 <= t0 -> rtc tstep (Throttle.init t0) w ->
  tasks w !! i = Some k -> sleeping k = true ->
  wake_at k <= now w + wait.
Proof.
  intros Hw Ht0 Hreach Hk Hs.
  assert (Hinit : prompt wait (Throttle.init (A:=A) t0)).
  { split; [exact Ht0|]. intros j k' H. discriminate. }
  destruct (tsteps_prompt _ _ Hw Hreach Hinit) as [_ H]. exact (H i k Hk Hs).
Qed.

(** *** Where the arguments come from *)

Lemma from_calls_weaken (P Q : A -> Prop) (w : World) :
  (forall a, P a -> Q a) -> from_calls P w -> from_calls Q w.
Proof. intros H [H1 H2]. split; eauto. Qed.

Lemma set_now_from_calls (P : A -> Prop) t (w : World) :
  from_calls P w -> from_calls P (set_now t w).
Proof. intros H. exact H. Qed.

Lemma fire_from_calls (P : A -> Prop) j (w : World) :
  from_calls P w -> from_calls P (fire j w).
Proof.
  intros [Hargs Hcalls].
  destruct (fire_cases rc j w) as [->|(k & Hk & Hd & ->)]; [split; assumption|].
  unfold Throttle.run_callback. destruct (job k).
  destruct (new_args (cells w)) as [a|] eqn:Ha; [destruct (fn (now w) a)|]; simpl;
    (split; [intros b H; apply Hargs; simpl in H; congruence|]); intros t' b H;
    simpl in H.
  - apply elem_of_app in H as [H|H]; [eapply Hcalls, H|].
    apply list_elem_of_singleton in H. injection H as _ ->. apply Hargs. reflexivity.
  - apply elem_of_app in H as [H|H]; [eapply Hcalls, H|].
    apply list_elem_of_singleton in H. injection H as _ ->. apply Hargs. reflexivity.
  - rewrite app_nil_r in H. eapply Hcalls, H.
Qed.

Lemma run_until_from_calls (P : A -> Prop) t (w : World) :
  from_calls P w -> from_calls P (run_until t w).
Proof.
  intros H. unfold Loop.run_until. apply set_now_from_calls.
  generalize (length (tasks w)). intros fuel. revert w H.
  induction fuel as [|fuel IH]; intros w H; simpl; [exact H|].
  destruct (earliest 0 (tasks w) t) as [[j d]|]; [|exact H].
  apply IH, fire_from_calls, set_now_from_calls, H.
Qed.

Lemma throttled_from_calls (P : A -> Prop) b (w : World) :
  from_calls P w -> from_calls (fun a => P a \/ a = b) (throttled b w).
Proof.
  intros [Hargs Hcalls]. destruct (scheduled (cells w)) eqn:Hsch.
  - rewrite throttled_scheduled by assumption. split; simpl.
    + intros a [= <-]. right. reflexivity.
    + intros t a H. left. eapply Hcalls, H.
  - rewrite throttled_unscheduled by assumption. split; simpl.
    + intros a [= <-]. right. reflexivity.
    + intros t a H. left. eapply Hcalls, H.
Qed.

Lemma run_calls_from_calls tr : forall (P : A -> Prop) (w : World),
  from_calls P w -> from_calls (fun a => P a \/ a ∈ map snd tr) (run_calls tr w).
Proof.
  induction tr as [|[t b] tr IH]; intros P w H.
  - simpl. eapply from_calls_weaken; [|exact H]. auto.
  - cbn [Loop.run_calls].
    eapply from_calls_weaken;
      [|apply IH, throttled_from_calls, run_until_from_calls, H].
    simpl. intros a [[Ha| ->]|Ha]; [left; exact Ha | right; left | right; right; exact Ha].
Qed.

(** X20.  [fn] only runs on arguments the wrapper was called with: every
    execution in a run of a freshly decorated throttled wrapper is on the
    arguments of one of the calls. *)
Theorem throttle_runs_given_args t0 tr T t a :
  (t, a) ∈ calls (simulate tr T (Throttle.init t0)) -> a ∈ map snd tr.
Proof.
  intros Hin.
  assert (H0 : from_calls (fun _ : A => False) (Throttle.init t0)).
  { split; [intros b H; discriminate | intros t' b H; inversion H]. }
  pose proof (run_until_from_calls _ T _ (run_calls_from_calls tr _ _ H0)) as [_ H].
  destruct (H t a Hin) as [[]|Ha]. exact Ha.
Qed.

(** *** Calls made while [fn] runs *)

Variable inner : Z -> A -> list A.

Abbreviation resume := (Throttle.resume wait fn inner).
Abbreviation waits := (Throttle.waits wait fn inner).
Abbreviation rstep := (Throttle.rstep wait fn inner).

(** While [scheduled] is set, calls only overwrite the stored arguments. *)
Lemma inner_calls (l : list A) : forall w : World,
  scheduled (cells w) = true ->
  foldl (fun w' b => throttled b w') w l =
    set_cells (mkCells (time_of_last_call (cells w)) true
                       (match last l with Some b => Some b | None => new_args (cells w) end))
              w.
Proof.
  induction l as [|b l IH] using rev_ind; intros w Hs.
  - simpl. destruct w as [n ks [tl sc na] cl rn]. simpl in *. subst sc. reflexivity.
  - rewrite foldl_app, last_snoc. cbn [foldl]. rewrite (IH w Hs).
    rewrite throttled_scheduled by reflexivity. reflexivity.
Qed.

Lemma resume_idle i (w : World) : quiet (tasks w) -> resume i w = w.
Proof.
  intros Hq. unfold Throttle.resume. destruct (tasks w !! i) as [k|] eqn:Hk; [|reflexivity].
  pose proof (quiet_lookup _ _ _ Hq Hk) as Hs. unfold due. unfold sleeping in Hs.
  destruct (state k); (reflexivity || discriminate).
Qed.

Lemma resume_not_due i (w : World) :
  (forall k, tasks w !! i = Some k -> due (now w) k = false) -> resume i w = w.
Proof.
  intros H. unfold Throttle.resume. destruct (tasks w !! i) as [k|]; [|reflexivity].
  rewrite (H k eq_refl). reflexivity.
Qed.

(** With a function that makes no call, resuming is [Loop.fire] on the
    closure [call_it]. *)
Lemma resume_without_inner i (w : World) :
  (forall t a, inner t a = []) -> resume i w = fire i w.
Proof.
  intros Hin. unfold Throttle.resume, Loop.fire.
  destruct (tasks w !! i) as [k|]; [|reflexivity].
  destruct (due (now w) k); [|reflexivity].
  destruct (job k). unfold Throttle.run_callback.
  destruct (new_args (cells w)) as [a|] eqn:Ha;
    [|cbv zeta; rewrite app_nil_r; reflexivity].
  rewrite Hin. cbn [foldl]. destruct (fn (now w) a); reflexivity.
Qed.

(** The pending timer resumes: [fn] runs on the stored arguments; the
    arguments stored afterwards are those of the last call [fn] made, if
    it made one. *)
Lemma resume_pending i d a (w : World) :
  sole_sleeper (tasks w) i d call_it -> scheduled (cells w) = true ->
  new_args (cells w) = Some a -> d <= now w ->
  resume i w =
    mkWorld (now w)
            (<[i := mkTask d call_it (finish (fn (now w) a))]> (tasks w))
            (mkCells (now w)
                     (if fn (now w) a then false else true)
                     (match last (inner (now w) a) with Some b => Some b | None => Some a end))
            (calls w ++ [(now w, a)])
            (ran w ++ [i]).
Proof.
  intros [Hi _] Hs Ha Hd. unfold Throttle.resume. rewrite Hi.
  rewrite (due_intro (now w) (mkTask d call_it Sleeping)) by (simpl; auto).
  rewrite Ha, Hs. cbv zeta. rewrite inner_calls by reflexivity.
  cbn [cells set_cells tasks calls ran time_of_last_call new_args wake_at job].
  destruct (fn (now w) a); reflexivity.
Qed.

Lemma waits_armed (w w' : World) :
  never_raises fn -> waits w w' -> armed w -> armed w'.
Proof.
  intros Hfn Hstep Ha. destruct Hstep as [w t _|w j].
  - destruct Ha as [[Hsch Hq]|[d Hv]]; [left; split; assumption|].
    right. exists d. apply throttle_view_set_now, Hv.
  - destruct Ha as [[Hsch Hq]|[d Hv]].
    { rewrite (resume_idle j w Hq). left. split; assumption. }
    inversion Hv as [|i d' a Hsole Hsch Hargs]; subst.
    destruct (tasks w !! j) as [k|] eqn:Hk;
      [|rewrite resume_not_due by (intros k Hk'; congruence); right; eauto].
    destruct (due (now w) k) eqn:Hd;
      [|rewrite resume_not_due by (intros k' Hk'; congruence); right; eauto].
    pose proof (due_sleeping _ _ Hd) as [Hsl Hle].
    destruct (sole_sleeper_unique _ _ _ _ _ _ Hsole Hk Hsl) as [-> ->].
    rewrite (resume_pending i d a w Hsole Hsch Hargs Hle), Hfn.
    left. split; [reflexivity|]. cbn [tasks].
    eapply sole_sleeper_insert; [exact Hsole | reflexivity].
Qed.

Lemma rstep_armed (w w' : World) :
  never_raises fn -> rstep w w' -> armed w -> armed w'.
Proof.
  intros Hfn Hstep Ha. destruct Hstep as [w w' Hw|w a].
  - eapply waits_armed; eassumption.
  - right. destruct Ha as [[Hsch Hq]|[d Hv]].
    + rewrite throttled_unscheduled by assumption.
      eexists. eapply (view_pending _ _ _ a); [|reflexivity..].
      simpl. apply quiet_snoc, Hq.
    + inversion Hv as [|i d' b Hsole Hsch Hargs]; subst.
      rewrite throttled_scheduled by assumption.
      exists d. eapply (view_pending _ i d a); [exact Hsole | reflexivity..].
Qed.

Lemma rsteps_armed (w w' : World) :
  never_raises fn -> rtc rstep w w' -> armed w -> armed w'.
Proof. intros Hfn. induction 1; eauto using rstep_armed. Qed.

Lemma waits_quiet (w w' : World) :
  waits w w' -> quiet (tasks w) ->
  quiet (tasks w') /\ calls w' = calls w /\ cells w' = cells w.
Proof.
  intros Hstep Hq. destruct Hstep as [w t _|w j].
  - auto.
  - rewrite (resume_idle j w Hq). auto.
Qed.

Lemma waits_quiet_rtc (w w' : World) :
  rtc waits w w' -> quiet (tasks w) ->
  quiet (tasks w') /\ calls w' = calls w /\ cells w' = cells w.
Proof.
  induction 1 as [|w w1 w2 Hstep _ IH]; intros Hq; [auto|].
  destruct (waits_quiet _ _ Hstep Hq) as (Hq1 & Hc1 & Hs1).
  destruct (IH Hq1) as (Hq2 & Hc2 & Hs2). repeat split; congruence.
Qed.

(** X2.  A call from outside [fn] is served.  [fn] never raises, and may
    call the wrapper while it runs.  After a call made between callbacks,
    in any state the wrapper can reach, one timer is pending and the stored
    arguments are those of that call; when the loop resumes that timer, at
    its deadline or later, [fn] runs on these arguments. *)
Theorem throttle_serves_last_call t0 (w : World) a :
  never_raises fn -> rtc rstep (Throttle.init t0) w ->
  exists i d,
    sole_sleeper (tasks (throttled a w)) i d call_it /\
    view (throttled a w) (Some d) /\
    new_args (cells (throttled a w)) = Some a /\
    forall t, now w <= t -> d <= t ->
      calls (resume i (set_now t (throttled a w))) = calls w ++ [(t, a)].
Proof.
  intros Hfn Hreach.
  pose proof (rsteps_armed _ _ Hfn Hreach (armed_init t0)) as Ha.
  assert (H : exists i d, sole_sleeper (tasks (throttled a w)) i d call_it /\
                          scheduled (cells (throttled a w)) = true /\
                          new_args (cells (throttled a w)) = Some a /\
                          calls (throttled a w) = calls w).
  { destruct Ha as [[Hsch Hq]|[d Hv]].
    - rewrite throttled_unscheduled by assumption. simpl.
      eexists _, _. split; [apply quiet_snoc, Hq | auto].
    - inversion Hv as [|i d' b Hsole Hsch Hargs]; subst.
      rewrite throttled_scheduled by assumption. simpl.
      exists i, d. auto. }
  destruct H as (i & d & Hsole & Hsch & Hargs & Hcalls).
  exists i, d. split; [exact Hsole|].
  split; [eapply view_pending; eassumption|]. split; [exact Hargs|].
  intros t _ Ht.
  rewrite (resume_pending i d a (set_now t (throttled a w)) Hsole Hsch Hargs Ht).
  cbn [calls set_now now]. rewrite Hcalls. reflexivity.
Qed.

(** X23.  A call made by [fn] itself is stored and not served.  [fn] never
    raises.  When the pending timer of a reachable wrapper resumes and
    [fn], running on [a], calls the wrapper, the last time on [b]: [fn]
    has run on [a]; afterwards [b] is stored, [scheduled] is false and no
    timer is pending; however long the loop then runs, [fn] is not
    invoked again until the wrapper is called from outside. *)
Theorem throttle_inner_call_not_served t0 (w : World) i k a l b :
  never_raises fn -> rtc rstep (Throttle.init t0) w ->
  tasks w !! i = Some k -> due (now w) k = true ->
  new_args (cells w) = Some a -> inner (now w) a = l ++ [b] ->
  let w1 := resume i w in
  calls w1 = calls w ++ [(now w, a)] /\
  new_args (cells w1) = Some b /\ scheduled (cells w1) = false /\
  quiet (tasks w1) /\
  forall w2, rtc waits w1 w2 ->
    calls w2 = calls w1 /\ new_args (cells w2) = Some b /\ quiet (tasks w2).
Proof.
  intros Hfn Hreach Hk Hd Ha Hin w1.
  pose proof (rsteps_armed _ _ Hfn Hreach (armed_init t0)) as Harm.
  pose proof (due_sleeping _ _ Hd) as [Hsl Hle].
  destruct Harm as [[Hsch Hq]|[d Hv]].
  { rewrite (quiet_lookup _ _ _ Hq Hk) in Hsl. discriminate. }
  inversion Hv as [|j d' a' Hsole Hsch Hargs]; subst.
  destruct (sole_sleeper_unique _ _ _ _ _ _ Hsole Hk Hsl) as [-> ->].
  assert (a' = a) by congruence. subst a'.
  assert (Hw1 : w1 = mkWorld (now w)
            (<[j := mkTask d call_it Returned]> (tasks w))
            (mkCells (now w) false (Some b))
            (calls w ++ [(now w, a)]) (ran w ++ [j])).
  { subst w1. rewrite (resume_pending j d a w Hsole Hsch Hargs Hle).
    rewrite Hfn, Hin, last_snoc. reflexivity. }
  assert (Hq1 : quiet (tasks w1)).
  { rewrite Hw1. cbn [tasks].
    eapply sole_sleeper_insert; [exact Hsole | reflexivity]. }
  split; [rewrite Hw1; reflexivity|]. split; [rewrite Hw1; reflexivity|].
  split; [rewrite Hw1; reflexivity|]. split; [exact Hq1|].
  intros w2 Hw2. destruct (waits_quiet_rtc _ _ Hw2 Hq1) as (Hq2 & Hc2 & Hs2).
  split; [exact Hc2|]. split; [|exact Hq2]. rewrite Hs2, Hw1. reflexivity.
Qed.

End ThrottleFacts.

(** C4 (as the code has it).  Calls at 0, 10 and 300 with [wait = 100], on
    a clock that reads 0 at the first call, [fn] returning normally at 100:
    the first call schedules a fire at 100; that fire invokes [fn] on the
    arguments of the call at 10 and resets [scheduled]; the call at 300
    comes 200 after that execution, so its delay is [max 0 (100 - 200) = 0]
    and the new fire is scheduled at 300, where [fn] runs on the arguments
    of the call at 300. *)
Theorem throttle_leading_coalesce {A : Type} (fn : Z -> A -> bool) (a b c : A) (T : Z) :
  fn 100 b = true -> 300 <= T ->
  tasks (Throttle.throttled 100 a (Throttle.init 0)) = [mkTask 100 call_it Sleeping] /\
  (let w := Loop.run_until (Throttle.run_callback fn) 300
              (Loop.run_calls (Throttle.run_callback fn) (Throttle.throttled 100)
                 [(0, a); (10, b)] (Throttle.init 0)) in
   calls w = [(100, b)] /\ scheduled (cells w) = false) /\
  tasks (Loop.run_calls (Throttle.run_callback fn) (Throttle.throttled 100)
           [(0, a); (10, b); (300, c)] (Throttle.init 0))
    = [mkTask 100 call_it Returned; mkTask 300 call_it Sleeping] /\
  calls (Loop.simulate (Throttle.run_callback fn) (Throttle.throttled 100)
           [(0, a); (10, b); (300, c)] T (Throttle.init 0))
    = [(100, b); (300, c)].
Proof.
  intros Hfn HT.
  assert (H300 : Loop.run_calls (Throttle.run_callback fn) (Throttle.throttled 100)
                   [(0, a); (10, b); (300, c)] (Throttle.init 0)
                 = mkWorld 300 [mkTask 100 call_it Returned; mkTask 300 call_it Sleeping]
                     (mkCells 100 true (Some c)) [(100, b)] [0%nat]).
  { cbv. rewrite Hfn. reflexivity. }
  split; [reflexivity|]. split; [cbv; rewrite Hfn; split; reflexivity|].
  split; [rewrite H300; reflexivity|].
  unfold Loop.simulate. rewrite H300.
  erewrite (throttle_run_until_fires fn T _ 1 300 c);
    [reflexivity | apply (quiet_snoc [_]); repeat constructor; discriminate
    | reflexivity | exact HT].
Qed.

(** On a clock that reads 1000 at the first call, with [wait = 100], the
    delay is 0 and [fn] runs at 1000; on a clock that reads 0 it is 100. *)
Lemma throttle_first_call_witness :
  calls (Loop.simulate (Throttle.run_callback Examples.returns) (Throttle.throttled 100)
           [(1000, 7%nat)] 1000 (Throttle.init 1000)) = [(1000, 7%nat)] /\
  calls (Loop.simulate (Throttle.run_callback Examples.returns) (Throttle.throttled 100)
           [(0, 7%nat)] 100 (Throttle.init 0)) = [(100, 7%nat)].
Proof.
  destruct (throttle_first_call 100 Examples.returns 1000 7%nat 1000) as (_ & _ & H1 & _).
  destruct (throttle_first_call 100 Examples.returns 0 7%nat 100) as (_ & _ & H0 & _).
  split; [apply H1 | apply H0]; simpl; lia.
Defined.

(** The claim that the first delay is the full [wait] fails on a clock that
    does not read 0: at clock reading 1000 with [wait = 100] the computed
    delay is not 100, and [fn] does not run at 1100. *)
Lemma throttle_first_call_counterexample :
  time_of_last_call (cells (Throttle.init (A:=nat) 1000)) = 0 /\
  scheduled (cells (Throttle.init (A:=nat) 1000)) = false /\
  Throttle.new_wait 100 (now (Throttle.init (A:=nat) 1000) -
                         time_of_last_call (cells (Throttle.init (A:=nat) 1000))) <> 100 /\
  tasks (Throttle.throttled 100 7%nat (Throttle.init 1000))
    <> [mkTask (1000 + 100) call_it Sleeping] /\
  calls (Loop.simulate (Throttle.run_callback Examples.returns) (Throttle.throttled 100)
           [(1000, 7%nat)] 1100 (Throttle.init 1000)) <> [(1100, 7%nat)].
Proof.
  split; [reflexivity|]. split; [reflexivity|].
  split; [|split]; vm_compute; discriminate.
Qed.

(** A call while scheduled, a fire, and two calls before the fire. *)
Lemma throttle_coalesces_witness :
  let w1 := Throttle.throttled 100 1%nat (Throttle.init 0) in
  Throttle.throttled 100 2%nat w1 = set_cells (mkCells 0 true (Some 2%nat)) w1 /\
  calls (Loop.fire (Throttle.run_callback Examples.returns) 0
           (set_now 100 (Throttle.throttled 100 2%nat w1))) = [(100, 2%nat)] /\
  calls (Loop.run_until (Throttle.run_callback Examples.returns) 100
           (Throttle.throttled 100 2%nat w1)) = [(100, 2%nat)].
Proof.
  intros w1.
  destruct (throttle_coalesces 100 Examples.returns w1) as (Hcall & _ & _).
  destruct (throttle_coalesces 100 Examples.returns
              (set_now 100 (Throttle.throttled 100 2%nat w1))) as (_ & Hfire & _).
  destruct (throttle_coalesces 100 Examples.returns (Throttle.init 0)) as (_ & _ & Hlate).
  split; [apply Hcall; reflexivity|].
  split; [apply (Hfire 0%nat (mkTask 100 call_it Sleeping) 2%nat); reflexivity|].
  assert (Hle : now (Throttle.init (A:=nat) 0) +
                Throttle.new_wait 100 (now (Throttle.init (A:=nat) 0) -
                  time_of_last_call (cells (Throttle.init (A:=nat) 0))) <= 100)
    by (unfold Throttle.new_wait; simpl; lia).
  assert (Hq : quiet (tasks (Throttle.init (A:=nat) 0))) by constructor.
  destruct (Hlate 1%nat 2%nat 100 eq_refl Hq Hle) as (_ & _ & H).
  exact H.
Defined.

(** The trace of the example, run until 400. *)
Lemma throttle_leading_coalesce_witness :
  Examples.returns 100 2%nat = true /\ 300 <= 400 /\
  calls (Loop.simulate (Throttle.run_callback Examples.returns) (Throttle.throttled 100)
           [(0, 1%nat); (10, 2%nat); (300, 3%nat)] 400 (Throttle.init 0))
    = [(100, 2%nat); (300, 3%nat)].
Proof.
  assert (H1 : Examples.returns 100 2%nat = true) by reflexivity.
  assert (H2 : 300 <= 400) by lia.
  split; [exact H1|]. split; [exact H2|].
  destruct (throttle_leading_coalesce Examples.returns 1%nat 2%nat 3%nat 400 H1 H2)
    as (_ & _ & _ & H).
  exact H.
Defined.

(** The claim that the call at 300 schedules a fire at 400 fails: the new
    timer is due at 300, and the second execution of [fn] is not at 400. *)
Lemma throttle_leading_coalesce_counterexample :
  tasks (Loop.run_calls (Throttle.run_callback Examples.returns) (Throttle.throttled 100)
           [(0, 1%nat); (10, 2%nat); (300, 3%nat)] (Throttle.init 0))
    <> [mkTask 100 call_it Returned; mkTask 400 call_it Sleeping] /\
  calls (Loop.simulate (Throttle.run_callback Examples.returns) (Throttle.throttled 100)
           [(0, 1%nat); (10, 2%nat); (300, 3%nat)] 400 (Throttle.init 0))
    <> [(100, 2%nat); (400, 3%nat)].
Proof. split; vm_compute; discriminate. Qed.

(** After one call at clock reading 0 with [wait = 100]. *)
Lemma throttle_never_cancels_witness :
  let w := Throttle.throttled 100 1%nat (Throttle.init 0) in
  rtc (Throttle.tstep 100 Examples.returns) (Throttle.init 0) w /\
  uncancelled w /\
  exists k', tasks (Loop.run_until (Throttle.run_callback Examples.returns) 100 w) !! 0%nat
             = Some k' /\ fired k' = true.
Proof.
  intros w.
  assert (H : rtc (Throttle.tstep 100 Examples.returns) (Throttle.init 0) w)
    by (apply rtc_once, step_call).
  destruct (throttle_never_cancels 100 Examples.returns 0 w H) as (Hu & _ & Hfires).
  split; [exact H|]. split; [exact Hu|].
  apply (Hfires 0%nat (mkTask 100 call_it Sleeping) 100); [reflexivity | simpl; lia].
Defined.

(** One call at 0 with [wait = 100], the clock moved to 100, [fn] raising:
    a later call only stores its arguments. *)
Lemma throttle_wedges_witness :
  let w := set_now 100 (Throttle.throttled 100 1%nat (Throttle.init 0)) in
  let w1 := Loop.fire (Throttle.run_callback Examples.raises) 0 w in
  rtc (Throttle.tstep 100 Examples.raises) (Throttle.init 0) w /\
  due (now w) (mkTask 100 call_it Sleeping) = true /\
  scheduled (cells w1) = true /\
  calls (Throttle.throttled 100 2%nat (set_now 500 w1)) = calls w1.
Proof.
  intros w w1.
  assert (H : rtc (Throttle.tstep 100 Examples.raises) (Throttle.init 0) w).
  { eapply rtc_l; [apply (step_call _ _ (Throttle.init 0) 1%nat)|].
    apply rtc_once, step_tick. simpl. lia. }
  destruct (throttle_wedges 100 Examples.raises 0 w 0 (mkTask 100 call_it Sleeping)
              H eq_refl eq_refl (fun a _ => eq_refl)) as (Hsch & Hafter).
  split; [exact H|]. split; [reflexivity|]. split; [exact Hsch|].
  destruct (Hafter (Throttle.throttled 100 2%nat (set_now 500 w1))) as (_ & Hc & _).
  - eapply rtc_l; [apply (step_tick _ _ w1 500); simpl; lia|].
    apply rtc_once, step_call.
  - exact Hc.
Defined.

(** Two executions, at 100 and at 200, with [wait = 100]. *)
Lemma throttle_paced_witness :
  let rc := Throttle.run_callback Examples.returns in
  let w := Loop.fire rc 1 (set_now 200 (Throttle.throttled 100 2%nat
             (Loop.fire rc 0 (set_now 100 (Throttle.throttled 100 1%nat (Throttle.init 0)))))) in
  calls w = [(100, 1%nat); (200, 2%nat)] /\ paced 100 (calls w).
Proof.
  intros rc w. split; [reflexivity|].
  apply (throttle_paced 100 Examples.returns 0 w); [lia|].
  eapply rtc_l; [apply (step_call _ _ (Throttle.init 0) 1%nat)|].
  eapply rtc_l; [apply (step_tick _ _ _ 100); simpl; lia|].
  eapply rtc_l; [apply (step_fire _ _ _ 0%nat)|].
  eapply rtc_l; [apply (step_call _ _ _ 2%nat)|].
  eapply rtc_l; [apply (step_tick _ _ _ 200); simpl; lia|].
  apply rtc_once, (step_fire _ _ _ 1%nat).
Defined.

(** A first call on a fresh wrapper at clock reading 0, [wait = 100], of a
    function that calls the wrapper back on the successor of its
    argument. *)
Lemma throttle_serves_last_call_witness :
  never_raises Examples.returns /\
  exists i d,
    sole_sleeper (tasks (Throttle.throttled 100 1%nat (Throttle.init 0))) i d call_it /\
    view (Throttle.throttled 100 1%nat (Throttle.init 0)) (Some d) /\
    new_args (cells (Throttle.throttled 100 1%nat (Throttle.init 0))) = Some 1%nat /\
    forall t, now (Throttle.init (A:=nat) 0) <= t -> d <= t ->
      calls (Throttle.resume 100 Examples.returns (fun _ a => [S a]) i
               (set_now t (Throttle.throttled 100 1%nat (Throttle.init 0))))
      = calls (Throttle.init (A:=nat) 0) ++ [(t, 1%nat)].
Proof.
  assert (H : never_raises Examples.returns) by (intros t a; reflexivity).
  split; [exact H|].
  apply (throttle_serves_last_call 100 Examples.returns (fun _ a => [S a]) 0
           (Throttle.init 0) 1%nat H).
  apply rtc_refl.
Defined.

(** The same function, its timer resumed at 100: it runs on 1 and calls the
    wrapper on 2, which is stored and left unserved. *)
Lemma throttle_inner_call_not_served_witness :
  let inner := fun (_ : Z) (a : nat) => [S a] in
  let w := set_now 100 (Throttle.throttled 100 1%nat (Throttle.init 0)) in
  let w1 := Throttle.resume 100 Examples.returns inner 0 w in
  calls w1 = [(100, 1%nat)] /\
  new_args (cells w1) = Some 2%nat /\ scheduled (cells w1) = false /\
  quiet (tasks w1) /\
  forall w2, rtc (Throttle.waits 100 Examples.returns inner) w1 w2 ->
    calls w2 = calls w1 /\ new_args (cells w2) = Some 2%nat /\ quiet (tasks w2).
Proof.
  intros inner w w1.
  apply (throttle_inner_call_not_served 100 Examples.returns inner 0 w 0%nat
           (mkTask 100 call_it Sleeping) 1%nat [] 2%nat).
  - intros t a. reflexivity.
  - eapply rtc_l; [apply rstep_call|].
    apply rtc_once, rstep_waits, waits_tick. simpl. lia.
  - reflexivity.
  - reflexivity.
  - reflexivity.
  - reflexivity.
Defined.

(** The timer of a first call at clock reading 0 with [wait = 100]. *)
Lemma throttle_prompt_witness :
  wake_at (mkTask 100 (@call_it) Sleeping)
    <= now (Throttle.throttled 100 1%nat (Throttle.init 0)) + 100.
Proof.
  apply (throttle_prompt 100 Examples.returns 0
           (Throttle.throttled 100 1%nat (Throttle.init 0)) 0%nat).
  - lia.
  - lia.
  - apply rtc_once, step_call.
  - reflexivity.
  - reflexivity.
Defined.

(** Calls at 0 and 10 with [wait = 100]: the execution at 100 is on the
    arguments of the second call. *)
Lemma throttle_runs_given_args_witness :
  (100, 2%nat) ∈ calls (Loop.simulate (Throttle.run_callback Examples.returns)
                          (Throttle.throttled 100) [(0, 1%nat); (10, 2%nat)] 100
                          (Throttle.init 0)) /\
  2%nat ∈ map snd [(0, 1%nat); (10, 2%nat)].
Proof.
  assert (H : (100, 2%nat) ∈ calls (Loop.simulate (Throttle.run_callback Examples.returns)
                          (Throttle.throttled 100) [(0, 1%nat); (10, 2%nat)] 100
                          (Throttle.init 0))).
  { change ((100, 2%nat) ∈ [(100, 2%nat)]). left. }
  split; [exact H|].
  apply (throttle_runs_given_args 100 Examples.returns 0 _ 100 100 2%nat H).
Defined.

End ThrottleFacts.

(** ** File names of the notebooks *)

Module NotebookFacts.
Import String Ascii Notebook.
Local Open Scope string_scope.

(** The name [get_tif_name] builds for a given hour and minute. *)
Abbreviation name_at h m :=
  ("3B-HHR-GIS.MS.MRG.3IMERG.20170101-S" ++ zfill 2 (str h) ++ zfill 2 (str m)
     ++ "00-E" ++ zfill 2 (str h) ++ zfill 2 (str (m + 29)) ++ "59."
     ++ zfill 4 (str (h * 60 + m)) ++ ".V06B.tif").

Lemma forallb_below (P : nat -> bool) n :
  forallb P (seq 0 n) = true -> forall i, (i < n)%nat -> P i = true.
Proof.
  intros H i Hi. rewrite forallb_forall in H. apply H, in_seq. lia.
Qed.

Lemma each_time (P : nat -> nat -> bool) :
  forallb (fun h => forallb (P h) (seq 0 60)) (seq 0 24) = true ->
  forall d, P (hour d) (minute d) = true.
Proof.
  intros H d.
  apply (forallb_below (P (hour d)) 60).
  - apply (forallb_below (fun h => forallb (P h) (seq 0 60)) 24 H).
    unfold hour. pose proof (Z.mod_pos_bound (d / 60) 24). lia.
  - unfold minute. pose proof (Z.mod_pos_bound d 60). lia.
Qed.

(** X5.  Every name [get_tif_name] builds, for any date, is 63 characters
    long and passes the filter of the download cell: it starts with
    ["3B-HHR-GIS.MS.MRG.3IMERG."] and ends with [".V06B.tif"]. *)
Theorem get_tif_name_wanted (d : datetime) :
  wanted (get_tif_name d) = true /\ String.length (get_tif_name d) = 63%nat.
Proof.
  pose proof (each_time
    (fun h m => (wanted (name_at h m) && (String.length (name_at h m) =? 63)%nat)%bool))
    as H.
  specialize (H ltac:(vm_compute; reflexivity) d).
  apply andb_prop in H as [Hw Hl]. apply Nat.eqb_eq in Hl.
  split; assumption.
Qed.

(** Reading back the minutes of the day a name carries. *)
Lemma minutes_in_name (d : datetime) :
  option_map Nat.of_uint
    (DecimalString.NilEmpty.uint_of_string (substring 50 4 (get_tif_name d)))
  = Some (hour d * 60 + minute d)%nat.
Proof.
  pose proof (each_time
    (fun h m =>
       match option_map Nat.of_uint
               (DecimalString.NilEmpty.uint_of_string (substring 50 4 (name_at h m))) with
       | Some n => (n =? h * 60 + m)%nat
       | None => false
       end)) as H.
  specialize (H ltac:(vm_compute; reflexivity) d). cbv beta in H.
  change (name_at (hour d) (minute d)) with (get_tif_name d) in H.
  destruct (option_map _ _) as [n|]; [|discriminate].
  apply Nat.eqb_eq in H. congruence.
Qed.

Lemma time_of_day (d : datetime) :
  (d mod 1440 = 60 * Z.of_nat (hour d) + Z.of_nat (minute d))%Z.
Proof.
  unfold hour, minute.
  pose proof (Z.mod_pos_bound (d / 60) 24). pose proof (Z.mod_pos_bound d 60).
  rewrite !Z2Nat.id by lia.
  change 1440%Z with (60 * 24)%Z. rewrite Z.rem_mul_r by lia. lia.
Qed.

(** X6.  Two dates get the same name exactly when they have the same time
    of day: the day itself does not go into the name. *)
Theorem get_tif_name_same_iff (d1 d2 : datetime) :
  get_tif_name d1 = get_tif_name d2 <-> (d1 mod 1440 = d2 mod 1440)%Z.
Proof.
  split.
  - intros Heq. pose proof (minutes_in_name d1) as H1.
    rewrite Heq, minutes_in_name in H1. injection H1 as H1.
    assert (Hm1 : (minute d1 < 60)%nat)
      by (unfold minute; pose proof (Z.mod_pos_bound d1 60); lia).
    assert (Hm2 : (minute d2 < 60)%nat)
      by (unfold minute; pose proof (Z.mod_pos_bound d2 60); lia).
    rewrite !time_of_day. lia.
  - intros Heq.
    assert (Hh : hour d1 = hour d2 /\ minute d1 = minute d2).
    { pose proof (time_of_day d1) as H1. pose proof (time_of_day d2) as H2.
      assert (Hm1 : (minute d1 < 60)%nat)
        by (unfold minute; pose proof (Z.mod_pos_bound d1 60); lia).
      assert (Hm2 : (minute d2 < 60)%nat)
        by (unfold minute; pose proof (Z.mod_pos_bound d2 60); lia).
      lia. }
    destruct Hh as [Hh Hm]. unfold get_tif_name. rewrite Hh, Hm. reflexivity.
Qed.

Lemma length_append (s1 s2 : string) :
  String.length (s1 ++ s2) = (String.length s1 + String.length s2)%nat.
Proof. induction s1 as [|c s1 IH]; simpl; [reflexivity | rewrite IH; reflexivity]. Qed.

Lemma substring_whole (s1 s2 : string) : substring 0 (String.length s1) (s1 ++ s2) = s1.
Proof.
  induction s1 as [|c s1 IH]; simpl.
  - destruct s2; reflexivity.
  - rewrite IH. reflexivity.
Qed.

Lemma substring_nothing (s : string) : substring 0 0 s = "".
Proof. destruct s; reflexivity. Qed.

(** X7.  [png_name] swaps a three-letter extension for ["png"]: a name
    [stem ++ "tif"] becomes [stem ++ "png"].  A name shorter than three
    characters becomes ["png"]. *)
Theorem png_name_extension (stem s : string) :
  png_name (stem ++ "tif") = stem ++ "png" /\
  ((String.length s < 3)%nat -> png_name s = "png").
Proof.
  split.
  - unfold png_name, drop_last. rewrite length_append. simpl String.length.
    replace (String.length stem + 3 - 3)%nat with (String.length stem) by lia.
    rewrite substring_whole. reflexivity.
  - intros Hlen. unfold png_name, drop_last.
    replace (String.length s - 3)%nat with 0%nat by lia.
    rewrite substring_nothing. reflexivity.
Qed.

(** *** The slider in snapshot mode *)

(** X8.  In snapshot mode the slider is snapped to one half-hour slot.  For
    a change whose new value is an ordered pair of half-hour marks between
    [start_date] and [end_date], the value [show_snapshot] assigns is a
    pair of half-hour marks exactly 30 minutes apart, between [start_date]
    and [end_date]. *)
Theorem snapped_one_slot (c : Change) :
  (start_date <= fst (new c) <= snd (new c))%Z -> (snd (new c) <= end_date)%Z ->
  (30 | fst (new c))%Z -> (30 | snd (new c))%Z ->
  (snd (snapped c) = fst (snapped c) + 30)%Z /\
  (start_date <= fst (snapped c))%Z /\ (snd (snapped c) <= end_date)%Z /\
  (30 | fst (snapped c))%Z.
Proof.
  unfold snapped, start_date, end_date. intros Hord Hend [k Hk] [k' Hk'].
  destruct (Z.eqb_spec (fst (new c)) 1440); simpl.
  { repeat split; try lia. exists 47%Z. reflexivity. }
  destruct (Z.eqb_spec (snd (new c)) 0); simpl.
  { repeat split; try lia. exists 0%Z. reflexivity. }
  destruct (Z.eqb_spec (fst (new c)) (fst (old c))); simpl.
  - repeat split; try lia. exists (k' - 1)%Z. lia.
  - repeat split; try lia. exists k. lia.
Qed.

(** X9.  Snapping is stable.  When the value [show_snapshot] assigned comes
    back as the new value of a later change, whatever its old value, the
    value assigned then is the same. *)
Theorem snapped_stable (c c' : Change) :
  (start_date <= fst (new c) <= snd (new c))%Z -> (snd (new c) <= end_date)%Z ->
  (30 | fst (new c))%Z -> (30 | snd (new c))%Z ->
  new c' = snapped c -> snapped c' = snapped c.
Proof.
  intros Hord Hend H1 H2 Hnew.
  destruct (snapped_one_slot c Hord Hend H1 H2) as (Hw & Hlo & Hhi & _).
  unfold snapped at 1. rewrite Hnew.
  destruct (snapped c) as [a b]. simpl in *. unfold start_date, end_date in *.
  destruct (Z.eqb_spec a 1440); [lia|].
  destruct (Z.eqb_spec b 0); [lia|].
  destruct (Z.eqb_spec a (fst (old c'))); simpl; f_equal; lia.
Qed.

(** *** The overlay *)

Section GuiFacts.
Variable encoded : string -> option string.

Lemma same_name_spec (o : option string) (s : string) :
  same_name o s = true <-> o = Some s.
Proof.
  destruct o as [s'|]; simpl; [|split; discriminate].
  rewrite String.eqb_eq. split; congruence.
Qed.

Lemma show_snapshot_consistent (c : Change) (g : Gui) :
  consistent encoded g -> consistent encoded (fst (show_snapshot encoded c g)).
Proof.
  intros Hc. unfold show_snapshot, display_png.
  destruct (selectable (snapped c)); [|exact Hc].
  cbn [value snapshot_fname io overlays layers].
  set (f := png_name (get_tif_name (fst (snapped c)))).
  destruct (same_name (snapshot_fname g) f) eqn:Hsame; cbn [negb fst]; [exact Hc|].
  destruct (encoded ("png/" ++ f)) as [data|] eqn:Henc; [|exact Hc].
  unfold consistent in Hc. destruct (snapshot_fname g) as [f0|].
  - destruct Hc as (data0 & _ & Hio & Hov & Hl). rewrite Hio.
    unfold consistent. cbn [fst snapshot_fname io overlays layers value].
    exists data. rewrite Hov, Hl. auto.
  - destruct Hc as (Hio & Hov & Hl). rewrite Hio.
    unfold consistent. cbn [fst snapshot_fname io overlays layers value].
    exists data. rewrite Hov, Hl. auto.
Qed.

(** X10.  One overlay, in step with [snapshot_fname].  After any sequence
    of slider changes handled by [show_snapshot], starting from the initial
    globals: either nothing was displayed and the map has no overlay, or
    the map has exactly one overlay, the one [io] refers to, and its url is
    the image of the file named by [snapshot_fname]. *)
Theorem show_snapshots_consistent (changes : list Change) (v : datetime * datetime) :
  consistent encoded (show_snapshots encoded changes (gui0 v)).
Proof.
  assert (H : forall g, consistent encoded g ->
                        consistent encoded (show_snapshots encoded changes g)).
  { induction changes as [|c changes IH]; intros g Hg; [exact Hg|].
    cbn [show_snapshots]. apply IH, show_snapshot_consistent, Hg. }
  apply H. unfold consistent, gui0. cbn [snapshot_fname io overlays layers]. auto.
Qed.

Lemma snapped_selectable (c : Change) :
  (start_date <= fst (new c) <= snd (new c))%Z -> (snd (new c) <= end_date)%Z ->
  (30 | fst (new c))%Z -> (30 | snd (new c))%Z ->
  selectable (snapped c) = true.
Proof.
  unfold selectable, is_option, snapped, start_date, end_date.
  intros Hord Hend [k Hk] [k' Hk'].
  destruct (Z.eqb_spec (fst (new c)) 1440); [reflexivity|].
  destruct (Z.eqb_spec (snd (new c)) 0); [reflexivity|].
  assert (Hm : forall x q, (x = q * 30 -> (x - 0) mod 30 = 0)%Z).
  { intros x q ->. rewrite Z.sub_0_r. apply Z.mod_mul. lia. }
  assert (Hb : forall x q, (0 <= x <= 1440 -> x = q * 30 ->
                ((0 <=? x) && (x <=? 1440) && ((x - 0) mod 30 =? 0))%bool = true)%Z).
  { intros x q Hx Hq. rewrite (Hm x q Hq).
    destruct (Z.leb_spec 0 x), (Z.leb_spec x 1440); (reflexivity || lia). }
  destruct (Z.eqb_spec (fst (new c)) (fst (old c))); cbn [negb fst snd].
  - rewrite (Hb (snd (new c) - 30)%Z (k' - 1)%Z), (Hb (snd (new c)) k') by lia.
    reflexivity.
  - rewrite (Hb (fst (new c)) k), (Hb (fst (new c) + 30)%Z (k + 1)%Z) by lia.
    reflexivity.
Qed.

(** X11.  Outcome of one call of [show_snapshot].  When the snapped value
    is not among the options of the slider the assignment raises and
    nothing changes.  Otherwise the slider holds the snapped value
    afterwards; when the call returns, [snapshot_fname] names the png of
    the slot on the left of the slider; when it raises, [snapshot_fname]
    and the overlay are as before.  For a change whose new value is an
    ordered pair of options, as the slider reports them, the snapped value
    is among the options. *)
Theorem show_snapshot_result (c : Change) (g : Gui) :
  let r := show_snapshot encoded c g in
  (selectable (snapped c) = false -> r = (g, false)) /\
  (selectable (snapped c) = true -> value (fst r) = snapped c) /\
  (snd r = true ->
     value (fst r) = snapped c /\
     snapshot_fname (fst r) = Some (png_name (get_tif_name (fst (snapped c))))) /\
  (snd r = false ->
     snapshot_fname (fst r) = snapshot_fname g /\ io (fst r) = io g /\
     overlays (fst r) = overlays g /\ layers (fst r) = layers g) /\
  ((start_date <= fst (new c) <= snd (new c))%Z -> (snd (new c) <= end_date)%Z ->
   (30 | fst (new c))%Z -> (30 | snd (new c))%Z ->
   value (fst r) = snapped c).
Proof.
  assert (H : let r := show_snapshot encoded c g in
     (selectable (snapped c) = false -> r = (g, false)) /\
     (selectable (snapped c) = true -> value (fst r) = snapped c) /\
     (snd r = true ->
        value (fst r) = snapped c /\
        snapshot_fname (fst r) = Some (png_name (get_tif_name (fst (snapped c))))) /\
     (snd r = false ->
        snapshot_fname (fst r) = snapshot_fname g /\ io (fst r) = io g /\
        overlays (fst r) = overlays g /\ layers (fst r) = layers g)).
  { unfold show_snapshot, display_png.
    destruct (selectable (snapped c)).
    - cbn [value snapshot_fname io overlays layers].
      set (f := png_name (get_tif_name (fst (snapped c)))).
      destruct (same_name (snapshot_fname g) f) eqn:Hsame; cbn [negb].
      + apply same_name_spec in Hsame. cbn [fst snd value snapshot_fname].
        split; [discriminate|]. split; [reflexivity|]. split; [auto | discriminate].
      + destruct (encoded ("png/" ++ f)) as [data|].
        * destruct (io g); cbn [fst snd value snapshot_fname];
            (split; [discriminate|]); (split; [reflexivity|]);
            (split; [auto | discriminate]).
        * cbn [fst snd value snapshot_fname io overlays layers].
          split; [discriminate|]. split; [reflexivity|]. split; [discriminate | auto].
    - cbn [fst snd]. split; [reflexivity|]. split; [discriminate|].
      split; [discriminate | auto]. }
  cbv zeta in *. destruct H as (H1 & H2 & H3 & H4).
  split; [exact H1|]. split; [exact H2|]. split; [exact H3|]. split; [exact H4|].
  intros Hord Hend Hl Hr. apply H2, snapped_selectable; assumption.
Qed.

End GuiFacts.

(** *** The mean over a range *)

Section MeanFacts.
Context {R V : Type}.
Variable load : string -> option R.
Variable radd : R -> R -> R.
Variable rdiv : R -> nat -> R.
Variable nanmax : R -> V.
Variable vmax : V -> V -> V.
Variable v0 : V.
Variable vscale : V -> nat -> V.

Abbreviation mean_loop := (Notebook.mean_loop load radd nanmax vmax).
Abbreviation show_mean := (Notebook.show_mean load radd rdiv nanmax vmax v0 vscale).
Abbreviation opened ds := (mapM (fun d => load ("tif/" ++ get_tif_name d)) ds).
Abbreviation accumulate :=
  (fun (mean_data : option R) (data : R) =>
     match mean_data with
     | None => Some data
     | Some m => Some (radd m data)
     end).
Abbreviation highest := (fun (mean_vmax : V) (data : R) => vmax mean_vmax (nanmax data)).

Lemma slots_nil (lower upper : datetime) : (upper <= lower)%Z -> slots lower upper = [].
Proof.
  intros H. unfold slots.
  replace (Z.to_nat ((upper - lower + 29) / 30)) with 0%nat; [reflexivity|].
  assert ((upper - lower + 29) / 30 <= 0)%Z; [|lia].
  Z.div_mod_to_equations. lia.
Qed.

Lemma slots_cons (lower upper : datetime) :
  (lower < upper)%Z -> slots lower upper = lower :: slots (lower + 30) upper.
Proof.
  intros H. unfold slots.
  replace ((upper - lower + 29) / 30)%Z with ((upper - (lower + 30) + 29) / 30 + 1)%Z.
  - assert (0 <= (upper - (lower + 30) + 29) / 30)%Z by (apply Z.div_pos; lia).
    rewrite Z2Nat.inj_add by lia. rewrite Nat.add_comm. simpl.
    f_equal; [lia|]. rewrite <- seq_shift, map_map.
    apply map_ext. intros i. lia.
  - rewrite <- Z.div_add by lia. f_equal. lia.
Qed.

Lemma slots_length_le (lower upper : datetime) :
  (List.length (slots lower upper) <= Z.to_nat (upper - lower))%nat.
Proof.
  unfold slots. rewrite length_map, length_seq.
  destruct (Z_lt_le_dec lower upper) as [Hlt|Hge].
  - apply Z2Nat.inj_le; [apply Z.div_pos; lia | lia |].
    Z.div_mod_to_equations. lia.
  - replace (Z.to_nat ((upper - lower + 29) / 30)) with 0%nat; [lia|].
    assert ((upper - lower + 29) / 30 <= 0)%Z; [|lia].
    Z.div_mod_to_equations. lia.
Qed.

(** The fuel is enough, and the loop visits the slots in order. *)
Lemma mean_loop_slots (upper : datetime) : forall fuel date mean_data mean_vmax nb,
  (List.length (slots date upper) <= fuel)%nat ->
  mean_loop fuel upper mean_data mean_vmax nb date =
    match opened (slots date upper) with
    | None => Some None
    | Some xs =>
        Some (Some (fold_left accumulate xs mean_data,
                    fold_left highest xs mean_vmax,
                    (nb + List.length xs)%nat))
    end.
Proof.
  induction fuel as [|fuel IH]; intros date md mv nb Hfuel.
  - destruct (Z.ltb_spec date upper) as [Hlt|Hge].
    + rewrite slots_cons in Hfuel by assumption. simpl in Hfuel. lia.
    + rewrite slots_nil by assumption. simpl.
      destruct (Z.ltb_spec date upper); [lia|]. rewrite Nat.add_0_r. reflexivity.
  - cbn [Notebook.mean_loop]. destruct (Z.ltb_spec date upper) as [Hlt|Hge].
    + rewrite slots_cons in * by assumption. simpl in Hfuel.
      cbn [mapM]. destruct (load ("tif/" ++ get_tif_name date)) as [data|]; [|reflexivity].
      rewrite IH by lia. cbn [mbind option_bind].
      destruct (opened (slots (date + 30) upper)) as [xs|]; [|reflexivity].
      simpl. rewrite Nat.add_succ_r. reflexivity.
    + rewrite slots_nil by assumption. simpl. rewrite Nat.add_0_r. reflexivity.
Qed.

Lemma fold_accumulate (xs : list R) (x : R) :
  fold_left accumulate xs (Some x) = Some (fold_left radd xs x).
Proof. revert x. induction xs as [|y xs IH]; intros x; simpl; [reflexivity | apply IH]. Qed.

(** X12.  What [show_mean] computes.  The loop ends; it opens the files of
    the half-hour slots from the left of the range up to, not including,
    the right, in order.  When one cannot be opened the call raises; when
    the range has no slot it raises a [TypeError]; otherwise the result is
    the sum of the bands divided by their number, with the scaled maximum. *)
Theorem show_mean_slots (lower upper : datetime) :
  show_mean (lower, upper) =
    match opened (slots lower upper) with
    | None => OpenFailed
    | Some [] => TypeError
    | Some (x :: xs) =>
        Mean (rdiv (fold_left radd xs x) (S (List.length xs)))
             (vscale (fold_left highest (x :: xs) v0) (S (List.length xs)))
             (S (List.length xs))
    end.
Proof.
  unfold Notebook.show_mean. cbn [fst snd].
  rewrite mean_loop_slots by apply slots_length_le.
  destruct (opened (slots lower upper)) as [[|x xs]|]; [reflexivity| |reflexivity].
  cbn [fold_left]. rewrite fold_accumulate. reflexivity.
Qed.

(** X13.  An empty range.  When the right end of the range is not after
    the left end, [show_mean] opens no file and raises a [TypeError]:
    [mean_data] is still [None] when it is divided. *)
Theorem show_mean_empty_range (lower upper : datetime) :
  (upper <= lower)%Z -> show_mean (lower, upper) = TypeError.
Proof.
  intros H. rewrite show_mean_slots, slots_nil by assumption. reflexivity.
Qed.

End MeanFacts.

(** *** The download loop *)

Lemma exists_in_spec (dir : list string) (filename : string) :
  exists_in dir filename = true <-> filename ∈ dir.
Proof.
  unfold exists_in. rewrite existsb_exists, list_elem_of_In. split.
  - intros (x & Hx & Heq). apply String.eqb_eq in Heq. congruence.
  - intros H. exists filename. split; [exact H | apply String.eqb_refl].
Qed.

Lemma download_new (l : list string) : forall tif fetched,
  exists new,
    download l tif fetched = ((tif ++ new)%list, (fetched ++ new)%list) /\
    NoDup new /\
    forall f, f ∈ new <-> f ∈ l /\ f ∉ tif.
Proof.
  induction l as [|f0 rest IH]; intros tif fetched.
  - exists []. rewrite !app_nil_r. split; [reflexivity|]. split; [constructor|].
    intros f. split; [intros H; inversion H | intros [H _]; inversion H].
  - cbn [download]. destruct (exists_in tif f0) eqn:Hex.
    + apply exists_in_spec in Hex. destruct (IH tif fetched) as (new & -> & Hnd & Hin).
      exists new. split; [reflexivity|]. split; [exact Hnd|].
      intros f. rewrite Hin, elem_of_cons. split; [tauto|].
      intros [[->|H] Hn]; [contradiction | tauto].
    + assert (Hnot : f0 ∉ tif).
      { intros H. apply exists_in_spec in H. congruence. }
      destruct (IH (tif ++ [f0])%list (fetched ++ [f0])%list) as (new & -> & Hnd & Hin).
      exists (f0 :: new). rewrite <- !app_assoc. split; [reflexivity|].
      split.
      * apply NoDup_cons. split; [|exact Hnd].
        intros H. apply Hin in H as [_ H]. apply H, elem_of_app. right. left.
      * intros f. rewrite !elem_of_cons, Hin, elem_of_app, list_elem_of_singleton.
        destruct (String.string_dec f f0) as [->|Hne]; [tauto|]. tauto.
Qed.

(** X14.  The download cell fetches each missing file once.  From the FTP
    listing [nlst] and the directory [tif], the files fetched are exactly
    the names of the listing that pass the filter and are not in the
    directory, each fetched once; the directory afterwards is the old one
    followed by the files fetched. *)
Theorem download_missing_once (nlst tif : list string) :
  let r := download (lst nlst) tif [] in
  fst r = (tif ++ snd r)%list /\
  NoDup (snd r) /\
  forall f, f ∈ snd r <-> (f ∈ nlst /\ wanted f = true) /\ f ∉ tif.
Proof.
  destruct (download_new (lst nlst) tif []) as (new & Heq & Hnd & Hin).
  cbv zeta. rewrite Heq. cbn [fst snd app]. split; [reflexivity|]. split; [exact Hnd|].
  intros f. rewrite Hin. unfold lst.
  rewrite list_elem_of_In, filter_In, <- list_elem_of_In. tauto.
Qed.

(** X15.  Running the download cell again fetches nothing, and after one
    run every wanted file of the listing is in the directory. *)
Theorem download_again (nlst tif : list string) :
  let tif' := fst (download (lst nlst) tif []) in
  snd (download (lst nlst) tif' []) = [] /\
  forall f, f ∈ nlst -> wanted f = true -> exists_in tif' f = true.
Proof.
  destruct (download_new (lst nlst) tif []) as (new & Heq & Hnd & Hin).
  cbv zeta. rewrite Heq. cbn [fst].
  assert (Hall : forall f, f ∈ lst nlst -> f ∈ (tif ++ new)%list).
  { intros f Hf. apply elem_of_app.
    destruct (exists_in tif f) eqn:Hex; [left; apply exists_in_spec, Hex|].
    right. apply Hin. split; [exact Hf|].
    intros H. apply exists_in_spec in H. congruence. }
  split.
  - destruct (download_new (lst nlst) (tif ++ new)%list []) as (new2 & -> & _ & Hin2).
    cbn [snd app]. destruct new2 as [|f new2]; [reflexivity|].
    assert (H : f ∈ f :: new2) by left. apply Hin2 in H as [Hl Hn].
    exfalso. apply Hn, Hall, Hl.
  - intros f Hf Hw. apply exists_in_spec, Hall. unfold lst.
    rewrite list_elem_of_In, filter_In, <- list_elem_of_In. split; assumption.
Qed.

(** *** Frame names and the renaming loop *)

Lemma zfill_long (width : nat) (s : string) :
  (width <= String.length s)%nat -> zfill width s = s.
Proof.
  intros H. unfold zfill. apply Nat.leb_le in H. rewrite H. reflexivity.
Qed.

(** Reading a frame number back from its two-digit form. *)
Lemma zfill2_read (n : nat) :
  option_map Nat.of_uint (DecimalString.NilEmpty.uint_of_string (zfill 2 (str n))) = Some n.
Proof.
  unfold str. rewrite <- (DecimalNat.Unsigned.of_to n) at 2.
  generalize (Nat.to_uint n). intros d.
  destruct d as [|d|d|d|d|d|d|d|d|d|d]; [reflexivity|..];
    (destruct d as [|d|d|d|d|d|d|d|d|d|d]; [reflexivity|..];
     rewrite zfill_long
       by (cbn [DecimalString.NilEmpty.string_of_uint String.length]; lia);
     rewrite DecimalString.NilEmpty.usu; reflexivity).
Qed.

Lemma append_cancel_r (s1 s2 t : string) : s1 ++ t = s2 ++ t -> s1 = s2.
Proof.
  revert s2. induction s1 as [|c s1 IH]; intros s2 H.
  - destruct s2 as [|c2 s2]; [reflexivity|].
    apply (f_equal String.length) in H. rewrite !length_append in H.
    simpl in H. lia.
  - destruct s2 as [|c2 s2].
    + apply (f_equal String.length) in H. rewrite !length_append in H.
      simpl in H. lia.
    + simpl in H. injection H as -> H. f_equal. apply IH, H.
Qed.

Lemma frame_name_inj (i j : nat) : frame_name i = frame_name j -> i = j.
Proof.
  unfold frame_name. intros H. simpl in H. injection H as H.
  apply append_cancel_r in H.
  pose proof (zfill2_read i) as Hi. rewrite H, zfill2_read in Hi. congruence.
Qed.

(** X16.  Frame names keep the order of the frames up to 100 frames: for
    [i < j < 100] the name of frame [i] sorts strictly before the name of
    frame [j], and different frames always get different names.  From 100
    frames on the order is lost: frame 100 sorts before frame 11. *)
Theorem frame_name_order :
  (forall i j, (i < j)%nat -> (j < 100)%nat ->
     String.compare (frame_name i) (frame_name j) = Lt) /\
  (forall i j, frame_name i = frame_name j -> i = j) /\
  String.compare (frame_name 100) (frame_name 11) = Lt.
Proof.
  split; [|split; [exact frame_name_inj | reflexivity]].
  intros i j Hij Hj.
  assert (H : forallb (fun j => forallb (fun i =>
                match String.compare (frame_name i) (frame_name j) with
                | Lt => true
                | _ => false
                end) (seq 0 j)) (seq 0 100) = true) by (vm_compute; reflexivity).
  pose proof (forallb_below _ _ (forallb_below _ _ H j Hj) i Hij) as Hc.
  cbv beta in Hc. destruct (String.compare (frame_name i) (frame_name j));
    [discriminate | reflexivity | discriminate].
Qed.

Section RenameFacts.
Context {F : Type}.

Lemma frame_not_source (f : string) (i : nat) :
  startswith f "3B-HHR-GIS.MS.MRG.3IMERG." = true -> f <> frame_name i.
Proof. intros H ->. discriminate H. Qed.

Lemma rename_frames_from (png_files : list string) : forall (d : @dir F) (k : nat),
  NoDup png_files ->
  (forall f, f ∈ png_files ->
     startswith f "3B-HHR-GIS.MS.MRG.3IMERG." = true /\ d f <> None) ->
  exists d',
    rename_frames k png_files d = Some d' /\
    (forall j f, png_files !! j = Some f -> d' (frame_name (k + j)) = d f) /\
    (forall f, f ∈ png_files -> d' f = None) /\
    (forall name, name ∉ png_files ->
       (forall j, (j < List.length png_files)%nat -> name <> frame_name (k + j)) ->
       d' name = d name).
Proof.
  induction png_files as [|f rest IH]; intros d k Hnd Hsrc.
  - exists d. split; [reflexivity|]. split; [intros j f H; discriminate|].
    split; [intros f H; inversion H | reflexivity].
  - apply NoDup_cons in Hnd as [Hf Hnd].
    destruct (Hsrc f ltac:(left)) as [Hpre Hsome].
    cbn [rename_frames]. rewrite Hpre. unfold rename.
    destruct (d f) as [content|] eqn:Hdf; [clear Hsome | congruence].
    set (d1 := fun name : string =>
                 if name =? frame_name k then Some content
                 else if name =? f then None else d name).
    assert (Hd1 : forall name, name <> frame_name k -> name <> f -> d1 name = d name).
    { intros name H1 H2. unfold d1.
      apply String.eqb_neq in H1, H2. rewrite H1, H2. reflexivity. }
    assert (Hrest : forall f', f' ∈ rest ->
              startswith f' "3B-HHR-GIS.MS.MRG.3IMERG." = true /\ f' <> f /\
              forall i, f' <> frame_name i).
    { intros f' Hf'. destruct (Hsrc f' ltac:(right; exact Hf')) as [Hp _].
      split; [exact Hp|]. split; [intros ->; contradiction|].
      intros i. apply frame_not_source, Hp. }
    destruct (IH d1 (S k) Hnd) as (d' & Hren & Hframes & Hgone & Hother).
    { intros f' Hf'. destruct (Hrest f' Hf') as (Hp & Hne & Hfr).
      split; [exact Hp|]. rewrite Hd1 by auto.
      apply (Hsrc f'). right. exact Hf'. }
    assert (Hk : d' (frame_name k) = Some content).
    { rewrite Hother.
      - unfold d1. rewrite String.eqb_refl. reflexivity.
      - intros H. destruct (Hrest _ H) as (_ & _ & Hfr). exact (Hfr k eq_refl).
      - intros j _ H. apply frame_name_inj in H. lia. }
    assert (Hfnone : d' f = None).
    { rewrite Hother.
      - unfold d1. pose proof (frame_not_source f k Hpre) as Hne.
        apply String.eqb_neq in Hne. rewrite Hne, String.eqb_refl. reflexivity.
      - exact Hf.
      - intros j _. apply frame_not_source, Hpre. }
    exists d'. split; [exact Hren|]. split; [|split].
    + intros j f' Hj. destruct j as [|j]; simpl in Hj.
      * injection Hj as <-. rewrite Nat.add_0_r, Hdf. exact Hk.
      * rewrite Nat.add_succ_r. transitivity (d1 f'); [exact (Hframes j f' Hj)|].
        assert (Hin : f' ∈ rest) by (eapply list_elem_of_lookup_2; exact Hj).
        destruct (Hrest f' Hin) as (_ & Hne & Hfr). apply Hd1; auto.
    + intros f' Hf'. apply elem_of_cons in Hf' as [->|Hf']; [exact Hfnone|].
      apply Hgone, Hf'.
    + intros name Hname Hfr. rewrite Hother.
      * apply Hd1.
        -- specialize (Hfr 0%nat ltac:(simpl; lia)). rewrite Nat.add_0_r in Hfr. exact Hfr.
        -- intros ->. apply Hname. left.
      * intros H. apply Hname. right. exact H.
      * intros j Hj. specialize (Hfr (S j) ltac:(simpl; lia)).
        rewrite Nat.add_succ_r in Hfr. exact Hfr.
Qed.

(** X17.  The renaming loop renumbers the frames and loses none.  When the
    listing has no repeated name and each of its names starts with the
    prefix and is in the directory, no rename fails, and afterwards: the
    file that was [j]-th in the listing is found under the name of frame
    [j]; the old names are gone; every other name holds what it held. *)
Theorem rename_frames_renumbers (png_files : list string) (d : @dir F) :
  NoDup png_files ->
  (forall f, f ∈ png_files ->
     startswith f "3B-HHR-GIS.MS.MRG.3IMERG." = true /\ d f <> None) ->
  exists d',
    rename_frames 0 png_files d = Some d' /\
    (forall j f, png_files !! j = Some f -> d' (frame_name j) = d f) /\
    (forall f, f ∈ png_files -> d' f = None) /\
    (forall name, name ∉ png_files ->
       (forall j, (j < List.length png_files)%nat -> name <> frame_name j) ->
       d' name = d name).
Proof. intros Hnd Hsrc. exact (rename_frames_from png_files d 0 Hnd Hsrc). Qed.

(** X18.  Running the renaming loop again changes nothing: a listing made
    of frame names only has no name with the prefix, so no file is
    renamed, whether or not the names are in the directory. *)
Theorem rename_frames_again (png_files : list string) (d : @dir F) (k : nat) :
  (forall f, f ∈ png_files -> exists i, f = frame_name i) ->
  rename_frames k png_files d = Some d.
Proof.
  revert k. induction png_files as [|f rest IH]; intros k H; [reflexivity|].
  destruct (H f ltac:(left)) as [i ->]. cbn [rename_frames].
  change (startswith (frame_name i) "3B-HHR-GIS.MS.MRG.3IMERG.") with false.
  apply IH. intros f Hf. apply H. right. exact Hf.
Qed.

End RenameFacts.

(** *** Instances *)

(** The right handle dragged from 00:30 to 01:30 while the left stays at
    01:00: the slider snaps to 01:00 - 01:30. *)
Lemma snapped_one_slot_witness :
  snapped (mkChange (60, 30) (60, 90))%Z = (60, 90)%Z /\
  (snd (snapped (mkChange (60, 30) (60, 90))) = fst (snapped (mkChange (60, 30) (60, 90))) + 30)%Z.
Proof.
  split; [reflexivity|].
  apply (snapped_one_slot (mkChange (60, 30) (60, 90))%Z).
  - unfold start_date. simpl. lia.
  - unfold end_date. simpl. lia.
  - exists 2%Z. reflexivity.
  - exists 3%Z. reflexivity.
Defined.

Lemma snapped_stable_witness :
  snapped (mkChange (0, 0) (snapped (mkChange (60, 30) (60, 90))))%Z
  = snapped (mkChange (60, 30) (60, 90))%Z.
Proof.
  apply (snapped_stable (mkChange (60, 30) (60, 90))%Z).
  - unfold start_date. simpl. lia.
  - unfold end_date. simpl. lia.
  - exists 2%Z. reflexivity.
  - exists 3%Z. reflexivity.
  - reflexivity.
Defined.

(** Both handles on 01:00. *)
Lemma show_mean_empty_range_witness :
  Notebook.show_mean (fun _ => Some 1%nat) Nat.add Nat.div (fun r => r) Nat.max 0%nat Nat.div
    (60, 60)%Z = TypeError.
Proof.
  apply (show_mean_empty_range (fun _ => Some 1%nat) Nat.add Nat.div (fun r => r)
           Nat.max 0%nat Nat.div 60 60)%Z.
  lia.
Defined.

(** A directory with two images. *)
Lemma rename_frames_renumbers_witness :
  let a := "3B-HHR-GIS.MS.MRG.3IMERG.a.png" in
  let b := "3B-HHR-GIS.MS.MRG.3IMERG.b.png" in
  let d := fun name : string =>
             if name =? a then Some 1%nat else if name =? b then Some 2%nat else None in
  exists d', rename_frames 0 [a; b] d = Some d' /\
             d' "f00.png" = Some 1%nat /\ d' "f01.png" = Some 2%nat /\ d' a = None.
Proof.
  intros a b d.
  assert (Hnd : NoDup [a; b]).
  { apply NoDup_cons. split; [|apply NoDup_singleton].
    intros H. apply list_elem_of_singleton in H. discriminate H. }
  assert (Hsrc : forall f, f ∈ [a; b] ->
            startswith f "3B-HHR-GIS.MS.MRG.3IMERG." = true /\ d f <> None).
  { intros f Hf. apply elem_of_cons in Hf as [->|Hf].
    - split; [reflexivity | discriminate].
    - apply list_elem_of_singleton in Hf. subst f. split; [reflexivity | discriminate]. }
  destruct (rename_frames_renumbers [a; b] d Hnd Hsrc) as (d' & Hren & Hfr & Hgone & _).
  exists d'. split; [exact Hren|].
  split; [exact (Hfr 0%nat a eq_refl)|].
  split; [exact (Hfr 1%nat b eq_refl) | apply Hgone; left].
Defined.

Lemma rename_frames_again_witness :
  rename_frames 0 [frame_name 0; frame_name 1] (fun _ => @None nat)
  = Some (fun _ => @None nat).
Proof.
  apply (rename_frames_again [frame_name 0; frame_name 1] (fun _ => @None nat) 0).
  intros f Hf. apply elem_of_cons in Hf as [->|Hf]; [exists 0%nat; reflexivity|].
  apply list_elem_of_singleton in Hf. exists 1%nat. exact Hf.
Defined.

End NotebookFacts.

(** ** The slider's observer: both wrappers on one loop *)

Module SliderFacts.
Import Loop LoopFacts Slider.
Section SliderFacts.
Variable show_mean_returns : Z -> bool.
Variable show_snapshot_returns : Z -> Notebook.Change -> bool.

Abbreviation World := Slider.World.
Abbreviation rc := (Slider.run_callback show_mean_returns show_snapshot_returns).
Abbreviation rcT := (Throttle.run_callback show_snapshot_returns).
Abbreviation run_until := (Loop.run_until rc).
Abbreviation fire := (Loop.fire rc).
Abbreviation advanced := (Slider.advanced show_snapshot_returns).
Abbreviation run_events := (Slider.run_events show_mean_returns show_snapshot_returns).

(** *** What a call of each wrapper does *)

Lemma show_snapshot_scheduled c (w : World) :
  scheduled (cells w) = true ->
  show_snapshot c w =
    set_cells (mkCells (timer (cells w)) (time_of_last_call (cells w)) true (Some c)) w.
Proof. intros H. unfold show_snapshot. rewrite H. reflexivity. Qed.

Lemma show_snapshot_unscheduled c (w : World) :
  scheduled (cells w) = false ->
  show_snapshot c w =
    mkWorld (now w)
            (tasks w ++
             [mkTask (now w + Z.max 0 (snapshot_wait - (now w - time_of_last_call (cells w))))
                     snapshot_call_it Sleeping])
            (mkCells (timer (cells w)) (time_of_last_call (cells w)) true (Some c))
            (calls w) (ran w).
Proof.
  intros H. unfold show_snapshot. rewrite H. simpl. unfold set_tasks, set_cells. simpl.
  rewrite (Z.max_r 0 (Z.max 0 _)) by lia. reflexivity.
Qed.

Lemma show_mean_unfold (w : World) :
  show_mean w =
    let ks := match timer (cells w) with
              | Some tm => alter cancel_task (_task tm) (tasks w)
              | None => tasks w
              end in
    mkWorld (now w)
            (ks ++ [mkTask (now w + mean_wait) mean_call_it Sleeping])
            (mkCells (Some (mkTimer mean_wait mean_call_it (length ks)))
                     (time_of_last_call (cells w)) (scheduled (cells w))
                     (new_args (cells w)))
            (calls w) (ran w).
Proof. unfold show_mean. destruct (timer (cells w)); reflexivity. Qed.

(** *** The two lanes *)

Lemma lanes_set_now t (w : World) pm ps : lanes w pm ps -> lanes (set_now t w) pm ps.
Proof. exact (fun H => H). Qed.

Lemma lanes_init t0 : lanes (Slider.init t0) None None.
Proof.
  unfold lanes. simpl. repeat split; try discriminate.
  all: intros i k Hk; rewrite lookup_nil in Hk; discriminate.
Qed.

Lemma lanes_show_snapshot c (w : World) pm ps :
  lanes w pm ps ->
  lanes (show_snapshot c w) pm
    (if scheduled (cells w) then ps
     else Some (length (tasks w),
                now w + Z.max 0 (snapshot_wait - (now w - time_of_last_call (cells w))))).
Proof.
  intros (Hm & Hs & Htm & Hpm & Hps).
  destruct (scheduled (cells w)) eqn:Hsch.
  - rewrite show_snapshot_scheduled by assumption.
    unfold lanes. simpl. repeat split; try apply Hm; try apply Hs; try assumption.
    eauto.
  - rewrite show_snapshot_unscheduled by assumption.
    assert (ps = None) as ->.
    { destruct ps as [[i d]|]; [|reflexivity].
      destruct (Hps i d eq_refl) as [H _]. congruence. }
    unfold lanes. simpl. split; [|split; [|split; [|split]]].
    + apply lane_snoc_other; [discriminate | exact Hm].
    + apply lane_none_snoc, Hs.
    + intros tm Ht. destruct (Htm tm Ht) as (k & Hk & Hj).
      exists k. split; [|exact Hj]. apply lookup_app_l_Some, Hk.
    + exact Hpm.
    + intros i d _. eauto.
Qed.

Lemma lanes_show_mean (w : World) pm ps :
  lanes w pm ps ->
  exists i, lanes (show_mean w) (Some (i, now w + mean_wait)) ps.
Proof.
  intros (Hm & Hs & Htm & Hpm & Hps). rewrite show_mean_unfold.
  set (ks := match timer (cells w) with
             | Some tm => alter cancel_task (_task tm) (tasks w)
             | None => tasks w
             end).
  assert (Hks : lane mean_call_it ks None /\ lane snapshot_call_it ks ps).
  { subst ks. destruct (timer (cells w)) as [tm|] eqn:Htimer.
    - destruct (Htm tm eq_refl) as (k & Hk & Hj).
      rewrite (alter_as_insert _ _ _ _ Hk). split.
      + destruct pm as [[i d]|].
        * destruct (Hpm i d eq_refl) as (tm' & Htm' & Hi).
          assert (tm' = tm) by congruence. subst tm' i.
          eapply lane_insert_own; [exact Hm | apply cancel_task_not_sleeping].
        * eapply lane_insert_other; [exact Hm | exact Hk | | apply cancel_task_not_sleeping].
          right. destruct (sleeping k) eqn:Hsl; [|reflexivity].
          destruct Hm as [Hall _]. specialize (Hall _ _ Hk Hj Hsl). discriminate.
      + eapply lane_insert_other; [exact Hs | exact Hk | | apply cancel_task_not_sleeping].
        left. rewrite Hj. discriminate.
    - split; [|exact Hs]. destruct pm as [[i d]|]; [|exact Hm].
      destruct (Hpm i d eq_refl) as (tm' & Htm' & _). discriminate. }
  destruct Hks as [Hkm Hksn]. exists (length ks).
  unfold lanes. cbv zeta. simpl. split; [|split; [|split; [|split]]].
  - apply lane_none_snoc, Hkm.
  - apply lane_snoc_other; [discriminate | exact Hksn].
  - intros tm [= <-]. simpl. eexists. split; [apply list_lookup_middle; reflexivity|reflexivity].
  - intros i d [= <- _]. eauto.
  - exact Hps.
Qed.

(** *** What the executions of each function are *)

Lemma means_snoc_mean (l : list (Z * Ran)) t : means (l ++ [(t, ran_mean)]) = means l ++ [(t, tt)].
Proof. unfold means. rewrite omap_app. reflexivity. Qed.

Lemma snapshots_snoc_mean (l : list (Z * Ran)) t :
  snapshots (l ++ [(t, ran_mean)]) = snapshots l.
Proof. unfold snapshots. rewrite omap_app. simpl. apply app_nil_r. Qed.

Lemma means_snoc_snapshot (l : list (Z * Ran)) t (inv : option Notebook.Change) :
  means (l ++ match inv with Some a => [(t, ran_snapshot a)] | None => [] end) = means l.
Proof. unfold means. rewrite omap_app. destruct inv; simpl; apply app_nil_r. Qed.

Lemma snapshots_snoc_snapshot (l : list (Z * Ran)) t (inv : option Notebook.Change) :
  snapshots (l ++ match inv with Some a => [(t, ran_snapshot a)] | None => [] end) =
  snapshots l ++ match inv with Some a => [(t, a)] | None => [] end.
Proof. unfold snapshots. rewrite omap_app. destruct inv; reflexivity. Qed.

(** *** A timer fires *)

Lemma fire_mean (w : World) ps i d :
  lanes w (Some (i, d)) ps -> d <= now w ->
  lanes (fire i w) None ps /\ now (fire i w) = now w /\ cells (fire i w) = cells w /\
  calls (fire i w) = calls w ++ [(now w, ran_mean)].
Proof.
  intros (Hm & Hs & Htm & Hpm & Hps) Hd.
  pose proof (proj2 Hm i d eq_refl) as Hk.
  rewrite (fire_enabled rc i w _ Hk) by (apply due_intro; [reflexivity | exact Hd]).
  simpl. split; [|auto].
  unfold lanes; simpl. split; [|split; [|split; [|split]]].
  - eapply lane_insert_own; [exact Hm | apply finish_not_sleeping].
  - eapply lane_insert_other; [exact Hs | exact Hk | left; discriminate
                                | apply finish_not_sleeping].
  - intros tm Ht. destruct (Htm tm Ht) as (k & Hk' & Hj).
    destruct (decide (i = _task tm)) as [e|ne].
    + rewrite <- e. rewrite list_lookup_insert_eq by (eapply lookup_lt_Some; eassumption).
      eauto.
    + rewrite list_lookup_insert_ne by assumption. eauto.
  - discriminate.
  - exact Hps.
Qed.

Lemma fire_snapshot (w : World) pm i d :
  lanes w pm (Some (i, d)) -> d <= now w ->
  let '(s', inv, _) := rcT Throttle.call_it (now w) (throttle_part (cells w)) in
  lanes (fire i w) pm None /\ now (fire i w) = now w /\
  timer (cells (fire i w)) = timer (cells w) /\
  throttle_part (cells (fire i w)) = s' /\
  calls (fire i w) =
    calls w ++ match inv with Some a => [(now w, ran_snapshot a)] | None => [] end.
Proof.
  intros (Hm & Hs & Htm & Hpm & Hps) Hd.
  pose proof (proj2 Hs i d eq_refl) as Hk.
  assert (Hl : forall ok n s' cl rn, timer s' = timer (cells w) ->
            lanes (mkWorld n (<[i := mkTask d snapshot_call_it (finish ok)]> (tasks w))
                           s' cl rn) pm None).
  { intros ok n s' cl rn Ht. unfold lanes; simpl. split; [|split; [|split; [|split]]].
    - eapply lane_insert_other; [exact Hm | exact Hk | left; discriminate
                                  | apply finish_not_sleeping].
    - eapply lane_insert_own; [exact Hs | apply finish_not_sleeping].
    - intros tm Htm'. rewrite Ht in Htm'. destruct (Htm tm Htm') as (k & Hk' & Hj).
      destruct (decide (i = _task tm)) as [e|ne].
      + rewrite <- e in Hk'. rewrite Hk in Hk'. injection Hk' as <-. discriminate.
      + rewrite list_lookup_insert_ne by assumption. eauto.
    - intros j dj Hp. rewrite Ht. eauto.
    - discriminate. }
  rewrite (fire_enabled rc i w _ Hk) by (apply due_intro; [reflexivity | exact Hd]).
  unfold Slider.run_callback, Throttle.run_callback, throttle_part. simpl.
  destruct (new_args (cells w)) as [a|]; [destruct (show_snapshot_returns (now w) a)|];
    simpl; (split; [|auto]).
  - apply (Hl true). reflexivity.
  - apply (Hl false). reflexivity.
  - apply (Hl false). reflexivity.
Qed.

(** *** The loop runs until [t] *)

Lemma lane_not_due (c : callback) (ks : list Task) p t :
  lane c ks p -> Forall (fun k => due t k = false) ks ->
  due_in p t = None /\ left_over p t = p.
Proof.
  intros [_ Hex] Hall. destruct p as [[i d]|]; [|split; reflexivity].
  pose proof (Hex i d eq_refl) as Hk.
  rewrite Forall_lookup in Hall. specialize (Hall _ _ Hk). unfold due in Hall. simpl in Hall.
  simpl. rewrite Hall. split; reflexivity.
Qed.

Lemma advanced_idle t (w : World) pm ps :
  lanes w pm ps -> earliest 0 (tasks w) t = None ->
  advanced t pm ps w (set_now (Z.max (now w) t) w).
Proof.
  intros Hl He. apply earliest_None in He.
  destruct Hl as (Hm & Hs & Hrest).
  destruct (lane_not_due _ _ _ t Hm He) as [Hdm Hlm].
  destruct (lane_not_due _ _ _ t Hs He) as [Hds Hls].
  unfold Slider.advanced. rewrite Hdm, Hds, Hlm, Hls. simpl.
  rewrite app_nil_r. split; [exact (conj Hm (conj Hs Hrest))|]. repeat split.
Qed.

Lemma lanes_earliest (w : World) pm ps t i d :
  lanes w pm ps -> earliest 0 (tasks w) t = Some (i, d) ->
  d <= t /\
  (forall c p i' d', lane c (tasks w) p -> p = Some (i', d') -> d' <= t -> d <= d') /\
  (pm = Some (i, d) \/ ps = Some (i, d)).
Proof.
  intros (Hm & Hs & _) He.
  destruct (earliest_fires t w i d He) as (k & Hk & Hst & Hw & Hd & _).
  split; [exact Hd|]. split.
  - intros c p i' d' [_ Hex] -> Hd'. specialize (Hex i' d' eq_refl).
    apply (earliest_min _ _ _ _ _ He (mkTask d' c Sleeping)).
    + eapply list_elem_of_lookup_2, Hex.
    + apply due_intro; [reflexivity | exact Hd'].
  - assert (Hsl : sleeping k = true) by (unfold sleeping; rewrite Hst; reflexivity).
    destruct (job k) eqn:Hj.
    + left. rewrite <- Hw. exact (proj1 Hm i k Hk Hj Hsl).
    + right. rewrite <- Hw. exact (proj1 Hs i k Hk Hj Hsl).
Qed.

Lemma advanced_after_mean t (w w1 w' : World) i d ps :
  d <= t -> (forall i' d', ps = Some (i', d') -> d' <= t -> d <= d') ->
  now w1 = Z.max (now w) d -> cells w1 = cells w ->
  calls w1 = calls w ++ [(Z.max (now w) d, ran_mean)] ->
  advanced t None ps w1 w' -> advanced t (Some (i, d)) ps w w'.
Proof.
  intros Hd Hmin Hn Hc Hcl (Hl & Hnow & Htm & Hmeans & Hsnap).
  unfold Slider.advanced. simpl left_over in *. simpl due_in in *.
  assert (Hdt : (d <=? t) = true) by (apply Z.leb_le; exact Hd). rewrite Hdt.
  rewrite Hn, Hc, Hcl in *. rewrite means_snoc_mean in Hmeans.
  rewrite snapshots_snoc_mean in Hsnap. rewrite app_nil_r in Hmeans.
  split; [exact Hl|]. split; [lia|]. split; [exact Htm|]. split; [exact Hmeans|].
  destruct ps as [[i' d']|]; simpl in *; [|exact Hsnap].
  destruct (d' <=? t) eqn:Hd't; [|exact Hsnap].
  apply Z.leb_le in Hd't. specialize (Hmin _ _ eq_refl Hd't).
  replace (Z.max (Z.max (now w) d) d') with (Z.max (now w) d') in Hsnap by lia.
  exact Hsnap.
Qed.

Lemma advanced_after_snapshot t (w w1 w' : World) i d pm :
  d <= t -> (forall i' d', pm = Some (i', d') -> d' <= t -> d <= d') ->
  now w1 = Z.max (now w) d -> timer (cells w1) = timer (cells w) ->
  (let '(s', inv, _) :=
     rcT Throttle.call_it (Z.max (now w) d) (throttle_part (cells w)) in
   throttle_part (cells w1) = s' /\
   calls w1 =
     calls w ++ match inv with
                | Some a => [(Z.max (now w) d, ran_snapshot a)]
                | None => []
                end) ->
  advanced t pm None w1 w' -> advanced t pm (Some (i, d)) w w'.
Proof.
  intros Hd Hmin Hn Ht1 Hf (Hl & Hnow & Htm & Hmeans & Hsnap).
  unfold Slider.advanced. simpl left_over in *. simpl due_in in *.
  assert (Hdt : (d <=? t) = true) by (apply Z.leb_le; exact Hd). rewrite Hdt.
  destruct (rcT Throttle.call_it (Z.max (now w) d) (throttle_part (cells w)))
    as [[s' inv] ok].
  destruct Hf as [Hc Hcl]. destruct Hsnap as [Hs1 Hs2].
  rewrite Hn, Hcl in *. rewrite means_snoc_snapshot in Hmeans.
  rewrite snapshots_snoc_snapshot in Hs2.
  split; [exact Hl|]. split; [lia|]. split; [congruence|]. split.
  - destruct pm as [[i' d']|]; simpl in *; [|exact Hmeans].
    destruct (d' <=? t) eqn:Hd't; [|exact Hmeans].
    apply Z.leb_le in Hd't. specialize (Hmin _ _ eq_refl Hd't).
    replace (Z.max (Z.max (now w) d) d') with (Z.max (now w) d') in Hmeans by lia.
    exact Hmeans.
  - split; [congruence | exact Hs2].
Qed.

Lemma run_until_lanes t : forall n (w : World) pm ps,
  (length (option_list pm) + length (option_list ps) <= n)%nat ->
  lanes w pm ps -> advanced t pm ps w (run_until t w).
Proof.
  induction n as [|n IH]; intros w pm ps Hn Hl.
  - destruct (earliest 0 (tasks w) t) as [[i d]|] eqn:He.
    + destruct (lanes_earliest _ _ _ _ _ _ Hl He) as (_ & _ & [-> | ->]);
        simpl in Hn; lia.
    + rewrite (run_until_none rc t w He). apply advanced_idle; assumption.
  - destruct (earliest 0 (tasks w) t) as [[i d]|] eqn:He.
    + rewrite (run_until_next rc t w i d He).
      destruct (lanes_earliest _ _ _ _ _ _ Hl He) as (Hd & Hmin & [-> | ->]).
      * set (w0 := set_now (Z.max (now w) d) w).
        destruct (fire_mean w0 ps i d Hl) as (Hl1 & Hn1 & Hc1 & Hcl1); [simpl; lia|].
        eapply advanced_after_mean; [exact Hd | | exact Hn1 | exact Hc1 | exact Hcl1 |].
        -- intros i' d' Hps. eapply Hmin; [exact (proj1 (proj2 Hl)) | exact Hps].
        -- apply IH; [simpl in *; lia | exact Hl1].
      * set (w0 := set_now (Z.max (now w) d) w).
        pose proof (fire_snapshot w0 pm i d Hl) as Hf. simpl now in Hf. simpl cells in Hf.
        assert (Hle : d <= Z.max (now w) d) by lia. specialize (Hf Hle).
        destruct (rcT Throttle.call_it (Z.max (now w) d) (throttle_part (cells w)))
          as [[s' inv] ok] eqn:Hrc.
        destruct Hf as (Hl1 & Hn1 & Ht1 & Hc1 & Hcl1).
        eapply advanced_after_snapshot; [exact Hd | | exact Hn1 | exact Ht1 | |].
        -- intros i' d' Hpm. eapply Hmin; [exact (proj1 Hl) | exact Hpm].
        -- rewrite Hrc. split; assumption.
        -- apply IH; [destruct pm; simpl in *; lia | exact Hl1].
    + rewrite (run_until_none rc t w He). apply advanced_idle; assumption.
Qed.

Lemma run_until_advanced t (w : World) pm ps :
  lanes w pm ps -> advanced t pm ps w (run_until t w).
Proof.
  apply (run_until_lanes t 2). destruct pm, ps; simpl; lia.
Qed.

(** *** The throttled wrapper next to the same wrapper alone *)

Lemma throttle_twin_init t0 : throttle_twin (Slider.init t0) None (Throttle.init t0).
Proof. repeat split. constructor. Qed.

Lemma throttle_twin_run t (w w' : World) pm ps wT :
  throttle_twin w ps wT -> advanced t pm ps w w' ->
  throttle_twin w' (left_over ps t) (Loop.run_until rcT t wT).
Proof.
  intros (Hn & Hc & Hcl & Hv) (_ & Hnow & _ & _ & Hsnap).
  destruct ps as [[i d]|]; cbn [left_over due_in] in *.
  - destruct Hv as [j Hsole]. destruct (d <=? t) eqn:Hdt.
    + apply Z.leb_le in Hdt.
      pose proof (run_until_fire rcT t wT j d Throttle.call_it Hsole Hdt) as H.
      cbv zeta in H. rewrite <- Hn, <- Hc in H.
      destruct (rcT Throttle.call_it (Z.max (now w) d) (throttle_part (cells w)))
        as [[s' inv] ok].
      destruct Hsnap as [Hs1 Hs2]. rewrite H. unfold throttle_twin. simpl.
      split; [lia|]. split; [exact Hs1|]. split; [congruence|].
      eapply sole_sleeper_insert; [exact Hsole | apply finish_not_sleeping].
    + apply Z.leb_gt in Hdt. rewrite (run_until_early rcT t wT j d _ Hsole Hdt).
      destruct Hsnap as [Hs1 Hs2]. unfold throttle_twin. simpl.
      split; [lia|]. split; [congruence|]. split; [congruence|]. eauto.
  - rewrite (run_until_quiet rcT t wT Hv). destruct Hsnap as [Hs1 Hs2].
    unfold throttle_twin. simpl.
    split; [lia|]. split; [congruence|]. split; [congruence|]. exact Hv.
Qed.

Lemma throttle_twin_snapshot c (w : World) pm ps wT :
  lanes w pm ps -> throttle_twin w ps wT ->
  throttle_twin (show_snapshot c w)
    (if scheduled (cells w) then ps
     else Some (length (tasks w),
                now w + Z.max 0 (snapshot_wait - (now w - time_of_last_call (cells w)))))
    (Throttle.throttled snapshot_wait c wT).
Proof.
  intros (_ & _ & _ & _ & Hps) (Hn & Hc & Hcl & Hv).
  assert (Hsch : Throttle.scheduled (cells wT) = scheduled (cells w))
    by (rewrite <- Hc; reflexivity).
  assert (Htl : Throttle.time_of_last_call (cells wT) = time_of_last_call (cells w))
    by (rewrite <- Hc; reflexivity).
  destruct (scheduled (cells w)) eqn:Hs.
  - rewrite show_snapshot_scheduled by assumption.
    rewrite ThrottleFacts.throttled_scheduled by assumption.
    unfold throttle_twin, throttle_part. simpl. rewrite Htl. auto.
  - rewrite show_snapshot_unscheduled by assumption.
    rewrite ThrottleFacts.throttled_unscheduled by assumption.
    assert (ps = None) as ->.
    { destruct ps as [[i d]|]; [|reflexivity].
      destruct (Hps i d eq_refl) as [H _]. congruence. }
    unfold throttle_twin, throttle_part. simpl. rewrite Htl, <- Hn.
    split; [reflexivity|]. split; [reflexivity|]. split; [exact Hcl|].
    exists (length (tasks wT)). apply quiet_snoc, Hv.
Qed.

Lemma throttle_twin_mean (w : World) ps wT :
  throttle_twin w ps wT -> throttle_twin (show_mean w) ps wT.
Proof. rewrite show_mean_unfold. exact (fun H => H). Qed.

(** *** A sequence of changes *)

Lemma run_events_throttle evs : forall (w : World) pm ps wT,
  lanes w pm ps -> throttle_twin w ps wT ->
  exists pm' ps',
    lanes (run_events evs w) pm' ps' /\
    throttle_twin (run_events evs w) ps'
      (Loop.run_some rcT (Throttle.throttled snapshot_wait) (snapshot_moments evs) wT).
Proof.
  induction evs as [|[[t sv] c] evs IH]; intros w pm ps wT Hl Htw; [eauto|].
  pose proof (run_until_advanced t w pm ps Hl) as Hadv.
  pose proof (throttle_twin_run t _ _ _ _ _ Htw Hadv) as Htw1.
  pose proof (proj1 Hadv) as Hl1.
  destruct sv; simpl.
  - eapply IH; [apply lanes_show_snapshot, Hl1|].
    eapply throttle_twin_snapshot; [exact Hl1 | exact Htw1].
  - destruct (lanes_show_mean _ _ _ Hl1) as [i Hl2].
    eapply IH; [exact Hl2|]. apply throttle_twin_mean, Htw1.
Qed.

Lemma snapshot_moments_calls evs :
  omap (fun e : Z * option Notebook.Change =>
          match snd e with Some a => Some (fst e, a) | None => None end)
       (snapshot_moments evs) = snapshot_calls evs.
Proof.
  induction evs as [|[[t sv] c] evs IH]; [reflexivity|].
  destruct sv; simpl; [f_equal|]; exact IH.
Qed.

Lemma snapshot_moments_times evs :
  map fst (snapshot_moments evs) = map (fun e : Event => fst (fst e)) evs.
Proof. unfold snapshot_moments. rewrite map_map. reflexivity. Qed.


End SliderFacts.


End SliderFacts.
